(** * galois: scalar finite-field arithmetic and integer routines

    A shallow embedding of [galois/integer.py], [galois/meta_mixin_target.py]
    and [galois/meta_gf2.py].  Python integers are unbounded, so they are
    modelled by [Z]; [//] and [%] are Python's floor division and modulus,
    which coincide with [Z.div] and [Z.modulo] for a non-zero divisor and
    raise [ZeroDivisionError] otherwise.  The compiled lookup kernels work
    on 64-bit integers; where a kernel multiplies, the wrap-around of the
    product is written out. *)

From Equations Require Import Equations.
From Stdlib Require Import ZArith List Lia Bool.
Import ListNotations.
Local Open Scope Z_scope.

(** ** Python outcomes *)

Inductive exn : Set :=
| ValueError
| IndexError
| ZeroDivisionError
| UnboundLocalError.

(** What a call does: it returns a value or raises. *)
Inductive outcome (A : Type) : Type :=
| Ok (v : A)
| Raise (e : exn).
Arguments Ok {A} v.
Arguments Raise {A} e.

Definition obind {A B} (r : outcome A) (f : A -> outcome B) : outcome B :=
  match r with
  | Ok v => f v
  | Raise e => Raise e
  end.

(** [a // b] *)
Definition floordiv (a b : Z) : outcome Z :=
  if b =? 0 then Raise ZeroDivisionError else Ok (a / b).

(** [a % b] *)
Definition pymod (a b : Z) : outcome Z :=
  if b =? 0 then Raise ZeroDivisionError else Ok (a mod b).

(** ** numba [int64]

    The lookup kernels are compiled by numba with the signature
    [int64(int64, int64)]: their arguments, the table entries and their
    locals are 64-bit signed integers, and a product that leaves the range
    wraps around in two's complement. *)

Definition is_int64 (x : Z) : Prop := - 2 ^ 63 <= x < 2 ^ 63.

Definition wrap_int64 (x : Z) : Z := (x + 2 ^ 63) mod 2 ^ 64 - 2 ^ 63.

(** ** numpy arrays

    [l[i]] on a one-dimensional array: a negative index counts from the end,
    an index outside [[-len, len)] raises [IndexError]. *)

Definition size {A} (l : list A) : Z := Z.of_nat (length l).

Definition np_pos {A} (l : list A) (i : Z) : option nat :=
  let j := if i <? 0 then i + size l else i in
  if (0 <=? j) && (j <? size l) then Some (Z.to_nat j) else None.

Definition np_index {A} (l : list A) (i : Z) : outcome A :=
  match np_pos l i with
  | Some j =>
      match nth_error l j with
      | Some v => Ok v
      | None => Raise IndexError
      end
  | None => Raise IndexError
  end.

(** [l[i] = v], giving the array after the assignment. *)
Definition np_set {A} (l : list A) (i : Z) (v : A) : outcome (list A) :=
  match np_pos l i with
  | Some j => Ok (firstn j l ++ v :: skipn (S j) l)
  | None => Raise IndexError
  end.

(** ** galois/integer.py *)

Module integer.

(** The assignment [u = (k1*u + n // u**k1) // k] in the body of [iroot]'s
    loop.  [k1] is [k - 1 >= 1] on every path that reaches it, so [u**k1]
    is the integer power. *)
Definition newton (n k k1 u : Z) : outcome Z :=
  obind (floordiv n (u ^ k1)) (fun q => floordiv (k1 * u + q) k).

(** [while u < x: x = u; u = (k1*u + n // u**k1) // k] followed by
    [return x].  [fuel] bounds the number of iterations; [None] means that
    the loop was still running when the bound was reached. *)
Fixpoint iroot_loop (fuel : nat) (n k k1 u x : Z) : option (outcome Z) :=
  if u <? x then
    match fuel with
    | O => None
    | S fuel' =>
        let x := u in
        match newton n k k1 u with
        | Ok u => iroot_loop fuel' n k k1 u x
        | Raise e => Some (Raise e)
        end
    end
  else Some (Ok x).

Definition iroot (fuel : nat) (n k : Z) : option (outcome Z) :=
  if negb (n >? 0) then Some (Raise ValueError)
  else if negb (k >=? 2) then Some (Raise ValueError)
  else
    let u := n in
    let x := n + 1 in
    let k1 := k - 1 in
    iroot_loop fuel n k k1 u x.

(** [while b_high < n: low, b_low, high, b_high = high, b_high, high*2, b_high**2] *)
Fixpoint ilog_bracket (fuel : nat) (n low b_low high b_high : Z)
  : option (Z * Z * Z * Z) :=
  if b_high <? n then
    match fuel with
    | O => None
    | S fuel' => ilog_bracket fuel' n high b_high (high * 2) (b_high ^ 2)
    end
  else Some (low, b_low, high, b_high).

(** The binary search of [ilog] together with the two [return]s that follow
    it.  [mid - low] is positive whenever the loop body runs, so
    [b**(mid - low)] is the integer power. *)
Fixpoint ilog_bisect (fuel : nat) (n b low b_low high b_high : Z) : option Z :=
  if high - low >? 1 then
    match fuel with
    | O => None
    | S fuel' =>
        let mid := (low + high) / 2 in
        let b_mid := b_low * b ^ (mid - low) in
        if n <? b_mid then ilog_bisect fuel' n b low b_low mid b_mid
        else if b_mid <? n then ilog_bisect fuel' n b mid b_mid high b_high
        else Some mid
    end
  else if b_high =? n then Some high
  else Some low.

Definition ilog (fuel : nat) (n b : Z) : option (outcome Z) :=
  if negb (n >? 0) then Some (Raise ValueError)
  else if negb (b >=? 2) then Some (Raise ValueError)
  else
    match ilog_bracket fuel n 0 1 1 b with
    | None => None
    | Some (low, b_low, high, b_high) =>
        option_map Ok (ilog_bisect fuel n b low b_low high b_high)
    end.

(** [isqrt].  On Python 3.8 and later ([py38]) the function returns
    [math.isqrt(n)], for which [math_isqrt] stands; before, it checks the
    sign of [n] and recurses on [n >> 2]. *)
Equations? isqrt (py38 : bool) (math_isqrt : Z -> outcome Z) (n : Z) : outcome Z
  by wf (Z.to_nat n) lt :=
  isqrt true math_isqrt n := math_isqrt n;
  isqrt false math_isqrt n with Z_lt_dec n 0 => {
    | left _ := Raise ValueError;
    | right _ with Z_lt_dec n 2 => {
      | left _ := Ok n;
      | right _ :=
          obind (isqrt false math_isqrt (Z.shiftr n 2)) (fun s =>
            let small_candidate := Z.shiftl s 1 in
            let large_candidate := small_candidate + 1 in
            if large_candidate * large_candidate >? n then Ok small_candidate
            else Ok large_candidate) } }.
Proof.
  rewrite Z.shiftr_div_pow2 by lia. change (2 ^ 2) with 4.
  apply Z2Nat.inj_lt; try lia.
  - apply Z.div_pos; lia.
  - apply Z.div_lt; lia.
Qed.

End integer.

(** ** galois/meta_mixin_target.py *)

Module meta_mixin_target.

(** The attributes and the abstract methods of a class built with the
    [TargetMixin] metaclass.  [_build_lookup_tables] and the five
    [_*_python] methods raise [NotImplementedError] in the mixin and are
    supplied by the field classes (GF2, GF2m, GFp, GFpm); they are taken
    here as pure functions on the integer representation. *)
Record TargetMixin : Type := {
  characteristic : Z;
  degree : Z;
  order : Z;
  primitive_element : Z;
  _build_lookup_tables : list Z * list Z * list Z;
  _add_python : Z -> Z -> Z;
  _subtract_python : Z -> Z -> Z;
  _multiply_python : Z -> Z -> Z;
  _additive_inverse_python : Z -> Z;
  _multiplicative_inverse_python : Z -> Z
}.

(** *** Pure python arithmetic methods *)

Definition _divide_python (cls : TargetMixin) (a b : Z) : Z :=
  if (a =? 0) || (b =? 0) then 0
  else
    let b_inv := _multiplicative_inverse_python cls b in
    _multiply_python cls a b_inv.

Definition _multiple_add_python (cls : TargetMixin) (a multiple : Z) : outcome Z :=
  obind (pymod multiple (characteristic cls)) (fun b =>
  Ok (_multiply_python cls a b)).

(** The [while power > 1] loop of [_power_python]; it gives the final
    [(result_s, result_m)]. *)
Equations? _power_python_loop (cls : TargetMixin) (result_s result_m power : Z)
  : Z * Z by wf (Z.to_nat power) lt :=
  _power_python_loop cls result_s result_m power with Z_lt_dec 1 power => {
    | right _ := (result_s, result_m);
    | left _ with Z.eq_dec (power mod 2) 0 => {
      | left _ :=
          _power_python_loop cls (_multiply_python cls result_s result_s) result_m
            (power / 2);
      | right _ :=
          _power_python_loop cls result_s (_multiply_python cls result_m result_s)
            (power - 1) } }.
Proof.
  - apply Z2Nat.inj_lt; try lia.
    + apply Z.div_pos; lia.
    + apply Z.div_lt; lia.
  - lia.
Qed.

Definition _power_python (cls : TargetMixin) (a power : Z) : Z :=
  if power =? 0 then 1
  else
    let '(a, power) :=
      if power <? 0 then (_multiplicative_inverse_python cls a, Z.abs power)
      else (a, power) in
    let result_s := a in
    let result_m := 1 in
    let '(result_s, result_m) := _power_python_loop cls result_s result_m power in
    let result := _multiply_python cls result_m result_s in
    result.

(** The body of [for i in range(0, cls.order - 1)] in [_log_python], entered
    with the loop variable [i] and [n] further values of the range to come.
    It gives the value of [i] when the loop is left, by [break] or at the
    end of the range. *)
Fixpoint _log_python_loop (cls : TargetMixin) (beta result i : Z) (n : nat) : Z :=
  if result =? beta then i
  else
    match n with
    | O => i
    | S n' =>
        _log_python_loop cls beta
          (_multiply_python cls result (primitive_element cls)) (i + 1) n'
    end.

(** With an empty range [i] is never bound and [return i] raises. *)
Definition _log_python (cls : TargetMixin) (beta : Z) : outcome Z :=
  let result := 1 in
  match Z.to_nat (order cls - 1) with
  | O => Raise UnboundLocalError
  | S n => Ok (_log_python_loop cls beta result 0 n)
  end.

(** [for j in range(j, j + n)] in [_poly_eval_python]. *)
Fixpoint _poly_eval_python_loop (cls : TargetMixin) (coeffs : list Z)
    (values result j : Z) (n : nat) : outcome Z :=
  match n with
  | O => Ok result
  | S n' =>
      let p := _multiply_python cls result values in
      obind (np_index coeffs j) (fun c =>
      let result := _add_python cls c p in
      _poly_eval_python_loop cls coeffs values result (j + 1) n')
  end.

Definition _poly_eval_python (cls : TargetMixin) (coeffs : list Z) (values : Z)
  : outcome Z :=
  obind (np_index coeffs 0) (fun result =>
  _poly_eval_python_loop cls coeffs values result 1 (Z.to_nat (size coeffs - 1))).

(** *** The lookup kernels

    The module-level globals as [_target_jit_lookup] sets them. *)
Record Globals : Type := {
  CHARACTERISTIC : Z;
  ORDER : Z;
  EXP : list Z;
  LOG : list Z;
  ZECH_LOG : list Z;
  ZECH_E : Z
}.

(** The assignments of [_target_jit_lookup] to the globals.  (The tables are
    cached in [cls._EXP], [cls._LOG] and [cls._ZECH_LOG] after the first
    call; the cache holds what [_build_lookup_tables] returned.) *)
Definition _target_jit_lookup (cls : TargetMixin) : Globals :=
  let '(_EXP, _LOG, _ZECH_LOG) := _build_lookup_tables cls in
  {| CHARACTERISTIC := characteristic cls;
     ORDER := order cls;
     EXP := _EXP;
     LOG := _LOG;
     ZECH_LOG := _ZECH_LOG;
     ZECH_E := if characteristic cls =? 2 then 0 else (order cls - 1) / 2 |}.

(** A kernel reads the tables as it runs.  [M A] is a run of a kernel: the
    table entries it indexed, in program order, and its outcome. *)
Inductive table : Set := tEXP | tLOG | tZECH_LOG.

Definition access : Set := (table * Z)%type.

Definition M (A : Type) : Type := (list access * outcome A)%type.

Definition trace {A} (m : M A) : list access := fst m.
Definition value {A} (m : M A) : outcome A := snd m.

Definition ret {A} (a : A) : M A := ([], Ok a).

Definition bind {A B} (m : M A) (f : A -> M B) : M B :=
  match m with
  | (t, Ok a) => let (t', r) := f a in (t ++ t', r)
  | (t, Raise e) => (t, Raise e)
  end.

Definition lift {A} (r : outcome A) : M A := ([], r).

Definition rdEXP (G : Globals) (i : Z) : M Z := ([(tEXP, i)], np_index (EXP G) i).
Definition rdLOG (G : Globals) (i : Z) : M Z := ([(tLOG, i)], np_index (LOG G) i).
Definition rdZECH_LOG (G : Globals) (i : Z) : M Z :=
  ([(tZECH_LOG, i)], np_index (ZECH_LOG G) i).

Notation "x <- m ;; k" := (bind m (fun x => k))
  (at level 61, m at next level, right associativity).

Definition _add (G : Globals) (a b : Z) : M Z :=
  m <- rdLOG G a ;;
  n <- rdLOG G b ;;
  if a =? 0 then ret b
  else if b =? 0 then ret a
  else
    let '(m, n) := if m >? n then (n, m) else (m, n) in
    if n - m =? ZECH_E G then ret 0
    else
      zl <- rdZECH_LOG G (n - m) ;;
      rdEXP G (m + zl).

Definition _subtract (G : Globals) (a b : Z) : M Z :=
  m <- rdLOG G a ;;
  l <- rdLOG G b ;;
  let n := l + ZECH_E G in
  if b =? 0 then ret a
  else if a =? 0 then rdEXP G n
  else
    let '(m, n) := if m >? n then (n, m) else (m, n) in
    let z := n - m in
    if z =? ZECH_E G then ret 0
    else
      let z := if z >=? ORDER G - 1 then z - (ORDER G - 1) else z in
      zl <- rdZECH_LOG G z ;;
      rdEXP G (m + zl).

Definition _multiply (G : Globals) (a b : Z) : M Z :=
  m <- rdLOG G a ;;
  n <- rdLOG G b ;;
  if (a =? 0) || (b =? 0) then ret 0
  else rdEXP G (m + n).

Definition _divide (G : Globals) (a b : Z) : M Z :=
  m <- rdLOG G a ;;
  n <- rdLOG G b ;;
  if (a =? 0) || (b =? 0) then ret 0
  else rdEXP G ((ORDER G - 1) + m - n).

Definition _additive_inverse (G : Globals) (a : Z) : M Z :=
  n <- rdLOG G a ;;
  if a =? 0 then ret 0
  else rdEXP G (ZECH_E G + n).

Definition _multiplicative_inverse (G : Globals) (a : Z) : M Z :=
  m <- rdLOG G a ;;
  if a =? 0 then ret 0
  else rdEXP G ((ORDER G - 1) - m).

Definition _multiple_add (G : Globals) (a b_int : Z) : M Z :=
  b <- lift (pymod b_int (CHARACTERISTIC G)) ;;
  m <- rdLOG G a ;;
  n <- rdLOG G b ;;
  if (a =? 0) || (b =? 0) then ret 0
  else rdEXP G (m + n).

(** [m * b_int] is a product of two [int64]: the exponent [b_int] is an
    [int64] by the kernel's signature, and the product is taken modulo
    [2 ^ 64] before [%] reduces it. *)
Definition _power (G : Globals) (a b_int : Z) : M Z :=
  m <- rdLOG G a ;;
  if b_int =? 0 then ret 1
  else if a =? 0 then ret 0
  else
    i <- lift (pymod (wrap_int64 (m * b_int)) (ORDER G - 1)) ;;
    rdEXP G i.

Definition _log (G : Globals) (a : Z) : M Z := rdLOG G a.

(** [for i in range(i, i + n)] around a body that updates [s]. *)
Fixpoint for_range {S : Type} (i : Z) (n : nat) (body : Z -> S -> M S) (s : S)
  : M S :=
  match n with
  | O => ret s
  | S n' => s' <- body i s ;; for_range (i + 1) n' body s'
  end.

(** [_poly_eval] writes into the array [results]; the array after the call
    is returned.  [ADD_JIT] and [MULTIPLY_JIT] are the module's globals of
    these names. *)
Definition _poly_eval (ADD_JIT MULTIPLY_JIT : Z -> Z -> M Z)
    (coeffs values results : list Z) : M (list Z) :=
  for_range 0 (Z.to_nat (size values)) (fun i results =>
    c0 <- lift (np_index coeffs 0) ;;
    results <- lift (np_set results i c0) ;;
    for_range 1 (Z.to_nat (size coeffs - 1)) (fun j results =>
      cj <- lift (np_index coeffs j) ;;
      r <- lift (np_index results i) ;;
      v <- lift (np_index values i) ;;
      p <- MULTIPLY_JIT r v ;;
      s <- ADD_JIT cj p ;;
      lift (np_set results i s)) results) results.

End meta_mixin_target.

(** ** galois/meta_gf2.py *)

Module meta_gf2.

Import meta_mixin_target.

(** The attributes [GF2Meta.__init__] sets. *)
Definition _characteristic : Z := 2.
Definition _degree : Z := 1.
Definition _order : Z := _characteristic ^ _degree.
Definition _primitive_element : Z := 1.

(** The global as [_target_jit_calculate] sets it. *)
Definition CHARACTERISTIC : Z := _characteristic.

Definition _add_jit (a b : Z) : Z := Z.lxor a b.

Definition _subtract_jit (a b : Z) : Z := Z.lxor a b.

Definition _multiply_jit (a b : Z) : Z := Z.land a b.

Definition _divide_jit (a b : Z) : Z :=
  if b =? 0 then 0 else a.

Definition _negative_jit (a : Z) : Z := a.

Definition ADD_JIT : Z -> Z -> Z := _add_jit.
Definition MULTIPLY_JIT : Z -> Z -> Z := _multiply_jit.

Definition _multiple_add_jit (a multiple : Z) : outcome Z :=
  obind (pymod multiple CHARACTERISTIC) (fun multiple =>
  Ok (MULTIPLY_JIT a multiple)).

Definition _power_jit (a power : Z) : Z :=
  if power =? 0 then 1
  else if a =? 0 then 0
  else a.

Definition _log_jit (a : Z) : Z := 0.

(** The text of [_poly_eval_jit] is that of [_poly_eval], over this module's
    [ADD_JIT] and [MULTIPLY_JIT], which read no table. *)
Definition _poly_eval_jit (coeffs values results : list Z) : M (list Z) :=
  _poly_eval (fun x y => ret (ADD_JIT x y)) (fun x y => ret (MULTIPLY_JIT x y))
    coeffs values results.

End meta_gf2.

Import integer meta_gf2 meta_mixin_target.

(** ** The data model of the lookup backend

    What it means for the parameters of a class to describe a field, and for
    its tables to be built correctly.  Field elements are the integers of
    [[0, order)]. *)

Section Validity.

Variable cls : TargetMixin.

Definition Felem (x : Z) : Prop := 0 <= x < order cls.

(** [x] multiplied [n] times into 1 by the class's own product, the way the
    tables are enumerated and [_log_python] searches. *)
Fixpoint fpow (x : Z) (n : nat) : Z :=
  match n with
  | O => 1
  | S n' => _multiply_python cls (fpow x n') x
  end.

(** The power [alpha^i] of the primitive element. *)
Definition apow (i : Z) : Z := fpow (primitive_element cls) (Z.to_nat i).

(** FieldParameters: [order = p^m], the five methods are the operations of
    a field on [[0, order)], and the primitive element is not zero. *)
Record valid_field : Prop := {
  vf_characteristic : 2 <= characteristic cls;
  vf_degree : 1 <= degree cls;
  vf_order : order cls = characteristic cls ^ degree cls;
  vf_alpha : 1 <= primitive_element cls < order cls;
  vf_add_closed : forall a b, Felem a -> Felem b -> Felem (_add_python cls a b);
  vf_mul_closed : forall a b, Felem a -> Felem b -> Felem (_multiply_python cls a b);
  vf_neg_closed : forall a, Felem a -> Felem (_additive_inverse_python cls a);
  vf_inv_closed : forall a, Felem a -> a <> 0 ->
    Felem (_multiplicative_inverse_python cls a);
  vf_add_comm : forall a b, Felem a -> Felem b ->
    _add_python cls a b = _add_python cls b a;
  vf_add_assoc : forall a b c, Felem a -> Felem b -> Felem c ->
    _add_python cls (_add_python cls a b) c = _add_python cls a (_add_python cls b c);
  vf_add_0_l : forall a, Felem a -> _add_python cls 0 a = a;
  vf_add_neg : forall a, Felem a ->
    _add_python cls a (_additive_inverse_python cls a) = 0;
  vf_sub : forall a b, Felem a -> Felem b ->
    _subtract_python cls a b = _add_python cls a (_additive_inverse_python cls b);
  vf_mul_comm : forall a b, Felem a -> Felem b ->
    _multiply_python cls a b = _multiply_python cls b a;
  vf_mul_assoc : forall a b c, Felem a -> Felem b -> Felem c ->
    _multiply_python cls (_multiply_python cls a b) c
    = _multiply_python cls a (_multiply_python cls b c);
  vf_mul_1_l : forall a, Felem a -> _multiply_python cls 1 a = a;
  vf_mul_inv : forall a, Felem a -> a <> 0 ->
    _multiply_python cls a (_multiplicative_inverse_python cls a) = 1;
  vf_distr : forall a b c, Felem a -> Felem b -> Felem c ->
    _multiply_python cls a (_add_python cls b c)
    = _add_python cls (_multiply_python cls a b) (_multiply_python cls a c)
}.

(** LookupTables: [EXP[i] = alpha^i] on the padded range [[0, 2(order-1))];
    [LOG[a]] is the unique exponent of [a <> 0] below [order - 1] (and
    [LOG[0]] is an entry of the table, of any value);
    [ZECH_LOG[i] = LOG[1 + alpha^i]] away from [ZECH_E]; and
    [alpha^ZECH_E = -1]. *)
Record valid_tables : Prop := {
  vt_LOG0 : exists v, np_index (LOG (_target_jit_lookup cls)) 0 = Ok v;
  vt_EXP : forall i, 0 <= i < 2 * (order cls - 1) ->
    np_index (EXP (_target_jit_lookup cls)) i = Ok (apow i);
  vt_LOG : forall a, 1 <= a < order cls ->
    exists e, np_index (LOG (_target_jit_lookup cls)) a = Ok e /\
              0 <= e < order cls - 1 /\ apow e = a /\
              forall i, 0 <= i < order cls - 1 -> apow i = a -> i = e;
  vt_ZECH_LOG : forall i, 0 <= i < order cls - 1 ->
    i <> ZECH_E (_target_jit_lookup cls) ->
    np_index (ZECH_LOG (_target_jit_lookup cls)) i
    = np_index (LOG (_target_jit_lookup cls)) (_add_python cls 1 (apow i));
  vt_ZECH_E : apow (ZECH_E (_target_jit_lookup cls)) = _additive_inverse_python cls 1
}.

(** The same two predicates as exhaustive checks over the elements. *)
Definition forallZ (n : Z) (P : Z -> bool) : bool :=
  forallb P (map Z.of_nat (seq 0 (Z.to_nat n))).

Definition Felemb (x : Z) : bool := (0 <=? x) && (x <? order cls).

Definition field_check1 (a : Z) : bool :=
  Felemb (_additive_inverse_python cls a)
  && (_add_python cls 0 a =? a)
  && (_add_python cls a (_additive_inverse_python cls a) =? 0)
  && (_multiply_python cls 1 a =? a)
  && ((a =? 0)
      || (Felemb (_multiplicative_inverse_python cls a)
          && (_multiply_python cls a (_multiplicative_inverse_python cls a) =? 1))).

Definition field_check2 (a b : Z) : bool :=
  Felemb (_add_python cls a b)
  && Felemb (_multiply_python cls a b)
  && (_add_python cls a b =? _add_python cls b a)
  && (_multiply_python cls a b =? _multiply_python cls b a)
  && (_subtract_python cls a b
      =? _add_python cls a (_additive_inverse_python cls b)).

Definition field_check3 (a b c : Z) : bool :=
  (_add_python cls (_add_python cls a b) c
   =? _add_python cls a (_add_python cls b c))
  && (_multiply_python cls (_multiply_python cls a b) c
      =? _multiply_python cls a (_multiply_python cls b c))
  && (_multiply_python cls a (_add_python cls b c)
      =? _add_python cls (_multiply_python cls a b) (_multiply_python cls a c)).

Definition valid_fieldb : bool :=
  (2 <=? characteristic cls) && (1 <=? degree cls)
  && (order cls =? characteristic cls ^ degree cls)
  && (1 <=? primitive_element cls) && (primitive_element cls <? order cls)
  && forallZ (order cls) (fun a =>
       field_check1 a
       && forallZ (order cls) (fun b =>
            field_check2 a b
            && forallZ (order cls) (fun c => field_check3 a b c))).

Definition Ok_eqb (x y : outcome Z) : bool :=
  match x, y with
  | Ok u, Ok v => u =? v
  | _, _ => false
  end.

Definition valid_tablesb : bool :=
  let G := _target_jit_lookup cls in
  Ok_eqb (np_index (LOG G) 0) (np_index (LOG G) 0)
  && forallZ (2 * (order cls - 1)) (fun i =>
       Ok_eqb (np_index (EXP G) i) (Ok (apow i)))
  && forallZ (order cls) (fun a =>
       (a =? 0)
       || match np_index (LOG G) a with
          | Ok e =>
              (0 <=? e) && (e <? order cls - 1) && (apow e =? a)
              && forallZ (order cls - 1) (fun i => negb (apow i =? a) || (i =? e))
          | Raise _ => false
          end)
  && forallZ (order cls - 1) (fun i =>
       (i =? ZECH_E G)
       || Ok_eqb (np_index (ZECH_LOG G) i)
                 (np_index (LOG G) (_add_python cls 1 (apow i))))
  && (apow (ZECH_E G) =? _additive_inverse_python cls 1).

End Validity.

(** The bounds alone: what the kernels need to stay inside the tables and
    inside the field. *)
Record tables_in_range (G : Globals) : Prop := {
  tr_ORDER : 2 <= ORDER G;
  tr_CHARACTERISTIC : 1 <= CHARACTERISTIC G <= ORDER G;
  tr_ZECH_E : 0 <= ZECH_E G < ORDER G - 1;
  tr_LOG0 : exists v, np_index (LOG G) 0 = Ok v;
  tr_LOG : forall a, 1 <= a < ORDER G ->
    exists e, np_index (LOG G) a = Ok e /\ 0 <= e < ORDER G - 1;
  tr_EXP : forall i, 0 <= i < 2 * (ORDER G - 1) ->
    exists v, np_index (EXP G) i = Ok v /\ 0 <= v < ORDER G;
  tr_ZECH_LOG : forall i, 0 <= i < ORDER G - 1 -> i <> ZECH_E G ->
    exists e, np_index (ZECH_LOG G) i = Ok e /\ 0 <= e < ORDER G - 1
}.

(** The globals with the entry [LOG[0]] overwritten by [v]. *)
Definition set_LOG0 (v : Z) (G : Globals) : Globals :=
  {| CHARACTERISTIC := CHARACTERISTIC G;
     ORDER := ORDER G;
     EXP := EXP G;
     LOG := match LOG G with [] => [] | _ :: l => v :: l end;
     ZECH_LOG := ZECH_LOG G;
     ZECH_E := ZECH_E G |}.

(** A run that ends in a field element. *)
Definition returns_element (G : Globals) (m : M Z) : Prop :=
  exists v, value m = Ok v /\ 0 <= v < ORDER G.

(** Horner's rule as the specification words it: [result <- coeffs[0]],
    then [result <- add(c, multiply(result, x))] for each further
    coefficient [c]. *)
Definition horner_spec (add multiply : Z -> Z -> Z) (coeffs : list Z) (x : Z)
  : outcome Z :=
  match coeffs with
  | [] => Raise IndexError
  | c0 :: cs => Ok (fold_left (fun result c => add c (multiply result x)) cs c0)
  end.

(** ** Two small fields *)

(** Modelled from the spec: the pure-Python methods of the GF(2) class,
    which GF2Meta inherits from a mixin that is not in src.  Section 4.4
    gives add and subtract as XOR, multiply as AND, negate as the identity
    and [divide(a, b) = a] for [b <> 0]; the kernels of [meta_gf2] are used
    for them.  The tables are a parameter. *)
Definition GF2 (tables : list Z * list Z * list Z) : TargetMixin :=
  {| characteristic := _characteristic;
     degree := _degree;
     order := _order;
     primitive_element := _primitive_element;
     _build_lookup_tables := tables;
     _add_python := _add_jit;
     _subtract_python := _subtract_jit;
     _multiply_python := _multiply_jit;
     _additive_inverse_python := _negative_jit;
     _multiplicative_inverse_python := _divide_jit 1 |}.

(** Modelled from the spec: the tables of GF(2) with primitive element 1
    (the builder is not in src): [EXP = [1, 1]], [LOG[1] = 0], and
    [ZECH_LOG[0]] is the sentinel at [ZECH_E = 0].  The unused entries
    [LOG[0]] and [ZECH_LOG[0]] are filled with 0. *)
Definition GF2_tables : list Z * list Z * list Z :=
  ([1; 1], [0; 0], [0]).

(** Modelled from the spec: the pure-Python methods of a prime field GF(p),
    whose class is not in src.  Section 4.4: add, subtract, multiply and
    negate are the integer operations modulo [p], and the inverse is
    [a^(p-2) mod p]. *)
Definition GFp (p alpha : Z) (tables : list Z * list Z * list Z) : TargetMixin :=
  {| characteristic := p;
     degree := 1;
     order := p;
     primitive_element := alpha;
     _build_lookup_tables := tables;
     _add_python := fun a b => (a + b) mod p;
     _subtract_python := fun a b => (a - b) mod p;
     _multiply_python := fun a b => (a * b) mod p;
     _additive_inverse_python := fun a => (- a) mod p;
     _multiplicative_inverse_python := fun a => a ^ (p - 2) mod p |}.

(** Modelled from the spec: the tables of GF(5) with primitive element 2
    (the builder is not in src): [EXP[i] = 2^i mod 5] on [[0, 8)], [LOG] its
    inverse, [ZECH_LOG[i] = LOG[1 + 2^i]], the sentinel at [ZECH_E = 2].
    The unused entries [LOG[0]] and [ZECH_LOG[2]] are filled with 0. *)
Definition GF5_tables : list Z * list Z * list Z :=
  ([1; 2; 4; 3; 1; 2; 4; 3], [0; 0; 1; 3; 2], [1; 3; 0; 2]).

Definition GF5 : TargetMixin := GFp 5 2 GF5_tables.

(** ** Loop invariants of the integer routines *)

(** [iroot], from the second test of [u < x] on: [x] is positive, no smaller
    than any candidate root, and [u] is its Newton iterate. *)
Definition iroot_inv (n k u x : Z) : Prop :=
  1 <= x /\
  u = ((k - 1) * x + n / x ^ (k - 1)) / k /\
  forall y, 0 <= y -> y ^ k <= n -> y <= x.

(** Both loops of [ilog]: [low < high], the running powers are the powers
    of [b], and [b^low <= n]. *)
Definition ilog_inv (n b low b_low high b_high : Z) : Prop :=
  0 <= low < high /\ b_low = b ^ low /\ b_high = b ^ high /\ b_low <= n.

(** ** Reference notions for the further properties *)

(** The value of the polynomial with coefficients [coeffs], most significant
    first, at [x], in the field of [cls]: the sum of [c_i * x^(n-1-i)]. *)
Fixpoint poly_value (cls : TargetMixin) (coeffs : list Z) (x : Z) : Z :=
  match coeffs with
  | [] => 0
  | c :: cs =>
      _add_python cls (_multiply_python cls c (fpow cls x (length cs)))
        (poly_value cls cs x)
  end.

(** [a + a + ... + a], with [n] terms. *)
Fixpoint nsum (cls : TargetMixin) (a : Z) (n : nat) : Z :=
  match n with
  | O => 0
  | S n' => _add_python cls (nsum cls a n') a
  end.

(** The integers below the characteristic represent the multiples of 1:
    adding 1 counts modulo the characteristic. *)
Definition prime_subfield (cls : TargetMixin) : Prop :=
  forall j, 0 <= j < characteristic cls ->
    _add_python cls j 1 = (j + 1) mod characteristic cls.

(** The primitive element, raised to the powers [0 .. order-2], gives every
    non-zero element exactly once. *)
Definition primitive (cls : TargetMixin) : Prop :=
  forall a, 1 <= a < order cls ->
    exists e, 0 <= e < order cls - 1 /\ apow cls e = a /\
              forall i, 0 <= i < order cls - 1 -> apow cls i = a -> i = e.

(** An access inside the tables: [LOG] on [[0, order)], [EXP] on the padded
    range [[0, 2 (order-1))], [ZECH_LOG] on [[0, order-1)] away from the
    sentinel at [ZECH_E]. *)
Definition in_bounds (G : Globals) (ac : access) : Prop :=
  match fst ac with
  | tLOG => 0 <= snd ac < ORDER G
  | tEXP => 0 <= snd ac < 2 * (ORDER G - 1)
  | tZECH_LOG => 0 <= snd ac < ORDER G - 1 /\ snd ac <> ZECH_E G
  end.

(** * Properties *)

(** ** 64-bit integers *)

Lemma wrap_int64_id (x : Z) : is_int64 x -> wrap_int64 x = x.
Proof.
  unfold is_int64, wrap_int64. intros Hx.
  rewrite Z.mod_small; lia.
Qed.

Lemma wrap_int64_range (x : Z) : is_int64 (wrap_int64 x).
Proof.
  unfold is_int64, wrap_int64.
  pose proof (Z.mod_pos_bound (x + 2 ^ 63) (2 ^ 64) ltac:(lia)). lia.
Qed.

(** Where the bound [(order - 2) * (order - 1) < 2 ^ 63] fails the product
    of a logarithm and [order - 1] can wrap to a value that is no multiple
    of [order - 1]: with order [2 ^ 32] and the logarithm [2 ^ 31 + 1] the
    index is [order - 2]. *)
Lemma wrap_int64_beyond_bound :
  wrap_int64 ((2 ^ 31 + 1) * (2 ^ 32 - 1)) mod (2 ^ 32 - 1) = 2 ^ 32 - 2.
Proof. reflexivity. Qed.

(** ** Integer roots and logarithms *)

Section IntegerRoot.

(** The tangent of [x^k] at [u] lies below the curve on the non-negative
    axis; this is what makes the Newton iterate an upper bound of the
    root. *)
Lemma pow_tangent (r u : Z) (j : nat) :
  0 <= r -> 0 <= u ->
  u ^ (Z.of_nat j + 1) + (Z.of_nat j + 1) * u ^ Z.of_nat j * (r - u)
  <= r ^ (Z.of_nat j + 1).
Proof.
  intros Hr Hu. induction j as [|j IH].
  - change (Z.of_nat 0) with 0. rewrite Z.pow_0_r, !Z.pow_1_r. lia.
  - rewrite Nat2Z.inj_succ. unfold Z.succ.
    set (J := Z.of_nat j) in *.
    assert (HJ : 0 <= J) by (subst J; lia).
    change (J + 1 + 1) with (Z.succ (J + 1)).
    rewrite (Z.pow_succ_r u (J + 1)), (Z.pow_succ_r r (J + 1)) by lia.
    change (J + 1) with (Z.succ J) in *.
    rewrite (Z.pow_succ_r u J) in * by lia.
    change (Z.succ J) with (J + 1) in *.
    set (U := u ^ J) in *.
    set (R := r ^ (J + 1)) in *.
    assert (HU : 0 <= U) by (subst U; apply Z.pow_nonneg; lia).
    assert (Hsq : 0 <= (J + 1) * U * ((r - u) * (r - u))).
    { apply Z.mul_nonneg_nonneg; [apply Z.mul_nonneg_nonneg; lia|].
      apply Z.square_nonneg. }
    assert (Hmul : r * (u * U + (J + 1) * U * (r - u)) <= r * R).
    { apply Z.mul_le_mono_nonneg_l; assumption. }
    lia.
Qed.

Variables n k : Z.
Hypothesis Hn : 1 <= n.
Hypothesis Hk : 2 <= k.

(** The value the loop body assigns to [u]. *)
Lemma newton_value (u : Z) :
  1 <= u -> newton n k (k - 1) u = Ok (((k - 1) * u + n / u ^ (k - 1)) / k).
Proof.
  intros Hu. unfold newton, floordiv.
  assert (0 < u ^ (k - 1)) by (apply Z.pow_pos_nonneg; lia).
  destruct (Z.eqb_spec (u ^ (k - 1)) 0); [lia|]. cbn.
  destruct (Z.eqb_spec k 0); [lia|]. reflexivity.
Qed.

Lemma newton_lower (u y : Z) :
  1 <= u -> 0 <= y -> y ^ k <= n ->
  y <= ((k - 1) * u + n / u ^ (k - 1)) / k.
Proof.
  intros Hu Hy Hyk.
  assert (Hpos : 0 < u ^ (k - 1)) by (apply Z.pow_pos_nonneg; lia).
  apply Z.div_le_lower_bound; [lia|].
  enough (k * y - (k - 1) * u <= n / u ^ (k - 1)) by lia.
  apply Z.div_le_lower_bound; [assumption|].
  pose proof (pow_tangent y u (Z.to_nat (k - 1)) Hy ltac:(lia)) as T.
  rewrite Z2Nat.id in T by lia.
  replace (k - 1 + 1) with k in T by lia.
  replace (u ^ k) with (u * u ^ (k - 1)) in T
    by (rewrite <- Z.pow_succ_r by lia; f_equal; lia).
  lia.
Qed.

Lemma newton_upper (u : Z) :
  1 <= u -> n < u ^ k ->
  ((k - 1) * u + n / u ^ (k - 1)) / k < u.
Proof.
  intros Hu Hlt.
  assert (Hpos : 0 < u ^ (k - 1)) by (apply Z.pow_pos_nonneg; lia).
  assert (Hq : n / u ^ (k - 1) < u).
  { apply Z.div_lt_upper_bound; [assumption|].
    replace (u ^ k) with (u ^ (k - 1) * u) in Hlt
      by (rewrite Z.mul_comm, <- Z.pow_succ_r by lia; f_equal; lia).
    assumption. }
  apply Z.div_lt_upper_bound; lia.
Qed.

Lemma iroot_inv_step (u x : Z) :
  iroot_inv n k u x -> u < x ->
  iroot_inv n k (((k - 1) * u + n / u ^ (k - 1)) / k) u.
Proof.
  intros (Hx & Hu & Hub) Hlt.
  assert (H1 : 1 <= u).
  { rewrite Hu. apply newton_lower; try lia. rewrite Z.pow_1_l; lia. }
  split; [assumption|]. split; [reflexivity|].
  intros y Hy Hyk. rewrite Hu. apply newton_lower; assumption.
Qed.

Lemma iroot_loop_spec (fuel : nat) : forall u x,
  iroot_inv n k u x -> (Z.to_nat x <= fuel)%nat ->
  exists r, iroot_loop fuel n k (k - 1) u x = Some (Ok r) /\
            1 <= r /\ r ^ k <= n /\ forall y, 0 <= y -> y ^ k <= n -> y <= r.
Proof.
  induction fuel as [|fuel IH]; intros u x Hinv Hfuel.
  - destruct Hinv as (Hx & _). lia.
  - cbn [iroot_loop]. destruct (Z.ltb_spec u x) as [Hlt|Hge].
    + pose proof (iroot_inv_step u x Hinv Hlt) as Hinv'.
      destruct Hinv' as (Hu1 & Hinv').
      rewrite newton_value by assumption.
      apply IH; [split; assumption | lia].
    + destruct Hinv as (Hx & Hu & Hub).
      exists x. repeat split; try assumption.
      destruct (Z.le_gt_cases (x ^ k) n) as [|Habove]; [assumption|].
      pose proof (newton_upper x Hx Habove). lia.
Qed.

Lemma iroot_first_inv :
  iroot_inv n k (((k - 1) * n + n / n ^ (k - 1)) / k) n.
Proof.
  split; [assumption|]. split; [reflexivity|].
  intros y Hy Hyk.
  destruct (Z.eq_dec y 0) as [->|Hy0]; [lia|].
  assert (y ^ 1 <= y ^ k) by (apply Z.pow_le_mono_r; lia).
  rewrite Z.pow_1_r in *. lia.
Qed.

Lemma iroot_spec (fuel : nat) :
  (Z.to_nat n < fuel)%nat ->
  exists r, iroot fuel n k = Some (Ok r) /\
            1 <= r /\ r ^ k <= n /\ forall y, 0 <= y -> y ^ k <= n -> y <= r.
Proof.
  intros Hfuel. unfold iroot.
  destruct (Z.gtb_spec n 0); [|lia]. cbn [negb].
  destruct (Z.geb_spec k 2); [|lia]. cbn [negb].
  destruct fuel as [|fuel]; [lia|].
  cbn [iroot_loop]. destruct (Z.ltb_spec n (n + 1)); [|lia].
  rewrite newton_value by assumption.
  apply iroot_loop_spec; [apply iroot_first_inv | lia].
Qed.

End IntegerRoot.

(** More fuel does not change the outcome of a loop that finished. *)
Lemma iroot_loop_fuel_mono (f : nat) : forall f' n k k1 u x v,
  (f <= f')%nat ->
  iroot_loop f n k k1 u x = Some v -> iroot_loop f' n k k1 u x = Some v.
Proof.
  induction f as [|f IH]; intros f' n k k1 u x v Hle H.
  - destruct f'; cbn [iroot_loop] in *; destruct (u <? x); congruence.
  - destruct f' as [|f']; [lia|]. cbn [iroot_loop] in *.
    destruct (u <? x); [|assumption].
    destruct (newton n k k1 u); [|assumption].
    apply (IH f'); [lia | assumption].
Qed.

Lemma iroot_fuel_mono (f f' : nat) (n k : Z) (v : outcome Z) :
  (f <= f')%nat -> iroot f n k = Some v -> iroot f' n k = Some v.
Proof.
  unfold iroot. intros Hle.
  destruct (negb (n >? 0)); [trivial|].
  destruct (negb (k >=? 2)); [trivial|].
  apply iroot_loop_fuel_mono; assumption.
Qed.

Section IntegerLog.

Variables n b : Z.
Hypothesis Hn : 1 <= n.
Hypothesis Hb : 2 <= b.

Lemma pow_b_pos (e : Z) : 0 <= e -> 1 <= b ^ e.
Proof. intros He. pose proof (Z.pow_pos_nonneg b e ltac:(lia) He). lia. Qed.

Lemma pow_b_S (e : Z) : 0 <= e -> b ^ (e + 1) = b * b ^ e.
Proof. intros He. apply Z.pow_succ_r. assumption. Qed.

Lemma ilog_bracket_spec (fuel : nat) : forall low b_low high b_high,
  ilog_inv n b low b_low high b_high -> high <= 2 * low + 1 ->
  (Z.to_nat (n - b_high) <= fuel)%nat ->
  exists low' high',
    ilog_bracket fuel n low b_low high b_high
      = Some (low', b ^ low', high', b ^ high') /\
    ilog_inv n b low' (b ^ low') high' (b ^ high') /\
    high' <= 2 * low' + 1 /\ n <= b ^ high'.
Proof.
  induction fuel as [|fuel IH]; intros low b_low high b_high Hinv Hhi Hfuel;
    pose proof Hinv as (Hlh & Hbl & Hbh & Hle);
    cbn [ilog_bracket]; destruct (Z.ltb_spec b_high n) as [Hlt|Hge].
  - lia.
  - exists low, high. subst b_low b_high. auto.
  - assert (H2 : 2 <= b_high).
    { subst b_high. replace high with (Z.succ (high - 1)) by lia.
      rewrite Z.pow_succ_r by lia. pose proof (pow_b_pos (high - 1)). nia. }
    apply IH.
    + unfold ilog_inv. repeat split; try lia.
      subst b_high. rewrite <- Z.pow_mul_r by lia. reflexivity.
    + lia.
    + rewrite Z.pow_2_r. nia.
  - exists low, high. subst b_low b_high. auto.
Qed.

Lemma ilog_bisect_spec (fuel : nat) : forall low b_low high b_high,
  ilog_inv n b low b_low high b_high -> n <= b_high ->
  (Z.to_nat (high - low) <= fuel)%nat ->
  exists k, ilog_bisect fuel n b low b_low high b_high = Some k /\
            0 <= k /\ b ^ k <= n < b ^ (k + 1).
Proof.
  induction fuel as [|fuel IH]; intros low b_low high b_high Hinv Hhi Hfuel;
    pose proof Hinv as (Hlh & Hbl & Hbh & Hle);
    cbn [ilog_bisect]; destruct (Z.gtb_spec (high - low) 1) as [Hgt|Hle1].
  - lia.
  - assert (high = low + 1) by lia. subst high.
    destruct (Z.eqb_spec b_high n) as [Heq|Hne].
    + exists (low + 1). split; [reflexivity|]. split; [lia|].
      rewrite <- Hbh, Heq. split; [lia|].
      rewrite <- Heq, Hbh, (pow_b_S (low + 1)) by lia.
      pose proof (pow_b_pos (low + 1)). nia.
    + exists low. split; [reflexivity|]. subst. lia.
  - set (mid := (low + high) / 2).
    assert (Hmid : low < mid < high).
    { assert (low + 1 <= mid) by (apply Z.div_le_lower_bound; lia).
      assert (mid < high) by (apply Z.div_lt_upper_bound; lia). lia. }
    assert (Hbm : b_low * b ^ (mid - low) = b ^ mid).
    { rewrite Hbl, <- Z.pow_add_r by lia. f_equal. lia. }
    rewrite Hbm.
    destruct (Z.ltb_spec n (b ^ mid)) as [Hlt|Hge].
    + apply IH; [unfold ilog_inv; auto with zarith | lia | lia].
    + destruct (Z.ltb_spec (b ^ mid) n) as [Hlt'|Hge'].
      * apply IH; [unfold ilog_inv; repeat split; lia | lia | lia].
      * exists mid. split; [reflexivity|]. split; [lia|].
        rewrite (pow_b_S mid) by lia.
        pose proof (pow_b_pos mid). nia.
  - assert (high = low + 1) by lia. subst high.
    destruct (Z.eqb_spec b_high n) as [Heq|Hne].
    + exists (low + 1). split; [reflexivity|]. split; [lia|].
      rewrite <- Hbh, Heq. split; [lia|].
      rewrite <- Heq, Hbh, (pow_b_S (low + 1)) by lia.
      pose proof (pow_b_pos (low + 1)). nia.
    + exists low. split; [reflexivity|]. subst. lia.
Qed.

Lemma ilog_spec (fuel : nat) :
  (Z.to_nat n < fuel)%nat ->
  exists k low high,
    ilog_bracket fuel n 0 1 1 b = Some (low, b ^ low, high, b ^ high) /\
    b ^ low <= n <= b ^ high /\
    ilog fuel n b = Some (Ok k) /\ 0 <= k /\ b ^ k <= n < b ^ (k + 1).
Proof.
  intros Hfuel.
  destruct (ilog_bracket_spec fuel 0 1 1 b) as (low & high & Hbr & Hinv & Hhi & Hle).
  - unfold ilog_inv. rewrite Z.pow_0_r, Z.pow_1_r. lia.
  - lia.
  - lia.
  - pose proof Hinv as (Hlh & _ & _ & Hlow).
    assert (Hsmall : low < n).
    { pose proof (Z.pow_gt_lin_r b low ltac:(lia) ltac:(lia)). lia. }
    destruct (ilog_bisect_spec fuel low (b ^ low) high (b ^ high) Hinv Hle)
      as (k & Hk & Hk0 & Hkn); [lia|].
    exists k, low, high. split; [assumption|]. split; [lia|].
    split; [|auto].
    unfold ilog. destruct (Z.gtb_spec n 0); [|lia]. cbn [negb].
    destruct (Z.geb_spec b 2); [|lia]. cbn [negb].
    rewrite Hbr, Hk. reflexivity.
Qed.

Lemma pow_b_largest (k j : Z) :
  0 <= k -> n < b ^ (k + 1) -> 0 <= j -> b ^ j <= n -> j <= k.
Proof.
  intros Hk Hlt Hj Hle.
  destruct (Z.le_gt_cases j k) as [|Hgt]; [assumption|].
  assert (b ^ (k + 1) <= b ^ j) by (apply Z.pow_le_mono_r; lia). lia.
Qed.

Lemma ilog_one (fuel : nat) : ilog fuel 1 b = Some (Ok 0).
Proof.
  unfold ilog. cbn [Z.gtb Z.compare negb].
  destruct (Z.geb_spec b 2); [|lia]. cbn [negb].
  destruct fuel; cbn [ilog_bracket ilog_bisect];
    (destruct (Z.ltb_spec b 1); [lia|]);
    cbn [ilog_bisect option_map Z.sub Z.opp Z.add Z.pos_sub Z.gtb Z.compare];
    destruct (Z.eqb_spec b 1); try lia; reflexivity.
Qed.

End IntegerLog.

Lemma ilog_bracket_fuel_mono (f : nat) : forall f' n low b_low high b_high v,
  (f <= f')%nat ->
  ilog_bracket f n low b_low high b_high = Some v ->
  ilog_bracket f' n low b_low high b_high = Some v.
Proof.
  induction f as [|f IH]; intros f' n low b_low high b_high v Hle H.
  - destruct f'; cbn [ilog_bracket] in *; destruct (b_high <? n); congruence.
  - destruct f' as [|f']; [lia|]. cbn [ilog_bracket] in *.
    destruct (b_high <? n); [|assumption].
    apply (IH f'); [lia | assumption].
Qed.

Lemma ilog_bisect_fuel_mono (f : nat) : forall f' n b low b_low high b_high v,
  (f <= f')%nat ->
  ilog_bisect f n b low b_low high b_high = Some v ->
  ilog_bisect f' n b low b_low high b_high = Some v.
Proof.
  induction f as [|f IH]; intros f' n b low b_low high b_high v Hle H.
  - destruct f'; cbn [ilog_bisect] in *; destruct (high - low >? 1); congruence.
  - destruct f' as [|f']; [lia|]. cbn [ilog_bisect] in *.
    destruct (high - low >? 1); [|assumption].
    destruct (n <? _); [apply (IH f'); [lia | assumption]|].
    destruct (_ <? n); [apply (IH f'); [lia | assumption]|].
    assumption.
Qed.

Lemma ilog_fuel_mono (f f' : nat) (n b : Z) (v : outcome Z) :
  (f <= f')%nat -> ilog f n b = Some v -> ilog f' n b = Some v.
Proof.
  unfold ilog. intros Hle.
  destruct (negb (n >? 0)); [trivial|].
  destruct (negb (b >=? 2)); [trivial|].
  destruct (ilog_bracket f n 0 1 1 b) as [[[[low b_low] high] b_high]|] eqn:Hbr;
    [|discriminate].
  rewrite (ilog_bracket_fuel_mono f f' _ _ _ _ _ _ Hle Hbr).
  destruct (ilog_bisect f n b low b_low high b_high) as [k|] eqn:Hbi;
    [|discriminate].
  rewrite (ilog_bisect_fuel_mono f f' _ _ _ _ _ _ _ Hle Hbi). trivial.
Qed.

(** C8: for every [n >= 1] and [k >= 2], [iroot] terminates (every fuel
    above [n] is enough) and returns the largest integer [r] with
    [r^k <= n]; from any [u] above [r] the Newton iterate
    [((k-1)*u + n // u^(k-1)) // k] is strictly smaller than [u] and still
    at least [r].  In particular [iroot (27^5 - 1) 5 = 26],
    [iroot (27^5) 5 = 27] and [iroot 1 k = 1]. *)
Theorem iroot_largest_kth_root :
  (forall n k, 1 <= n -> 2 <= k ->
     exists r,
       (forall fuel, (Z.to_nat n < fuel)%nat -> iroot fuel n k = Some (Ok r)) /\
       r ^ k <= n /\
       (forall y, y ^ k <= n -> y <= r) /\
       (forall u, r < u ->
          exists u', newton n k (k - 1) u = Ok u' /\ r <= u' < u)) /\
  (forall fuel, (100 <= fuel)%nat ->
     iroot fuel (27 ^ 5 - 1) 5 = Some (Ok 26) /\
     iroot fuel (27 ^ 5) 5 = Some (Ok 27)) /\
  (forall k fuel, 2 <= k -> (1 <= fuel)%nat -> iroot fuel 1 k = Some (Ok 1)).
Proof.
  split; [|split].
  - intros n k Hn Hk.
    destruct (iroot_spec n k Hn Hk (S (Z.to_nat n)) ltac:(lia))
      as (r & Hrun & Hr1 & Hrk & Hmax).
    assert (Hall : forall y, y ^ k <= n -> y <= r).
    { intros y Hy. destruct (Z.le_gt_cases 0 y); [auto | lia]. }
    exists r. repeat split.
    + intros fuel Hfuel. apply (iroot_fuel_mono (S (Z.to_nat n))); [lia | assumption].
    + assumption.
    + assumption.
    + intros u Hu.
      assert (Habove : n < u ^ k).
      { destruct (Z.le_gt_cases (u ^ k) n) as [Hle|]; [|assumption].
        apply Hall in Hle. lia. }
      rewrite (newton_value n k Hk u) by lia.
      eexists. split; [reflexivity|]. split.
      * apply newton_lower; try assumption; lia.
      * apply newton_upper; try assumption; lia.
  - intros fuel Hfuel.
    split; apply (iroot_fuel_mono 100); try assumption; vm_compute; reflexivity.
  - intros k fuel Hk Hfuel. destruct fuel as [|fuel]; [lia|].
    unfold iroot. cbn [Z.gtb Z.compare negb].
    destruct (Z.geb_spec k 2); [|lia]. cbn [negb iroot_loop Z.add Z.ltb Z.compare Pos.compare Pos.compare_cont Pos.add].
    rewrite (newton_value 1 k Hk 1) by lia.
    rewrite Z.pow_1_l by lia.
    replace ((k - 1) * 1 + 1 / 1) with k by (rewrite Z.div_1_r; lia).
    rewrite Z.div_same by lia.
    destruct fuel; reflexivity.
Qed.

Lemma iroot_largest_kth_root_witness :
  exists r,
    (forall fuel, (Z.to_nat 1000 < fuel)%nat -> iroot fuel 1000 3 = Some (Ok r)) /\
    r ^ 3 <= 1000 /\
    (forall y, y ^ 3 <= 1000 -> y <= r) /\
    (forall u, r < u ->
       exists u', newton 1000 3 (3 - 1) u = Ok u' /\ r <= u' < u).
Proof.
  apply (proj1 iroot_largest_kth_root 1000 3); lia.
Defined.

(** C9: for every [n >= 1] and [b >= 2], [ilog] terminates (every fuel
    above [n] is enough): the doubling loop brackets [n] between the running
    powers [b^low] and [b^high], and the result is the largest [k] with
    [b^k <= n].  In particular [ilog 1 b = 0], [ilog (27^5) 27 = 5],
    [ilog (27^5 - 1) 27 = 4] and [ilog (27^5 + 1) 27 = 5]. *)
Theorem ilog_largest_exponent :
  (forall n b, 1 <= n -> 2 <= b ->
     exists k,
       (forall fuel, (Z.to_nat n < fuel)%nat ->
          ilog fuel n b = Some (Ok k) /\
          exists low high,
            ilog_bracket fuel n 0 1 1 b = Some (low, b ^ low, high, b ^ high) /\
            b ^ low <= n <= b ^ high) /\
       0 <= k /\ b ^ k <= n /\
       (forall j, 0 <= j -> b ^ j <= n -> j <= k)) /\
  (forall b fuel, 2 <= b -> ilog fuel 1 b = Some (Ok 0)) /\
  (forall fuel, (10 <= fuel)%nat ->
     ilog fuel (27 ^ 5) 27 = Some (Ok 5) /\
     ilog fuel (27 ^ 5 - 1) 27 = Some (Ok 4) /\
     ilog fuel (27 ^ 5 + 1) 27 = Some (Ok 5)).
Proof.
  split; [|split].
  - intros n b Hn Hb.
    destruct (ilog_spec n b Hn Hb (S (Z.to_nat n)) ltac:(lia))
      as (k & _ & _ & _ & _ & Hrun & Hk0 & Hk).
    exists k. split; [|split; [assumption|split; [lia|]]].
    + intros fuel Hfuel. split.
      * apply (ilog_fuel_mono (S (Z.to_nat n))); [lia | assumption].
      * destruct (ilog_spec n b Hn Hb fuel Hfuel)
          as (_ & low & high & Hbr & Hbnd & _).
        exists low, high. split; assumption.
    + intros j Hj Hle. apply (pow_b_largest n b Hb k j); lia.
  - intros b fuel Hb. apply ilog_one. assumption.
  - intros fuel Hfuel.
    repeat split; apply (ilog_fuel_mono 10); try assumption; vm_compute; reflexivity.
Qed.

Lemma ilog_largest_exponent_witness :
  exists k,
    (forall fuel, (Z.to_nat 1000 < fuel)%nat ->
       ilog fuel 1000 3 = Some (Ok k) /\
       exists low high,
         ilog_bracket fuel 1000 0 1 1 3 = Some (low, 3 ^ low, high, 3 ^ high) /\
         3 ^ low <= 1000 <= 3 ^ high) /\
    0 <= k /\ 3 ^ k <= 1000 /\
    (forall j, 0 <= j -> 3 ^ j <= 1000 -> j <= k).
Proof.
  apply (proj1 ilog_largest_exponent 1000 3); lia.
Defined.

(** ** Runs of the lookup kernels *)

Lemma value_bind {A B} (m : M A) (f : A -> M B) :
  value (bind m f) = match value m with
                     | Ok a => value (f a)
                     | Raise e => Raise e
                     end.
Proof.
  destruct m as [t [a|e]]; cbn; [|reflexivity].
  destruct (f a); reflexivity.
Qed.

Lemma trace_bind {A B} (m : M A) (f : A -> M B) :
  trace (bind m f) = match value m with
                     | Ok a => trace m ++ trace (f a)
                     | Raise e => trace m
                     end.
Proof.
  destruct m as [t [a|e]]; cbn; [|reflexivity].
  destruct (f a); reflexivity.
Qed.

Lemma bind_read {B} (tb : table) (i : Z) (r : outcome Z) (f : Z -> M B) (v : Z) :
  r = Ok v ->
  bind ([(tb, i)], r) f = ((tb, i) :: trace (f v), value (f v)).
Proof. intros ->. cbn. destruct (f v); reflexivity. Qed.

Lemma bind_lift {A B} (r : outcome A) (f : A -> M B) (v : A) :
  r = Ok v -> bind (lift r) f = f v.
Proof. intros ->. cbn. destruct (f v); reflexivity. Qed.

Lemma M_eta {A} (m : M A) : m = (trace m, value m).
Proof. destruct m; reflexivity. Qed.

(** An index that is not negative reads position [i] of the list. *)
Lemma np_index_nonneg {A} (l : list A) (i : Z) :
  0 <= i ->
  np_index l i = match nth_error l (Z.to_nat i) with
                 | Some v => Ok v
                 | None => Raise IndexError
                 end.
Proof.
  intros Hi. unfold np_index, np_pos, size.
  destruct (Z.ltb_spec i 0); [lia|].
  destruct (Z.leb_spec 0 i); [|lia]. cbn [andb].
  destruct (Z.ltb_spec i (Z.of_nat (length l))) as [|Hge]; [reflexivity|].
  assert (Hnone : nth_error l (Z.to_nat i) = None) by (apply nth_error_None; lia).
  rewrite Hnone. reflexivity.
Qed.

(** ** Reads of [LOG[0]] *)

Lemma np_index_set_LOG0_pos (G : Globals) (v i : Z) :
  1 <= i -> np_index (LOG (set_LOG0 v G)) i = np_index (LOG G) i.
Proof.
  intros Hi. rewrite !np_index_nonneg by lia. cbn [set_LOG0 LOG].
  destruct (LOG G) as [|x l]; [reflexivity|].
  destruct (Z.to_nat i) as [|j] eqn:Hj; [lia|]. reflexivity.
Qed.

Lemma np_index_set_LOG0_zero (G : Globals) (v : Z) :
  (exists u w, np_index (LOG (set_LOG0 v G)) 0 = Ok u /\ np_index (LOG G) 0 = Ok w)
  \/ (np_index (LOG (set_LOG0 v G)) 0 = Raise IndexError
      /\ np_index (LOG G) 0 = Raise IndexError).
Proof.
  cbn [set_LOG0 LOG]. destruct (LOG G) as [|x l].
  - right. split; reflexivity.
  - left. exists v, x. split; reflexivity.
Qed.

(** Two runs that read [LOG] at the same index, from tables that agree
    away from index 0, and whose continuations agree. *)
Lemma bind_rdLOG_set_LOG0 {B} (G : Globals) (v i : Z) (f g : Z -> M B) :
  0 <= i ->
  (i = 0 -> forall u w, f u = g w) ->
  (i <> 0 -> forall u, f u = g u) ->
  bind (rdLOG (set_LOG0 v G) i) f = bind (rdLOG G i) g.
Proof.
  intros Hi H0 Hpos. unfold rdLOG.
  destruct (Z.eq_dec i 0) as [->|Hne].
  - destruct (np_index_set_LOG0_zero G v) as [(u & w & Hu & Hw)|[Hu Hw]];
      rewrite Hu, Hw; cbn; [|reflexivity].
    rewrite (H0 eq_refl u w). reflexivity.
  - rewrite np_index_set_LOG0_pos by lia.
    destruct (np_index (LOG G) i) as [u|e]; cbn; [|reflexivity].
    rewrite (Hpos Hne u). reflexivity.
Qed.

Ltac zero_cases :=
  repeat match goal with
         | |- context [?x =? 0] => destruct (Z.eqb_spec x 0); cbn [orb]; try lia
         end.

(** C3, as the code has it: with a zero divisor the scalar [divide] of each
    backend returns 0 and raises nothing.  In the lookup kernel both [LOG]
    entries are read first and then the zero branch is taken. *)
Theorem divide_by_zero_returns_zero :
  (forall G a, tables_in_range G -> 0 <= a < ORDER G ->
     _divide G a 0 = ([(tLOG, a); (tLOG, 0)], Ok 0)) /\
  (forall cls a, _divide_python cls a 0 = 0) /\
  (forall a, _divide_jit a 0 = 0).
Proof.
  split; [|split].
  - intros G a HG Ha. unfold _divide, rdLOG.
    assert (Hra : exists m, np_index (LOG G) a = Ok m).
    { destruct (Z.eq_dec a 0) as [->|]; [apply (tr_LOG0 G HG)|].
      destruct (tr_LOG G HG a ltac:(lia)) as (e & He & _). eauto. }
    destruct Hra as (m & Hm). destruct (tr_LOG0 G HG) as (n & Hn).
    rewrite (bind_read _ _ _ _ m Hm), (bind_read _ _ _ _ n Hn).
    rewrite Z.eqb_refl, orb_true_r. reflexivity.
  - intros cls a. unfold _divide_python. rewrite Z.eqb_refl, orb_true_r. reflexivity.
  - intros a. reflexivity.
Qed.

Lemma divide_by_zero_returns_zero_witness :
  _divide (_target_jit_lookup GF5) 3 0 = ([(tLOG, 3); (tLOG, 0)], Ok 0).
Proof.
  apply (proj1 divide_by_zero_returns_zero (_target_jit_lookup GF5)); [|cbn; lia].
  constructor; cbn; try lia.
  - exists 0. reflexivity.
  - intros a Ha.
    assert (Hc : a = 1 \/ a = 2 \/ a = 3 \/ a = 4) by lia.
    destruct Hc as [-> | [-> | [-> | ->]]]; eexists; (split; [reflexivity | lia]).
  - intros i Hi.
    assert (Hc : i = 0 \/ i = 1 \/ i = 2 \/ i = 3 \/ i = 4 \/ i = 5 \/ i = 6 \/ i = 7)
      by lia.
    destruct Hc as [-> | [-> | [-> | [-> | [-> | [-> | [-> | ->]]]]]]];
      eexists; (split; [reflexivity | lia]).
  - intros i Hi Hne.
    assert (Hc : i = 0 \/ i = 1 \/ i = 3) by lia.
    destruct Hc as [-> | [-> | ->]]; eexists; (split; [reflexivity | lia]).
Defined.

(** C3 as the claim states it fails: [divide(3, 0)] over GF(5), and
    [divide(1, 0)] over GF(2), return 0 instead of raising. *)
Lemma divide_by_zero_does_not_raise :
  value (_divide (_target_jit_lookup GF5) 3 0) = Ok 0 /\
  _divide_python GF5 3 0 = 0 /\
  _divide_jit 1 0 = 0.
Proof. repeat split. Qed.

(** C2 as the claim states it fails: [add(0, 3)] over GF(5) reads [LOG[0]]
    (its first access), and so does [discrete_log(0)]. *)
Lemma zero_argument_reads_LOG0 :
  trace (_add (_target_jit_lookup GF5) 0 3) = [(tLOG, 0); (tLOG, 3)] /\
  trace (_log (_target_jit_lookup GF5) 0) = [(tLOG, 0)].
Proof. split; reflexivity. Qed.

(** C2, as the code has it: every kernel but [_log] reads the [LOG] entries
    of its arguments first, index 0 included, and then takes the zero
    branch before the value read is used: on arguments that are not
    negative, a run does not depend on what [LOG[0]] holds (same accesses,
    same outcome).  [_log] has no zero branch and returns [LOG[0]]. *)
Theorem zero_branch_ignores_LOG0 :
  forall G v a b, 0 <= a -> 0 <= b ->
    _add (set_LOG0 v G) a b = _add G a b /\
    _subtract (set_LOG0 v G) a b = _subtract G a b /\
    _multiply (set_LOG0 v G) a b = _multiply G a b /\
    _divide (set_LOG0 v G) a b = _divide G a b /\
    _additive_inverse (set_LOG0 v G) a = _additive_inverse G a /\
    _multiplicative_inverse (set_LOG0 v G) a = _multiplicative_inverse G a /\
    (forall b_int, 1 <= CHARACTERISTIC G ->
       _multiple_add (set_LOG0 v G) a b_int = _multiple_add G a b_int) /\
    (forall b_int, _power (set_LOG0 v G) a b_int = _power G a b_int) /\
    (LOG G <> [] -> value (_log (set_LOG0 v G) 0) = Ok v).
Proof.
  intros G v a b Ha Hb.
  repeat match goal with |- _ /\ _ => split end.
  - unfold _add. apply bind_rdLOG_set_LOG0; [assumption| |]; intros Ha0 **;
      (apply bind_rdLOG_set_LOG0; [assumption| |]); intros Hb0 **;
      cbn [set_LOG0 ZECH_E]; zero_cases; reflexivity.
  - unfold _subtract. apply bind_rdLOG_set_LOG0; [assumption| |]; intros Ha0 **;
      (apply bind_rdLOG_set_LOG0; [assumption| |]); intros Hb0 **;
      cbn [set_LOG0 ZECH_E ORDER]; zero_cases; reflexivity.
  - unfold _multiply. apply bind_rdLOG_set_LOG0; [assumption| |]; intros Ha0 **;
      (apply bind_rdLOG_set_LOG0; [assumption| |]); intros Hb0 **;
      zero_cases; reflexivity.
  - unfold _divide. apply bind_rdLOG_set_LOG0; [assumption| |]; intros Ha0 **;
      (apply bind_rdLOG_set_LOG0; [assumption| |]); intros Hb0 **;
      cbn [set_LOG0 ORDER]; zero_cases; reflexivity.
  - unfold _additive_inverse. apply bind_rdLOG_set_LOG0; [assumption| |];
      intros Ha0 **; cbn [set_LOG0 ZECH_E]; zero_cases; reflexivity.
  - unfold _multiplicative_inverse. apply bind_rdLOG_set_LOG0; [assumption| |];
      intros Ha0 **; cbn [set_LOG0 ORDER]; zero_cases; reflexivity.
  - intros b_int Hp. unfold _multiple_add. cbn [set_LOG0 CHARACTERISTIC].
    unfold pymod. destruct (Z.eqb_spec (CHARACTERISTIC G) 0); [lia|].
    rewrite !(bind_lift _ _ _ eq_refl).
    pose proof (Z.mod_pos_bound b_int (CHARACTERISTIC G) ltac:(lia)).
    apply bind_rdLOG_set_LOG0; [assumption| |]; intros Ha0 **;
      (apply bind_rdLOG_set_LOG0; [lia| |]); intros Hb0 **;
      zero_cases; reflexivity.
  - intros b_int. unfold _power. apply bind_rdLOG_set_LOG0; [assumption| |];
      intros Ha0 **; cbn [set_LOG0 ORDER]; zero_cases; reflexivity.
  - intros Hne. cbn. destruct (LOG G); [congruence | reflexivity].
Qed.

Lemma zero_branch_ignores_LOG0_witness :
  _add (set_LOG0 7 (_target_jit_lookup GF5)) 0 3 = _add (_target_jit_lookup GF5) 0 3 /\
  _power (set_LOG0 7 (_target_jit_lookup GF5)) 0 3 = _power (_target_jit_lookup GF5) 0 3.
Proof.
  pose proof (zero_branch_ignores_LOG0 (_target_jit_lookup GF5) 7 0 3
                ltac:(lia) ltac:(lia)) as H.
  split; [apply H | apply (proj1 (proj2 (proj2 (proj2 (proj2 (proj2 (proj2 (proj2 H)))))))) ].
Defined.

(** ** Polynomial evaluation *)

Lemma np_pos_app_here {A} (pre : list A) (c : A) (cs : list A) :
  np_pos (pre ++ c :: cs) (Z.of_nat (length pre)) = Some (length pre).
Proof.
  unfold np_pos, size. rewrite length_app. cbn [length].
  destruct (Z.ltb_spec (Z.of_nat (length pre)) 0); [lia|].
  destruct (Z.leb_spec 0 (Z.of_nat (length pre))); [|lia].
  destruct (Z.ltb_spec (Z.of_nat (length pre))
              (Z.of_nat (length pre + S (length cs)))); [|lia].
  cbn [andb]. rewrite Nat2Z.id. reflexivity.
Qed.

Lemma np_index_app_here {A} (pre : list A) (c : A) (cs : list A) :
  np_index (pre ++ c :: cs) (Z.of_nat (length pre)) = Ok c.
Proof.
  unfold np_index. rewrite np_pos_app_here.
  rewrite nth_error_app2, Nat.sub_diag by lia. reflexivity.
Qed.

Lemma np_set_app_here {A} (pre : list A) (c v : A) (cs : list A) :
  np_set (pre ++ c :: cs) (Z.of_nat (length pre)) v = Ok (pre ++ v :: cs).
Proof.
  unfold np_set. rewrite np_pos_app_here.
  rewrite firstn_app, firstn_all, Nat.sub_diag, app_nil_r.
  change (S (length pre)) with (1 + length pre)%nat.
  rewrite <- skipn_skipn, skipn_app, skipn_all, Nat.sub_diag. reflexivity.
Qed.

Section Horner.

Variables add multiply : Z -> Z -> Z.
Variable x : Z.

Let step (result c : Z) : Z := add c (multiply result x).

Lemma _poly_eval_python_loop_spec (cls : TargetMixin) :
  _add_python cls = add -> _multiply_python cls = multiply ->
  forall cs pre result,
    _poly_eval_python_loop cls (pre ++ cs) x result
      (Z.of_nat (length pre)) (length cs)
    = Ok (fold_left step cs result).
Proof.
  intros Hadd Hmul. induction cs as [|c cs IH]; intros pre result.
  - reflexivity.
  - cbn [length _poly_eval_python_loop fold_left].
    rewrite np_index_app_here. cbn [obind].
    replace (Z.of_nat (length pre) + 1) with (Z.of_nat (length (pre ++ [c])))
      by (rewrite length_app; cbn [length]; lia).
    replace (pre ++ c :: cs) with ((pre ++ [c]) ++ cs)
      by (rewrite <- app_assoc; reflexivity).
    rewrite IH, Hadd, Hmul. reflexivity.
Qed.

(** The injected backend: [ADD_JIT] and [MULTIPLY_JIT] compute [add] and
    [multiply] on a set [P] of elements that they do not leave. *)
Variables ADD_JIT MULTIPLY_JIT : Z -> Z -> M Z.
Variable P : Z -> Prop.
Hypothesis ADD_ok : forall a b, P a -> P b ->
  value (ADD_JIT a b) = Ok (add a b) /\ P (add a b).
Hypothesis MULTIPLY_ok : forall a b, P a -> P b ->
  value (MULTIPLY_JIT a b) = Ok (multiply a b) /\ P (multiply a b).
Hypothesis Px : P x.

(** The inner loop of [_poly_eval] on the slot [results[i]], where
    [values[i] = x]. *)
Lemma _poly_eval_inner (values : list Z) (i : Z) (done rest : list Z) :
  i = Z.of_nat (length done) ->
  np_index values i = Ok x ->
  forall cs pre r, Forall P cs -> P r ->
    value (for_range (Z.of_nat (length pre)) (length cs) (fun j results =>
             cj <- lift (np_index (pre ++ cs) j) ;;
             r <- lift (np_index results i) ;;
             v <- lift (np_index values i) ;;
             p <- MULTIPLY_JIT r v ;;
             s <- ADD_JIT cj p ;;
             lift (np_set results i s)) (done ++ r :: rest))
    = Ok (done ++ fold_left step cs r :: rest).
Proof.
  intros -> Hx. induction cs as [|c cs IH]; intros pre r Hcs Hr.
  - reflexivity.
  - inversion Hcs as [|? ? Hc Hcs']; subst.
    cbn [length for_range fold_left].
    rewrite value_bind.
    assert (Hbody :
      value (cj <- lift (np_index (pre ++ c :: cs) (Z.of_nat (length pre))) ;;
             r0 <- lift (np_index (done ++ r :: rest) (Z.of_nat (length done))) ;;
             v <- lift (np_index values (Z.of_nat (length done))) ;;
             p <- MULTIPLY_JIT r0 v ;;
             s <- ADD_JIT cj p ;;
             lift (np_set (done ++ r :: rest) (Z.of_nat (length done)) s))
      = Ok (done ++ step r c :: rest)).
    { rewrite (bind_lift _ _ _ (np_index_app_here pre c cs)).
      rewrite (bind_lift _ _ _ (np_index_app_here done r rest)).
      rewrite (bind_lift _ _ _ Hx).
      destruct (MULTIPLY_ok r x Hr Px) as [Hm Pm].
      destruct (ADD_ok c (multiply r x) Hc Pm) as [Ha Pa].
      rewrite value_bind, Hm, value_bind, Ha.
      cbn [lift value snd]. apply np_set_app_here. }
    rewrite Hbody.
    replace (Z.of_nat (length pre) + 1) with (Z.of_nat (length (pre ++ [c])))
      by (rewrite length_app; cbn [length]; lia).
    replace (pre ++ c :: cs) with ((pre ++ [c]) ++ cs)
      by (rewrite <- app_assoc; reflexivity).
    apply IH; [assumption|].
    destruct (MULTIPLY_ok r x Hr Px) as [_ Pm].
    apply (ADD_ok c (multiply r x) Hc Pm).
Qed.

End Horner.

Section HornerArray.

Variables add multiply : Z -> Z -> Z.
Variables ADD_JIT MULTIPLY_JIT : Z -> Z -> M Z.
Variable P : Z -> Prop.
Hypothesis ADD_ok : forall a b, P a -> P b ->
  value (ADD_JIT a b) = Ok (add a b) /\ P (add a b).
Hypothesis MULTIPLY_ok : forall a b, P a -> P b ->
  value (MULTIPLY_JIT a b) = Ok (multiply a b) /\ P (multiply a b).

Variables (c0 : Z) (cs : list Z).
Hypothesis Pc0 : P c0.
Hypothesis Pcs : Forall P cs.

Let horner (x : Z) : Z := fold_left (fun result c => add c (multiply result x)) cs c0.

Lemma _poly_eval_outer : forall vs vpre rs done,
  Forall P vs -> length done = length vpre -> length rs = length vs ->
  value (for_range (Z.of_nat (length done)) (length vs) (fun i results =>
    c0' <- lift (np_index (c0 :: cs) 0) ;;
    results <- lift (np_set results i c0') ;;
    for_range 1 (length cs) (fun j results =>
      cj <- lift (np_index (c0 :: cs) j) ;;
      r <- lift (np_index results i) ;;
      v <- lift (np_index (vpre ++ vs) i) ;;
      p <- MULTIPLY_JIT r v ;;
      s <- ADD_JIT cj p ;;
      lift (np_set results i s)) results) (done ++ rs))
  = Ok (done ++ map horner vs).
Proof.
  induction vs as [|x vs IH]; intros vpre rs done Hvs Hlen Hrs.
  - destruct rs; [|discriminate]. reflexivity.
  - destruct rs as [|r0 rs]; [discriminate|].
    inversion Hvs as [|? ? Px Hvs']; subst.
    cbn [length for_range map]. rewrite value_bind.
    rewrite (bind_lift _ _ c0 eq_refl).
    rewrite (bind_lift _ _ _ (np_set_app_here done r0 c0 rs)).
    assert (Hx : np_index (vpre ++ x :: vs) (Z.of_nat (length done)) = Ok x)
      by (rewrite Hlen; apply np_index_app_here).
    pose proof (_poly_eval_inner add multiply x ADD_JIT MULTIPLY_JIT P
                  ADD_ok MULTIPLY_ok Px (vpre ++ x :: vs)
                  (Z.of_nat (length done)) done rs eq_refl Hx
                  cs [c0] c0 Pcs Pc0) as Hin.
    cbn [length app] in Hin. change (Z.of_nat 1) with 1 in Hin.
    rewrite Hin.
    replace (Z.of_nat (length done) + 1) with (Z.of_nat (length (done ++ [horner x])))
      by (rewrite length_app; cbn [length]; lia).
    replace (done ++ fold_left (fun result c => add c (multiply result x)) cs c0 :: rs)
      with ((done ++ [horner x]) ++ rs)
      by (rewrite <- app_assoc; reflexivity).
    replace (vpre ++ x :: vs) with ((vpre ++ [x]) ++ vs)
      by (rewrite <- app_assoc; reflexivity).
    rewrite (IH (vpre ++ [x]) rs (done ++ [horner x]) Hvs').
    + rewrite <- app_assoc. reflexivity.
    + rewrite !length_app. cbn [length]. lia.
    + cbn [length] in Hrs. lia.
Qed.

Lemma _poly_eval_spec (values results : list Z) :
  Forall P values -> length results = length values ->
  value (_poly_eval ADD_JIT MULTIPLY_JIT (c0 :: cs) values results)
  = Ok (map horner values).
Proof.
  intros Hvs Hlen. unfold _poly_eval.
  replace (Z.to_nat (size values)) with (length values)
    by (unfold size; lia).
  replace (Z.to_nat (size (c0 :: cs) - 1)) with (length cs)
    by (unfold size; cbn [length]; lia).
  apply (_poly_eval_outer values [] results [] Hvs eq_refl Hlen).
Qed.

End HornerArray.

Lemma Forall2_map_same {A B} (R : A -> B -> Prop) (f : A -> B) (l : list A) :
  (forall a, R a (f a)) -> Forall2 R l (map f l).
Proof. intros HR. induction l; cbn; constructor; auto. Qed.

(** C7: polynomial evaluation is Horner's rule over the backend it is given.
    [_poly_eval_python] returns what the rule gives with the class's own add
    and multiply (and raises on an empty coefficient array, on [coeffs[0]]).
    The array kernel [_poly_eval], over any [ADD_JIT] and [MULTIPLY_JIT] that
    compute [add] and [multiply] on a set of elements closed under them,
    leaves in [results] the value of the rule at each entry of [values]; so
    does [_poly_eval_jit] with XOR and AND.  Over GF(2), [[1, 0, 1]] at 1
    evaluates to 0. *)
Theorem poly_eval_is_horner :
  (forall cls coeffs x,
     _poly_eval_python cls coeffs x
     = horner_spec (_add_python cls) (_multiply_python cls) coeffs x) /\
  (forall add multiply ADD_JIT MULTIPLY_JIT (P : Z -> Prop),
     (forall a b, P a -> P b ->
        value (ADD_JIT a b) = Ok (add a b) /\ P (add a b)) ->
     (forall a b, P a -> P b ->
        value (MULTIPLY_JIT a b) = Ok (multiply a b) /\ P (multiply a b)) ->
     forall coeffs values results,
       coeffs <> [] -> Forall P coeffs -> Forall P values ->
       length results = length values ->
       exists results',
         value (_poly_eval ADD_JIT MULTIPLY_JIT coeffs values results) = Ok results' /\
         Forall2 (fun x r => horner_spec add multiply coeffs x = Ok r)
           values results') /\
  (forall coeffs values results,
     coeffs <> [] -> length results = length values ->
     exists results',
       value (_poly_eval_jit coeffs values results) = Ok results' /\
       Forall2 (fun x r => horner_spec _add_jit _multiply_jit coeffs x = Ok r)
         values results') /\
  _poly_eval_python (GF2 GF2_tables) [1; 0; 1] 1 = Ok 0 /\
  value (_poly_eval_jit [1; 0; 1] [1] [0]) = Ok [0].
Proof.
  assert (Hgen : forall add multiply ADD_JIT MULTIPLY_JIT (P : Z -> Prop),
     (forall a b, P a -> P b ->
        value (ADD_JIT a b) = Ok (add a b) /\ P (add a b)) ->
     (forall a b, P a -> P b ->
        value (MULTIPLY_JIT a b) = Ok (multiply a b) /\ P (multiply a b)) ->
     forall coeffs values results,
       coeffs <> [] -> Forall P coeffs -> Forall P values ->
       length results = length values ->
       exists results',
         value (_poly_eval ADD_JIT MULTIPLY_JIT coeffs values results) = Ok results' /\
         Forall2 (fun x r => horner_spec add multiply coeffs x = Ok r)
           values results').
  { intros add multiply ADD_JIT MULTIPLY_JIT P HA HM coeffs values results
      Hne Hcs Hvs Hlen.
    destruct coeffs as [|c0 cs]; [congruence|].
    inversion Hcs as [|? ? Pc0 Pcs]; subst.
    eexists. split.
    - apply (_poly_eval_spec add multiply ADD_JIT MULTIPLY_JIT P HA HM
               c0 cs Pc0 Pcs values results Hvs Hlen).
    - apply Forall2_map_same. intros a. reflexivity. }
  split; [|split; [exact Hgen|split; [|split]]].
  - intros cls [|c0 cs] x; [reflexivity|].
    unfold _poly_eval_python, horner_spec.
    change (np_index (c0 :: cs) 0) with (Ok c0). cbn [obind].
    replace (Z.to_nat (size (c0 :: cs) - 1)) with (length cs)
      by (unfold size; cbn [length]; lia).
    apply (_poly_eval_python_loop_spec (_add_python cls) (_multiply_python cls)
             x cls eq_refl eq_refl cs [c0] c0).
  - intros coeffs values results Hne Hlen.
    apply (Hgen _add_jit _multiply_jit _ _ (fun _ => True)); auto.
    + apply Forall_forall; auto.
    + apply Forall_forall; auto.
  - reflexivity.
  - reflexivity.
Qed.

Lemma poly_eval_is_horner_witness :
  exists results',
    value (_poly_eval_jit [1; 1; 0; 1] [0; 1] [5; 5]) = Ok results' /\
    Forall2 (fun x r => horner_spec _add_jit _multiply_jit [1; 1; 0; 1] x = Ok r)
      [0; 1] results'.
Proof.
  apply (proj1 (proj2 (proj2 poly_eval_is_horner))); [discriminate | reflexivity].
Defined.

(** ** Index and value bounds of the lookup kernels *)

Section Ranges.

Variable G : Globals.
Hypothesis HG : tables_in_range G.

Lemma LOG_read (a : Z) :
  0 <= a < ORDER G ->
  exists m, np_index (LOG G) a = Ok m /\ (a <> 0 -> 0 <= m < ORDER G - 1).
Proof.
  intros Ha. destruct (Z.eq_dec a 0) as [->|Hne].
  - destruct (tr_LOG0 G HG) as (v & Hv). exists v. split; [assumption | congruence].
  - destruct (tr_LOG G HG a ltac:(lia)) as (e & He & Hb). exists e. auto.
Qed.

Lemma EXP_read (i : Z) :
  0 <= i < 2 * (ORDER G - 1) ->
  exists v, rdEXP G i = ([(tEXP, i)], Ok v) /\ 0 <= v < ORDER G.
Proof.
  intros Hi. destruct (tr_EXP G HG i Hi) as (v & Hv & Hb).
  exists v. unfold rdEXP. rewrite Hv. auto.
Qed.

Lemma in_field_0 : 0 <= 0 < ORDER G.
Proof. pose proof (tr_ORDER G HG). lia. Qed.

Lemma in_field_1 : 0 <= 1 < ORDER G.
Proof. pose proof (tr_ORDER G HG). lia. Qed.

Lemma returns_ret (v : Z) : 0 <= v < ORDER G -> returns_element G (ret v).
Proof. intros Hv. exists v. auto. Qed.

Lemma returns_rdEXP (i : Z) :
  0 <= i < 2 * (ORDER G - 1) -> returns_element G (rdEXP G i).
Proof.
  intros Hi. destruct (EXP_read i Hi) as (v & Hv & Hb).
  exists v. rewrite Hv. auto.
Qed.

Lemma returns_after_read {tb : table} (i : Z) (r : outcome Z) (f : Z -> M Z) (v : Z) :
  r = Ok v -> returns_element G (f v) -> returns_element G (bind ([(tb, i)], r) f).
Proof.
  intros Hr (w & Hw & Hb). exists w.
  rewrite (bind_read _ _ _ _ _ Hr). auto.
Qed.

Ltac read_LOGs :=
  repeat match goal with
         | H : np_index (LOG G) ?a = Ok ?m |- context [rdLOG G ?a] =>
             unfold rdLOG at 1; apply (returns_after_read _ _ _ _ H)
         end.

Lemma _add_closed (a b : Z) :
  0 <= a < ORDER G -> 0 <= b < ORDER G -> returns_element G (_add G a b).
Proof.
  intros Ha Hb.
  destruct (LOG_read a Ha) as (m & Hm & Hma).
  destruct (LOG_read b Hb) as (n & Hn & Hnb).
  unfold _add. read_LOGs.
  destruct (Z.eqb_spec a 0); [apply returns_ret; assumption|].
  destruct (Z.eqb_spec b 0); [apply returns_ret; assumption|].
  specialize (Hma ltac:(assumption)). specialize (Hnb ltac:(assumption)).
  pose proof (tr_ZECH_E G HG).
  destruct (Z.gtb_spec m n) as [Hgt|Hle].
  - destruct (Z.eqb_spec (m - n) (ZECH_E G)) as [|Hz];
      [apply returns_ret; apply in_field_0|].
    destruct (tr_ZECH_LOG G HG (m - n) ltac:(lia) Hz) as (zl & Hzl & Hb').
    unfold rdZECH_LOG. apply (returns_after_read _ _ _ _ Hzl).
    apply returns_rdEXP. lia.
  - destruct (Z.eqb_spec (n - m) (ZECH_E G)) as [|Hz];
      [apply returns_ret; apply in_field_0|].
    destruct (tr_ZECH_LOG G HG (n - m) ltac:(lia) Hz) as (zl & Hzl & Hb').
    unfold rdZECH_LOG. apply (returns_after_read _ _ _ _ Hzl).
    apply returns_rdEXP. lia.
Qed.

(** The run of [_subtract] on two non-zero elements, access by access. *)
Lemma _subtract_run (a b : Z) :
  1 <= a < ORDER G -> 1 <= b < ORDER G ->
  exists m l,
    np_index (LOG G) a = Ok m /\ np_index (LOG G) b = Ok l /\
    let n := l + ZECH_E G in
    let z0 := Z.max m n - Z.min m n in
    let z := if z0 >=? ORDER G - 1 then z0 - (ORDER G - 1) else z0 in
    (z0 = ZECH_E G /\ _subtract G a b = ([(tLOG, a); (tLOG, b)], Ok 0))
    \/ (z0 <> ZECH_E G /\ 0 <= z < ORDER G - 1 /\ z <> ZECH_E G /\
        exists zl v,
          np_index (ZECH_LOG G) z = Ok zl /\
          0 <= Z.min m n + zl < 2 * (ORDER G - 1) /\
          _subtract G a b
          = ([(tLOG, a); (tLOG, b); (tZECH_LOG, z); (tEXP, Z.min m n + zl)], Ok v) /\
          0 <= v < ORDER G).
Proof.
  intros Ha Hb.
  destruct (tr_LOG G HG a Ha) as (m & Hm & Hmb).
  destruct (tr_LOG G HG b Hb) as (l & Hl & Hlb).
  pose proof (tr_ZECH_E G HG) as He.
  exists m, l. split; [assumption|]. split; [assumption|].
  cbv zeta. unfold _subtract, rdLOG.
  rewrite (bind_read _ _ _ _ m Hm), (bind_read _ _ _ _ l Hl).
  destruct (Z.eqb_spec b 0); [lia|]. destruct (Z.eqb_spec a 0); [lia|].
  destruct (Z.gtb_spec m (l + ZECH_E G)) as [Hgt|Hle].
  - rewrite Z.max_l, Z.min_r by lia.
    destruct (Z.eqb_spec (m - (l + ZECH_E G)) (ZECH_E G)) as [Hz|Hz].
    + left. split; [assumption | reflexivity].
    + right. split; [assumption|].
      destruct (Z.geb_spec (m - (l + ZECH_E G)) (ORDER G - 1)); [lia|].
      split; [lia|]. split; [assumption|].
      destruct (tr_ZECH_LOG G HG (m - (l + ZECH_E G)) ltac:(lia) Hz)
        as (zl & Hzl & Hzb).
      destruct (tr_EXP G HG (l + ZECH_E G + zl) ltac:(lia)) as (v & Hv & Hvb).
      exists zl, v. split; [assumption|]. split; [lia|]. split; [|assumption].
      unfold rdZECH_LOG, rdEXP.
      rewrite (bind_read _ _ _ _ zl Hzl), Hv. reflexivity.
  - rewrite Z.max_r, Z.min_l by lia.
    destruct (Z.eqb_spec (l + ZECH_E G - m) (ZECH_E G)) as [Hz|Hz].
    + left. split; [assumption | reflexivity].
    + right. split; [assumption|].
      set (z := if l + ZECH_E G - m >=? ORDER G - 1
                then l + ZECH_E G - m - (ORDER G - 1) else l + ZECH_E G - m).
      assert (Hzr : 0 <= z < ORDER G - 1 /\ z <> ZECH_E G).
      { subst z. destruct (Z.geb_spec (l + ZECH_E G - m) (ORDER G - 1)); lia. }
      destruct Hzr as [Hzr Hzne].
      split; [assumption|]. split; [assumption|].
      destruct (tr_ZECH_LOG G HG z Hzr Hzne) as (zl & Hzl & Hzb).
      destruct (tr_EXP G HG (m + zl) ltac:(lia)) as (v & Hv & Hvb).
      exists zl, v. split; [assumption|]. split; [lia|]. split; [|assumption].
      unfold rdZECH_LOG, rdEXP.
      rewrite (bind_read _ _ _ _ zl Hzl), Hv. reflexivity.
Qed.

Lemma _subtract_closed (a b : Z) :
  0 <= a < ORDER G -> 0 <= b < ORDER G -> returns_element G (_subtract G a b).
Proof.
  intros Ha Hb.
  destruct (Z.eq_dec b 0) as [->|Hb0]; [|destruct (Z.eq_dec a 0) as [->|Ha0]].
  - destruct (LOG_read a Ha) as (m & Hm & _).
    destruct (LOG_read 0 in_field_0) as (n & Hn & _).
    unfold _subtract. read_LOGs. apply returns_ret. assumption.
  - destruct (LOG_read 0 in_field_0) as (m & Hm & _).
    destruct (tr_LOG G HG b ltac:(lia)) as (l & Hl & Hlb).
    unfold _subtract. read_LOGs.
    destruct (Z.eqb_spec b 0); [lia|]. cbn [Z.eqb].
    pose proof (tr_ZECH_E G HG). apply returns_rdEXP. lia.
  - destruct (_subtract_run a b ltac:(lia) ltac:(lia))
      as (m & l & _ & _ & [[_ Hrun]|(_ & _ & _ & zl & v & _ & _ & Hrun & Hv)]);
      rewrite Hrun.
    + exists 0. split; [reflexivity | apply in_field_0].
    + exists v. split; [reflexivity | assumption].
Qed.

Lemma _multiply_closed (a b : Z) :
  0 <= a < ORDER G -> 0 <= b < ORDER G -> returns_element G (_multiply G a b).
Proof.
  intros Ha Hb.
  destruct (LOG_read a Ha) as (m & Hm & Hma).
  destruct (LOG_read b Hb) as (n & Hn & Hnb).
  unfold _multiply. read_LOGs.
  destruct (Z.eqb_spec a 0); [apply returns_ret; apply in_field_0|].
  destruct (Z.eqb_spec b 0); [apply returns_ret; apply in_field_0|].
  cbn [orb]. apply returns_rdEXP.
  specialize (Hma ltac:(assumption)). specialize (Hnb ltac:(assumption)). lia.
Qed.

Lemma _divide_closed (a b : Z) :
  0 <= a < ORDER G -> 0 <= b < ORDER G -> returns_element G (_divide G a b).
Proof.
  intros Ha Hb.
  destruct (LOG_read a Ha) as (m & Hm & Hma).
  destruct (LOG_read b Hb) as (n & Hn & Hnb).
  unfold _divide. read_LOGs.
  destruct (Z.eqb_spec a 0); [apply returns_ret; apply in_field_0|].
  destruct (Z.eqb_spec b 0); [apply returns_ret; apply in_field_0|].
  cbn [orb]. apply returns_rdEXP.
  specialize (Hma ltac:(assumption)). specialize (Hnb ltac:(assumption)). lia.
Qed.

Lemma _additive_inverse_closed (a : Z) :
  0 <= a < ORDER G -> returns_element G (_additive_inverse G a).
Proof.
  intros Ha. destruct (LOG_read a Ha) as (n & Hn & Hna).
  unfold _additive_inverse. read_LOGs.
  destruct (Z.eqb_spec a 0); [apply returns_ret; apply in_field_0|].
  apply returns_rdEXP. pose proof (tr_ZECH_E G HG).
  specialize (Hna ltac:(assumption)). lia.
Qed.

Lemma _multiplicative_inverse_closed (a : Z) :
  0 <= a < ORDER G -> returns_element G (_multiplicative_inverse G a).
Proof.
  intros Ha. destruct (LOG_read a Ha) as (m & Hm & Hma).
  unfold _multiplicative_inverse. read_LOGs.
  destruct (Z.eqb_spec a 0); [apply returns_ret; apply in_field_0|].
  apply returns_rdEXP. specialize (Hma ltac:(assumption)). lia.
Qed.

Lemma _multiple_add_closed (a b_int : Z) :
  0 <= a < ORDER G -> returns_element G (_multiple_add G a b_int).
Proof.
  intros Ha. pose proof (tr_CHARACTERISTIC G HG) as Hp.
  unfold _multiple_add, pymod.
  destruct (Z.eqb_spec (CHARACTERISTIC G) 0); [lia|].
  rewrite (bind_lift _ _ _ eq_refl).
  pose proof (Z.mod_pos_bound b_int (CHARACTERISTIC G) ltac:(lia)) as Hb.
  destruct (LOG_read a Ha) as (m & Hm & Hma).
  destruct (LOG_read (b_int mod CHARACTERISTIC G) ltac:(lia)) as (n' & Hn & Hnb).
  read_LOGs.
  destruct (Z.eqb_spec a 0); [apply returns_ret; apply in_field_0|].
  destruct (Z.eqb_spec (b_int mod CHARACTERISTIC G) 0);
    [apply returns_ret; apply in_field_0|].
  cbn [orb]. apply returns_rdEXP.
  specialize (Hma ltac:(assumption)). specialize (Hnb ltac:(assumption)). lia.
Qed.

Lemma _power_closed (a b_int : Z) :
  0 <= a < ORDER G -> returns_element G (_power G a b_int).
Proof.
  intros Ha. pose proof (tr_ORDER G HG) as Hq.
  destruct (LOG_read a Ha) as (m & Hm & Hma).
  unfold _power. read_LOGs.
  destruct (Z.eqb_spec b_int 0); [apply returns_ret; apply in_field_1|].
  destruct (Z.eqb_spec a 0); [apply returns_ret; apply in_field_0|].
  unfold pymod. destruct (Z.eqb_spec (ORDER G - 1) 0); [lia|].
  rewrite (bind_lift _ _ _ eq_refl).
  apply returns_rdEXP.
  pose proof (Z.mod_pos_bound (wrap_int64 (m * b_int)) (ORDER G - 1) ltac:(lia)).
  lia.
Qed.

Lemma _log_closed (a : Z) :
  1 <= a < ORDER G -> returns_element G (_log G a).
Proof.
  intros Ha. destruct (tr_LOG G HG a Ha) as (e & He & Hb).
  exists e. unfold _log, rdLOG. cbn [value snd]. split; [assumption | lia].
Qed.

End Ranges.

(** ** The field behind the tables *)

Create HintDb felem.

Section Field.

Variable cls : TargetMixin.
Hypothesis Hf : valid_field cls.

Let F := Felem cls.
Let add := _add_python cls.
Let mul := _multiply_python cls.
Let neg := _additive_inverse_python cls.
Let inv := _multiplicative_inverse_python cls.
Let alpha := primitive_element cls.
Let q := order cls.

Lemma order_ge_2 : 2 <= q.
Proof.
  subst q. rewrite (vf_order cls Hf).
  pose proof (vf_characteristic cls Hf). pose proof (vf_degree cls Hf).
  assert (characteristic cls ^ 1 <= characteristic cls ^ degree cls)
    by (apply Z.pow_le_mono_r; lia).
  rewrite Z.pow_1_r in *. lia.
Qed.

Lemma F_0 : F 0.
Proof. pose proof order_ge_2. subst F q. unfold Felem. lia. Qed.

Lemma F_1 : F 1.
Proof. pose proof order_ge_2. subst F q. unfold Felem. lia. Qed.

Lemma F_alpha : F alpha.
Proof. pose proof (vf_alpha cls Hf). subst F alpha. unfold Felem. lia. Qed.

Lemma F_add a b : F a -> F b -> F (add a b).
Proof. apply (vf_add_closed cls Hf). Qed.

Lemma F_mul a b : F a -> F b -> F (mul a b).
Proof. apply (vf_mul_closed cls Hf). Qed.

Lemma F_neg a : F a -> F (neg a).
Proof. apply (vf_neg_closed cls Hf). Qed.

Lemma F_inv a : F a -> a <> 0 -> F (inv a).
Proof. apply (vf_inv_closed cls Hf). Qed.

Hint Resolve F_0 F_1 F_alpha F_add F_mul F_neg F_inv : felem.

Lemma add_comm a b : F a -> F b -> add a b = add b a.
Proof. apply (vf_add_comm cls Hf). Qed.

Lemma add_assoc a b c : F a -> F b -> F c -> add (add a b) c = add a (add b c).
Proof. apply (vf_add_assoc cls Hf). Qed.

Lemma add_0_l a : F a -> add 0 a = a.
Proof. apply (vf_add_0_l cls Hf). Qed.

Lemma add_0_r a : F a -> add a 0 = a.
Proof. intros Ha. rewrite add_comm; auto with felem. apply add_0_l; assumption. Qed.

Lemma add_neg_r a : F a -> add a (neg a) = 0.
Proof. apply (vf_add_neg cls Hf). Qed.

Lemma add_neg_l a : F a -> add (neg a) a = 0.
Proof. intros Ha. rewrite add_comm; auto with felem. apply add_neg_r; assumption. Qed.

Lemma mul_comm a b : F a -> F b -> mul a b = mul b a.
Proof. apply (vf_mul_comm cls Hf). Qed.

Lemma mul_assoc a b c : F a -> F b -> F c -> mul (mul a b) c = mul a (mul b c).
Proof. apply (vf_mul_assoc cls Hf). Qed.

Lemma mul_1_l a : F a -> mul 1 a = a.
Proof. apply (vf_mul_1_l cls Hf). Qed.

Lemma mul_1_r a : F a -> mul a 1 = a.
Proof. intros Ha. rewrite mul_comm; auto with felem. apply mul_1_l; assumption. Qed.

Lemma mul_inv_r a : F a -> a <> 0 -> mul a (inv a) = 1.
Proof. apply (vf_mul_inv cls Hf). Qed.

Lemma mul_add_distr_l a b c :
  F a -> F b -> F c -> mul a (add b c) = add (mul a b) (mul a c).
Proof. apply (vf_distr cls Hf). Qed.

Lemma mul_add_distr_r a b c :
  F a -> F b -> F c -> mul (add a b) c = add (mul a c) (mul b c).
Proof.
  intros Ha Hb Hc.
  rewrite (mul_comm (add a b) c), (mul_comm a c), (mul_comm b c); auto with felem.
  apply mul_add_distr_l; assumption.
Qed.

Lemma add_cancel_r a b c : F a -> F b -> F c -> add a c = add b c -> a = b.
Proof.
  intros Ha Hb Hc Heq.
  rewrite <- (add_0_r a), <- (add_0_r b), <- (add_neg_r c) by assumption.
  rewrite <- !add_assoc by auto with felem. rewrite Heq. reflexivity.
Qed.

Lemma neg_unique a x : F a -> F x -> add a x = 0 -> x = neg a.
Proof.
  intros Ha Hx Heq. apply (add_cancel_r x (neg a) a); auto with felem.
  rewrite (add_comm x a), Heq, add_neg_l; auto with felem.
Qed.

Lemma neg_0 : neg 0 = 0.
Proof. symmetry. apply neg_unique; auto with felem. apply add_0_l; auto with felem. Qed.

Lemma mul_0_r a : F a -> mul a 0 = 0.
Proof.
  intros Ha. apply (add_cancel_r (mul a 0) 0 (mul a 0)); auto with felem.
  rewrite <- mul_add_distr_l, !add_0_l by auto with felem. reflexivity.
Qed.

Lemma mul_0_l a : F a -> mul 0 a = 0.
Proof. intros Ha. rewrite mul_comm; auto with felem. apply mul_0_r; assumption. Qed.

Lemma mul_neg1_r a : F a -> mul a (neg 1) = neg a.
Proof.
  intros Ha. apply neg_unique; auto with felem.
  rewrite <- (mul_1_r a) at 1 by assumption.
  rewrite <- mul_add_distr_l, add_neg_r by auto with felem.
  apply mul_0_r; assumption.
Qed.

Lemma neg1_nonzero : neg 1 <> 0.
Proof.
  intros H0. pose proof (add_neg_r 1 F_1) as H1.
  rewrite H0, add_0_r in H1 by auto with felem. discriminate.
Qed.

Lemma mul_nonzero a b : F a -> F b -> a <> 0 -> b <> 0 -> mul a b <> 0.
Proof.
  intros Ha Hb Ha0 Hb0 Hab. apply Hb0.
  rewrite <- (mul_1_l b), <- (mul_inv_r a), (mul_comm a (inv a)) by auto with felem.
  rewrite mul_assoc, Hab by auto with felem.
  apply mul_0_r; auto with felem.
Qed.

Lemma mul_cancel_l a b c : F a -> F b -> F c -> a <> 0 -> mul a b = mul a c -> b = c.
Proof.
  intros Ha Hb Hc Ha0 Heq.
  rewrite <- (mul_1_l b), <- (mul_1_l c), <- (mul_inv_r a) by auto with felem.
  rewrite (mul_comm a (inv a)), !mul_assoc, Heq by auto with felem. reflexivity.
Qed.

Lemma inv_unique a x : F a -> F x -> a <> 0 -> mul a x = 1 -> x = inv a.
Proof.
  intros Ha Hx Ha0 Heq. apply (mul_cancel_l a); auto with felem.
  rewrite Heq, mul_inv_r; auto with felem.
Qed.

(** *** Powers *)

Lemma F_fpow x n : F x -> F (fpow cls x n).
Proof. intros Hx. induction n; cbn [fpow]; auto with felem. Qed.

Hint Resolve F_fpow : felem.

Lemma fpow_1 x : F x -> fpow cls x 1 = x.
Proof. intros Hx. cbn [fpow]. apply mul_1_l; assumption. Qed.

Lemma fpow_add x n m : F x -> fpow cls x (n + m) = mul (fpow cls x n) (fpow cls x m).
Proof.
  intros Hx. induction m as [|m IH].
  - rewrite Nat.add_0_r. cbn [fpow]. rewrite mul_1_r; auto with felem.
  - rewrite Nat.add_succ_r. cbn [fpow]. fold mul.
    rewrite IH, mul_assoc; auto with felem.
Qed.

Lemma fpow_1_l n : fpow cls 1 n = 1.
Proof.
  induction n as [|n IH]; [reflexivity|].
  cbn [fpow]. fold mul. rewrite IH. apply mul_1_l; auto with felem.
Qed.

Lemma fpow_mul x n m : F x -> fpow cls (fpow cls x n) m = fpow cls x (n * m).
Proof.
  intros Hx. induction m as [|m IH].
  - rewrite Nat.mul_0_r. reflexivity.
  - rewrite Nat.mul_succ_r, fpow_add by assumption.
    cbn [fpow]. fold mul. rewrite IH. reflexivity.
Qed.

Lemma fpow_nonzero x n : F x -> x <> 0 -> fpow cls x n <> 0.
Proof.
  intros Hx Hx0. induction n as [|n IH]; cbn [fpow]; [discriminate|].
  apply mul_nonzero; auto with felem.
Qed.

Lemma fpow_0_l n : fpow cls 0 (S n) = 0.
Proof. cbn [fpow]. apply mul_0_r; auto with felem. Qed.

Lemma F_apow i : F (apow cls i).
Proof. unfold apow. auto with felem. Qed.

Hint Resolve F_apow : felem.

Lemma apow_0 : apow cls 0 = 1.
Proof. reflexivity. Qed.

Lemma apow_nonzero i : apow cls i <> 0.
Proof.
  unfold apow. apply fpow_nonzero; auto with felem.
  pose proof (vf_alpha cls Hf). lia.
Qed.

Lemma apow_add i j : 0 <= i -> 0 <= j -> apow cls (i + j) = mul (apow cls i) (apow cls j).
Proof.
  intros Hi Hj. unfold apow.
  rewrite Z2Nat.inj_add by assumption. apply fpow_add; auto with felem.
Qed.

Lemma apow_succ i : 0 <= i -> apow cls (i + 1) = mul (apow cls i) alpha.
Proof.
  intros Hi. rewrite apow_add by lia. f_equal.
  unfold apow. apply fpow_1; auto with felem.
Qed.

Lemma fpow_apow i n : 0 <= i -> fpow cls (apow cls i) n = apow cls (i * Z.of_nat n).
Proof.
  intros Hi. unfold apow. rewrite fpow_mul by auto with felem.
  f_equal. rewrite Z2Nat.inj_mul, Nat2Z.id by lia. reflexivity.
Qed.

Lemma apow_in_field i : 1 <= apow cls i < q.
Proof.
  pose proof (F_apow i) as H. pose proof (apow_nonzero i).
  subst F q. unfold Felem in H. lia.
Qed.

(** *** The tables *)

Hypothesis Ht : valid_tables cls.

Let G := _target_jit_lookup cls.

Lemma ORDER_G : ORDER G = q.
Proof.
  subst G q. unfold _target_jit_lookup.
  destruct (_build_lookup_tables cls) as [[? ?] ?]. reflexivity.
Qed.

Lemma CHARACTERISTIC_G : CHARACTERISTIC G = characteristic cls.
Proof.
  subst G. unfold _target_jit_lookup.
  destruct (_build_lookup_tables cls) as [[? ?] ?]. reflexivity.
Qed.

Lemma ZECH_E_G :
  ZECH_E G = if characteristic cls =? 2 then 0 else (q - 1) / 2.
Proof.
  subst G q. unfold _target_jit_lookup.
  destruct (_build_lookup_tables cls) as [[? ?] ?]. reflexivity.
Qed.

Lemma ZECH_E_range : 0 <= ZECH_E G < q - 1.
Proof.
  rewrite ZECH_E_G. pose proof order_ge_2.
  destruct (characteristic cls =? 2); [lia|].
  split; [apply Z.div_pos; lia | apply Z.div_lt_upper_bound; lia].
Qed.

Lemma EXP_ok i : 0 <= i < 2 * (q - 1) -> np_index (EXP G) i = Ok (apow cls i).
Proof. apply (vt_EXP cls Ht). Qed.

Lemma LOG_ok a :
  F a -> a <> 0 ->
  exists e, np_index (LOG G) a = Ok e /\ 0 <= e < q - 1 /\ apow cls e = a.
Proof.
  intros Ha Ha0.
  destruct (vt_LOG cls Ht a) as (e & He & Hb & Hp & _).
  - subst F. unfold Felem in Ha. lia.
  - exists e. auto.
Qed.

Lemma LOG_readable a : F a -> exists m, np_index (LOG G) a = Ok m.
Proof.
  intros Ha. destruct (Z.eq_dec a 0) as [->|Ha0].
  - apply (vt_LOG0 cls Ht).
  - destruct (LOG_ok a Ha Ha0) as (e & He & _). eauto.
Qed.

(** The primitive element enumerates the non-zero elements once. *)
Lemma apow_inj i j :
  0 <= i < q - 1 -> 0 <= j < q - 1 -> apow cls i = apow cls j -> i = j.
Proof.
  intros Hi Hj Heq.
  destruct (vt_LOG cls Ht (apow cls i) (apow_in_field i)) as (e & _ & _ & _ & Huniq).
  rewrite (Huniq i Hi eq_refl). symmetry. apply Huniq; auto.
Qed.

(** Its order is [order - 1]. *)
Lemma apow_period : apow cls (q - 1) = 1.
Proof.
  pose proof order_ge_2 as Hq.
  destruct (LOG_ok (apow cls (q - 1))) as (e & _ & He & Hp);
    [auto with felem | apply apow_nonzero|].
  assert (Hone : apow cls (q - 1 - e) = 1).
  { apply (mul_cancel_l (apow cls e)); auto with felem; [apply apow_nonzero|].
    rewrite <- apow_add, mul_1_r by (auto with felem; lia).
    replace (e + (q - 1 - e)) with (q - 1) by lia. auto. }
  destruct (Z.eq_dec e 0) as [->|He0].
  - rewrite <- Hp. reflexivity.
  - assert (q - 1 - e = 0) by (apply apow_inj; [lia | lia | rewrite Hone; reflexivity]).
    lia.
Qed.

Lemma apow_mul_period k : 0 <= k -> apow cls ((q - 1) * k) = 1.
Proof.
  intros Hk. pose proof order_ge_2 as Hq.
  rewrite <- (Z2Nat.id k Hk), <- fpow_apow by lia.
  rewrite apow_period. apply fpow_1_l.
Qed.

Lemma apow_mod i : 0 <= i -> apow cls i = apow cls (i mod (q - 1)).
Proof.
  intros Hi. pose proof order_ge_2 as Hq.
  pose proof (Z.mod_pos_bound i (q - 1) ltac:(lia)).
  assert (0 <= i / (q - 1)) by (apply Z.div_pos; lia).
  rewrite (Z.div_mod i (q - 1)) at 1 by lia.
  rewrite apow_add, apow_mul_period by nia.
  apply mul_1_l; auto with felem.
Qed.

Lemma apow_congr i j :
  0 <= i -> 0 <= j -> i mod (q - 1) = j mod (q - 1) -> apow cls i = apow cls j.
Proof. intros Hi Hj Heq. rewrite (apow_mod i), (apow_mod j), Heq; auto. Qed.

Lemma apow_ZECH_E : apow cls (ZECH_E G) = neg 1.
Proof. apply (vt_ZECH_E cls Ht). Qed.

(** Multiplying by [alpha^ZECH_E] negates. *)
Lemma apow_shift_ZECH_E i : 0 <= i -> apow cls (i + ZECH_E G) = neg (apow cls i).
Proof.
  intros Hi. pose proof ZECH_E_range.
  rewrite apow_add, apow_ZECH_E by lia. apply mul_neg1_r; auto with felem.
Qed.

(** The Zech logarithm: [alpha^m + alpha^(m+d) = alpha^(m + ZECH_LOG[d])]
    away from the sentinel, and 0 at the sentinel. *)
Lemma zech_zero m d :
  0 <= m -> 0 <= d -> apow cls d = neg 1 ->
  add (apow cls m) (apow cls (m + d)) = 0.
Proof.
  intros Hm Hd Hneg.
  rewrite apow_add, Hneg, mul_neg1_r by (auto with felem).
  apply add_neg_r; auto with felem.
Qed.

Lemma zech_step m d :
  0 <= m -> 0 <= d < q - 1 -> d <> ZECH_E G ->
  exists zl, np_index (ZECH_LOG G) d = Ok zl /\ 0 <= zl < q - 1 /\
             apow cls (m + zl) = add (apow cls m) (apow cls (m + d)).
Proof.
  intros Hm Hd Hne.
  assert (Hnz : add 1 (apow cls d) <> 0).
  { intros H0. apply Hne. apply apow_inj; [assumption | apply ZECH_E_range|].
    rewrite apow_ZECH_E. apply neg_unique; auto with felem. }
  destruct (LOG_ok (add 1 (apow cls d))) as (zl & Hzl & Hb & Hp);
    [auto with felem | assumption|].
  exists zl. split; [|split; [assumption|]].
  - rewrite <- Hzl. apply (vt_ZECH_LOG cls Ht); assumption.
  - rewrite !apow_add, Hp by lia.
    rewrite mul_add_distr_l, mul_1_r; auto with felem.
Qed.

Lemma valid_tables_in_range : tables_in_range G.
Proof.
  pose proof order_ge_2 as Hq. pose proof ZECH_E_range as He.
  constructor; rewrite ?ORDER_G, ?CHARACTERISTIC_G.
  - assumption.
  - pose proof (vf_characteristic cls Hf). pose proof (vf_degree cls Hf).
    split; [lia|]. subst q. rewrite (vf_order cls Hf).
    rewrite <- (Z.pow_1_r (characteristic cls)) at 1.
    apply Z.pow_le_mono_r; lia.
  - assumption.
  - apply (vt_LOG0 cls Ht).
  - intros a Ha. destruct (LOG_ok a) as (e & He' & Hb & _);
      [subst F; unfold Felem; lia | lia|]. eauto.
  - intros i Hi. exists (apow cls i). split; [apply EXP_ok; assumption|].
    pose proof (apow_in_field i). lia.
  - intros i Hi Hne. destruct (zech_step 0 i ltac:(lia) Hi Hne) as (zl & Hzl & Hb & _).
    eauto.
Qed.

(** *** What the lookup kernels return *)

Lemma value_bind_read {B} (tb : table) (i : Z) (r : outcome Z) (f : Z -> M B) (v : Z) :
  r = Ok v -> value (bind ([(tb, i)], r) f) = value (f v).
Proof. intros Hr. rewrite (bind_read _ _ _ _ _ Hr). reflexivity. Qed.

Lemma value_rdEXP i : 0 <= i < 2 * (q - 1) -> value (rdEXP G i) = Ok (apow cls i).
Proof. intros Hi. unfold rdEXP. cbn [value snd]. apply EXP_ok. assumption. Qed.

Lemma F_nonneg a : F a -> 0 <= a < q.
Proof. trivial. Qed.

Lemma _multiply_value a b :
  F a -> F b -> value (_multiply G a b) = Ok (mul a b).
Proof.
  intros Ha Hb.
  destruct (LOG_readable a Ha) as (m & Hm). destruct (LOG_readable b Hb) as (n & Hn).
  unfold _multiply, rdLOG.
  rewrite (value_bind_read _ _ _ _ _ Hm), (value_bind_read _ _ _ _ _ Hn).
  destruct (Z.eqb_spec a 0) as [->|Ha0]; [rewrite mul_0_l by assumption; reflexivity|].
  destruct (Z.eqb_spec b 0) as [->|Hb0]; [rewrite mul_0_r by assumption; reflexivity|].
  cbn [orb].
  destruct (LOG_ok a Ha Ha0) as (m' & Hm' & Hmb & Hma).
  destruct (LOG_ok b Hb Hb0) as (n' & Hn' & Hnb & Hna).
  assert (m' = m) by congruence. assert (n' = n) by congruence. subst m' n'.
  rewrite value_rdEXP, apow_add, Hma, Hna by lia. reflexivity.
Qed.

Lemma _add_value a b :
  F a -> F b -> value (_add G a b) = Ok (add a b).
Proof.
  intros Ha Hb.
  destruct (LOG_readable a Ha) as (m & Hm). destruct (LOG_readable b Hb) as (n & Hn).
  unfold _add, rdLOG.
  rewrite (value_bind_read _ _ _ _ _ Hm), (value_bind_read _ _ _ _ _ Hn).
  destruct (Z.eqb_spec a 0) as [->|Ha0]; [rewrite add_0_l by assumption; reflexivity|].
  destruct (Z.eqb_spec b 0) as [->|Hb0]; [rewrite add_0_r by assumption; reflexivity|].
  destruct (LOG_ok a Ha Ha0) as (m' & Hm' & Hmb & Hma).
  destruct (LOG_ok b Hb Hb0) as (n' & Hn' & Hnb & Hna).
  assert (m' = m) by congruence. assert (n' = n) by congruence. subst m' n'.
  destruct (Z.gtb_spec m n) as [Hgt|Hle].
  - replace m with (n + (m - n)) in Hma by lia.
    destruct (Z.eqb_spec (m - n) (ZECH_E G)) as [Hz|Hz].
    + cbn [value ret snd]. f_equal. rewrite add_comm, <- Hma, <- Hna by assumption.
      symmetry. apply zech_zero; try lia. rewrite Hz. apply apow_ZECH_E.
    + destruct (zech_step n (m - n) ltac:(lia) ltac:(lia) Hz) as (zl & Hzl & Hzb & Hsum).
      unfold rdZECH_LOG. rewrite (value_bind_read _ _ _ _ _ Hzl).
      rewrite value_rdEXP, Hsum, Hma, Hna by lia.
      f_equal. apply add_comm; assumption.
  - replace n with (m + (n - m)) in Hna by lia.
    destruct (Z.eqb_spec (n - m) (ZECH_E G)) as [Hz|Hz].
    + cbn [value ret snd]. f_equal. rewrite <- Hma, <- Hna.
      symmetry. apply zech_zero; try lia. rewrite Hz. apply apow_ZECH_E.
    + destruct (zech_step m (n - m) ltac:(lia) ltac:(lia) Hz) as (zl & Hzl & Hzb & Hsum).
      unfold rdZECH_LOG. rewrite (value_bind_read _ _ _ _ _ Hzl).
      rewrite value_rdEXP, Hsum, Hma, Hna by lia. reflexivity.
Qed.

Lemma sub_def a b : F a -> F b -> _subtract_python cls a b = add a (neg b).
Proof. apply (vf_sub cls Hf). Qed.

Lemma _subtract_value a b :
  F a -> F b -> value (_subtract G a b) = Ok (_subtract_python cls a b).
Proof.
  intros Ha Hb. rewrite sub_def by assumption.
  pose proof order_ge_2 as Hq. pose proof ZECH_E_range as He.
  destruct (LOG_readable a Ha) as (m & Hm). destruct (LOG_readable b Hb) as (l & Hl).
  unfold _subtract, rdLOG.
  rewrite (value_bind_read _ _ _ _ _ Hm), (value_bind_read _ _ _ _ _ Hl).
  rewrite ORDER_G.
  destruct (Z.eqb_spec b 0) as [->|Hb0];
    [rewrite neg_0, add_0_r by assumption; reflexivity|].
  destruct (LOG_ok b Hb Hb0) as (l' & Hl' & Hlb & Hla).
  assert (l' = l) by congruence. subst l'.
  assert (Hnb : apow cls (l + ZECH_E G) = neg b)
    by (rewrite apow_shift_ZECH_E, Hla by lia; reflexivity).
  destruct (Z.eqb_spec a 0) as [->|Ha0].
  { rewrite value_rdEXP, Hnb, add_0_l by (auto with felem; lia). reflexivity. }
  destruct (LOG_ok a Ha Ha0) as (m' & Hm' & Hmb & Hma).
  assert (m' = m) by congruence. subst m'.
  destruct (Z.gtb_spec m (l + ZECH_E G)) as [Hgt|Hle].
  - set (n := l + ZECH_E G) in *.
    replace m with (n + (m - n)) in Hma by lia.
    destruct (Z.eqb_spec (m - n) (ZECH_E G)) as [Hz|Hz].
    + cbn [value ret snd]. f_equal. rewrite add_comm, <- Hma, <- Hnb by auto with felem.
      symmetry. apply zech_zero; try lia. rewrite Hz. apply apow_ZECH_E.
    + destruct (Z.geb_spec (m - n) (q - 1)); [lia|].
      destruct (zech_step n (m - n) ltac:(lia) ltac:(lia) Hz) as (zl & Hzl & Hzb & Hsum).
      unfold rdZECH_LOG. rewrite (value_bind_read _ _ _ _ _ Hzl).
      rewrite value_rdEXP, Hsum, Hma, Hnb by lia.
      f_equal. apply add_comm; auto with felem.
  - set (n := l + ZECH_E G) in *.
    replace n with (m + (n - m)) in Hnb by lia.
    destruct (Z.eqb_spec (n - m) (ZECH_E G)) as [Hz|Hz].
    + cbn [value ret snd]. f_equal. rewrite <- Hma, <- Hnb.
      symmetry. apply zech_zero; try lia. rewrite Hz. apply apow_ZECH_E.
    + set (z := if n - m >=? q - 1 then n - m - (q - 1) else n - m).
      assert (Hzr : 0 <= z < q - 1 /\ z <> ZECH_E G /\ z mod (q - 1) = (n - m) mod (q - 1)).
      { subst z n. destruct (Z.geb_spec (l + ZECH_E G - m) (q - 1)).
        - split; [lia|]. split; [lia|].
          replace (l + ZECH_E G - m - (q - 1))
            with (l + ZECH_E G - m + (-1) * (q - 1)) by lia.
          apply Z.mod_add. lia.
        - split; [lia|]. split; [assumption | reflexivity]. }
      destruct Hzr as (Hzr & Hzne & Hzmod).
      destruct (zech_step m z ltac:(lia) Hzr Hzne) as (zl & Hzl & Hzb & Hsum).
      unfold rdZECH_LOG. rewrite (value_bind_read _ _ _ _ _ Hzl).
      rewrite value_rdEXP, Hsum by lia.
      rewrite (apow_congr (m + z) (m + (n - m))), Hma, Hnb; try lia; [reflexivity|].
      rewrite Z.add_mod, Hzmod, <- Z.add_mod by lia. reflexivity.
Qed.

Lemma inv_as_apow a m :
  F a -> a <> 0 -> 0 <= m < q - 1 -> apow cls m = a -> apow cls (q - 1 - m) = inv a.
Proof.
  intros Ha Ha0 Hm Hma. apply inv_unique; auto with felem.
  rewrite <- Hma, <- apow_add by lia.
  replace (m + (q - 1 - m)) with (q - 1) by lia. apply apow_period.
Qed.

Lemma _multiplicative_inverse_value a :
  F a -> a <> 0 -> value (_multiplicative_inverse G a) = Ok (inv a).
Proof.
  intros Ha Ha0.
  destruct (LOG_ok a Ha Ha0) as (m & Hm & Hmb & Hma).
  unfold _multiplicative_inverse, rdLOG.
  rewrite (value_bind_read _ _ _ _ _ Hm), ORDER_G.
  destruct (Z.eqb_spec a 0); [contradiction|].
  rewrite value_rdEXP by lia. f_equal. apply inv_as_apow; assumption.
Qed.

Lemma _divide_value a b :
  F a -> F b -> value (_divide G a b) = Ok (_divide_python cls a b).
Proof.
  intros Ha Hb. unfold _divide_python.
  destruct (LOG_readable a Ha) as (m & Hm). destruct (LOG_readable b Hb) as (n & Hn).
  unfold _divide, rdLOG.
  rewrite (value_bind_read _ _ _ _ _ Hm), (value_bind_read _ _ _ _ _ Hn), ORDER_G.
  destruct (Z.eqb_spec a 0) as [->|Ha0]; [reflexivity|].
  destruct (Z.eqb_spec b 0) as [->|Hb0]; [reflexivity|].
  cbn [orb].
  destruct (LOG_ok a Ha Ha0) as (m' & Hm' & Hmb & Hma).
  destruct (LOG_ok b Hb Hb0) as (n' & Hn' & Hnb & Hna).
  assert (m' = m) by congruence. assert (n' = n) by congruence. subst m' n'.
  rewrite value_rdEXP by lia. f_equal.
  replace (q - 1 + m - n) with (m + (q - 1 - n)) by lia.
  rewrite apow_add, Hma by lia. unfold mul. f_equal. apply inv_as_apow; assumption.
Qed.

Lemma _additive_inverse_value a :
  F a -> value (_additive_inverse G a) = Ok (neg a).
Proof.
  intros Ha. pose proof ZECH_E_range as He.
  destruct (LOG_readable a Ha) as (n & Hn).
  unfold _additive_inverse, rdLOG. rewrite (value_bind_read _ _ _ _ _ Hn).
  destruct (Z.eqb_spec a 0) as [->|Ha0]; [rewrite neg_0; reflexivity|].
  destruct (LOG_ok a Ha Ha0) as (n' & Hn' & Hnb & Hna).
  assert (n' = n) by congruence. subst n'.
  rewrite value_rdEXP by lia. f_equal.
  rewrite Z.add_comm, apow_shift_ZECH_E, Hna by lia. reflexivity.
Qed.

Lemma _multiple_add_value a b_int :
  F a -> value (_multiple_add G a b_int) = _multiple_add_python cls a b_int.
Proof.
  intros Ha. unfold _multiple_add, _multiple_add_python, pymod.
  rewrite CHARACTERISTIC_G.
  pose proof (vf_characteristic cls Hf) as Hp.
  destruct (Z.eqb_spec (characteristic cls) 0); [lia|].
  rewrite (bind_lift _ _ _ eq_refl). cbn [obind].
  pose proof (Z.mod_pos_bound b_int (characteristic cls) ltac:(lia)) as Hb.
  assert (HFb : F (b_int mod characteristic cls)).
  { destruct (tr_CHARACTERISTIC G valid_tables_in_range) as [_ Hle].
    rewrite CHARACTERISTIC_G, ORDER_G in Hle.
    subst F. unfold Felem. fold q. lia. }
  apply (_multiply_value a _ Ha HFb).
Qed.

(** *** Square and multiply *)

(** The loop keeps [result_m * result_s^power]. *)
Lemma _power_python_loop_spec (p : Z) : forall result_s result_m,
  1 <= p -> F result_s -> F result_m ->
  let '(s, m) := _power_python_loop cls result_s result_m p in
  F s /\ F m /\ mul m s = mul result_m (fpow cls result_s (Z.to_nat p)).
Proof.
  induction p as [p IH] using (well_founded_induction (Z.lt_wf 1)).
  intros result_s result_m Hp Hs Hm.
  rewrite _power_python_loop_equation_1.
  unfold _power_python_loop_unfold_clause_1.
  destruct (Z_lt_dec 1 p) as [Hlt|Hge].
  - unfold _power_python_loop_unfold_clause_1_clause_2.
    destruct (Z.eq_dec (p mod 2) 0) as [Heven|Hodd].
    + assert (Hhalf : p = 2 * (p / 2)).
      { pose proof (Z.div_mod p 2 ltac:(lia)). lia. }
      specialize (IH (p / 2) ltac:(lia) (mul result_s result_s) result_m
                    ltac:(lia) ltac:(auto with felem) Hm).
      fold mul.
      destruct (_power_python_loop cls (mul result_s result_s) result_m (p / 2))
        as [s m].
      destruct IH as (Fs & Fm & Heq). split; [assumption|]. split; [assumption|].
      rewrite Heq. f_equal.
      rewrite <- (fpow_1 result_s) at 1 2 by assumption.
      rewrite <- fpow_add, fpow_mul by assumption. f_equal. lia.
    + specialize (IH (p - 1) ltac:(lia) result_s (mul result_m result_s)
                    ltac:(lia) Hs ltac:(auto with felem)).
      fold mul.
      destruct (_power_python_loop cls result_s (mul result_m result_s) (p - 1))
        as [s m].
      destruct IH as (Fs & Fm & Heq). split; [assumption|]. split; [assumption|].
      rewrite Heq, mul_assoc by auto with felem. f_equal.
      rewrite <- (fpow_1 result_s) at 1 by assumption.
      rewrite <- fpow_add by assumption. f_equal. lia.
  - assert (p = 1) by lia. subst p.
    split; [assumption|]. split; [assumption|].
    change (Z.to_nat 1) with 1%nat. rewrite fpow_1 by assumption. reflexivity.
Qed.

Lemma _power_python_pos a e :
  F a -> 0 < e -> _power_python cls a e = fpow cls a (Z.to_nat e).
Proof.
  intros Ha He. unfold _power_python.
  destruct (Z.eqb_spec e 0); [lia|]. destruct (Z.ltb_spec e 0); [lia|].
  pose proof (_power_python_loop_spec e a 1 ltac:(lia) Ha F_1) as Hloop.
  destruct (_power_python_loop cls a 1 e) as [s m].
  destruct Hloop as (_ & _ & Heq). fold mul. rewrite Heq.
  apply mul_1_l. auto with felem.
Qed.

Lemma _power_python_neg a e :
  F a -> a <> 0 -> e < 0 ->
  _power_python cls a e = fpow cls (inv a) (Z.to_nat (- e)).
Proof.
  intros Ha Ha0 He. unfold _power_python.
  destruct (Z.eqb_spec e 0); [lia|]. destruct (Z.ltb_spec e 0); [|lia].
  rewrite Z.abs_neq by lia.
  pose proof (_power_python_loop_spec (- e) (inv a) 1 ltac:(lia)
                ltac:(auto with felem) F_1) as Hloop.
  fold inv.
  destruct (_power_python_loop cls (inv a) 1 (- e)) as [s m].
  destruct Hloop as (_ & _ & Heq). fold mul. rewrite Heq.
  apply mul_1_l. auto with felem.
Qed.

(** The product of a logarithm, at most [order - 2], and an exponent [e]
    with [(order - 2) * |e| < 2 ^ 63] is an [int64]. *)
Lemma log_product_fits m e :
  0 <= m < q - 1 -> (q - 2) * Z.abs e < 2 ^ 63 -> wrap_int64 (m * e) = m * e.
Proof.
  intros Hm He. apply wrap_int64_id. unfold is_int64.
  assert (Z.abs (m * e) < 2 ^ 63); [|lia].
  rewrite Z.abs_mul, (Z.abs_eq m) by lia.
  apply Z.le_lt_trans with ((q - 2) * Z.abs e); [|assumption].
  apply Z.mul_le_mono_nonneg_r; lia.
Qed.

Lemma _power_value a e :
  F a -> a <> 0 \/ 0 <= e -> (q - 2) * Z.abs e < 2 ^ 63 ->
  value (_power G a e) = Ok (_power_python cls a e).
Proof.
  intros Ha Hdom Hfit. pose proof order_ge_2 as Hq.
  destruct (LOG_readable a Ha) as (m & Hm).
  unfold _power, rdLOG. rewrite (value_bind_read _ _ _ _ _ Hm), ORDER_G.
  destruct (Z.eqb_spec e 0) as [->|He0]; [reflexivity|].
  destruct (Z.eqb_spec a 0) as [->|Ha0].
  - rewrite _power_python_pos by (assumption || lia).
    destruct (Z.to_nat e) as [|k] eqn:Hk; [lia|].
    rewrite fpow_0_l. reflexivity.
  - destruct (LOG_ok a Ha Ha0) as (m' & Hm' & Hmb & Hma).
    assert (m' = m) by congruence. subst m'.
    unfold pymod. destruct (Z.eqb_spec (q - 1) 0); [lia|].
    rewrite (bind_lift _ _ _ eq_refl).
    rewrite (log_product_fits m e) by (assumption || lia).
    pose proof (Z.mod_pos_bound (m * e) (q - 1) ltac:(lia)).
    rewrite value_rdEXP by lia. f_equal.
    destruct (Z.lt_ge_cases 0 e) as [Hpos|Hneg].
    + rewrite _power_python_pos, <- Hma, fpow_apow, Z2Nat.id by (assumption || lia).
      symmetry. apply apow_mod. nia.
    + rewrite _power_python_neg, <- (inv_as_apow a m), fpow_apow, Z2Nat.id
        by (assumption || lia).
      apply apow_congr; [lia | nia |].
      rewrite Z.mod_mod by lia.
      replace ((q - 1 - m) * - e) with (m * e + (- e) * (q - 1)) by lia.
      symmetry. apply Z.mod_add. lia.
Qed.

(** *** The naive logarithm *)

Lemma _log_python_loop_spec (a e : Z) (n : nat) : forall i,
  apow cls e = a -> 0 <= i <= e -> e < q - 1 -> e <= i + Z.of_nat n ->
  _log_python_loop cls a (apow cls i) i n = e.
Proof.
  induction n as [|n IH]; intros i Hea Hi He Hn; cbn [_log_python_loop].
  - destruct (Z.eqb_spec (apow cls i) a); lia.
  - destruct (Z.eqb_spec (apow cls i) a) as [Heq|Hne].
    + apply apow_inj; [lia | lia | congruence].
    + fold mul alpha. rewrite <- apow_succ by lia.
      apply IH; try assumption; try lia.
      assert (i <> e) by congruence. lia.
Qed.

Lemma _log_value a :
  F a -> a <> 0 ->
  exists e, value (_log G a) = Ok e /\ _log_python cls a = Ok e /\
            0 <= e < q - 1 /\ apow cls e = a.
Proof.
  intros Ha Ha0. pose proof order_ge_2 as Hq.
  destruct (LOG_ok a Ha Ha0) as (e & He & Heb & Hea).
  exists e. split; [exact He|]. split; [|auto].
  unfold _log_python. fold q.
  destruct (Z.to_nat (q - 1)) as [|n] eqn:Hn; [lia|].
  f_equal. apply (_log_python_loop_spec a e n 0); try assumption; lia.
Qed.

(** With no break the loop runs to the end of the range. *)
Lemma _log_python_loop_miss (a : Z) (n : nat) : forall r i,
  F r -> r <> 0 -> _log_python_loop cls 0 r i n = i + Z.of_nat n.
Proof.
  induction n as [|n IH]; intros r i Hr Hr0; cbn [_log_python_loop];
    (destruct (Z.eqb_spec r 0); [contradiction|]); [lia|].
  rewrite IH; [lia | auto with felem|].
  apply mul_nonzero; auto with felem. pose proof (vf_alpha cls Hf). fold alpha. lia.
Qed.

Lemma _log_python_0 : _log_python cls 0 = Ok (q - 2).
Proof.
  pose proof order_ge_2 as Hq. unfold _log_python. fold q.
  destruct (Z.to_nat (q - 1)) as [|n] eqn:Hn; [lia|].
  rewrite (_log_python_loop_miss 0); [f_equal; lia | auto with felem | discriminate].
Qed.

End Field.

(** ** The exhaustive checks decide validity *)

Lemma forallZ_spec (n : Z) (P : Z -> bool) :
  forallZ n P = true -> forall i, 0 <= i < n -> P i = true.
Proof.
  unfold forallZ. intros Hall i Hi.
  rewrite forallb_forall in Hall. apply Hall.
  rewrite <- (Z2Nat.id i) by lia. apply in_map. apply in_seq. lia.
Qed.

Ltac split_andb :=
  repeat match goal with
         | H : _ && _ = true |- _ => apply andb_prop in H; destruct H
         end.

Ltac unbool :=
  repeat match goal with
         | H : (_ =? _) = true |- _ => apply Z.eqb_eq in H
         | H : (_ <=? _) = true |- _ => apply Z.leb_le in H
         | H : (_ <? _) = true |- _ => apply Z.ltb_lt in H
         end.

Lemma Felemb_spec (cls : TargetMixin) (x : Z) : Felemb cls x = true -> Felem cls x.
Proof. unfold Felemb, Felem. intros H. split_andb. unbool. lia. Qed.

Lemma Ok_eqb_spec (x y : outcome Z) : Ok_eqb x y = true -> exists v, x = Ok v /\ y = Ok v.
Proof.
  destruct x as [u|], y as [v|]; cbn; try discriminate.
  intros H. apply Z.eqb_eq in H. subst. eauto.
Qed.

Lemma field_check1_spec (cls : TargetMixin) (a : Z) :
  field_check1 cls a = true ->
  Felem cls (_additive_inverse_python cls a)
  /\ _add_python cls 0 a = a
  /\ _add_python cls a (_additive_inverse_python cls a) = 0
  /\ _multiply_python cls 1 a = a
  /\ (a <> 0 -> Felem cls (_multiplicative_inverse_python cls a)
                /\ _multiply_python cls a (_multiplicative_inverse_python cls a) = 1).
Proof.
  unfold field_check1. intros Hc. split_andb.
  match goal with H : _ || _ = true |- _ => rename H into Hinv end.
  unbool. split; [apply Felemb_spec; assumption|].
  repeat (split; [assumption|]).
  intros Hne. apply orb_prop in Hinv. destruct Hinv as [Hz|Hz]; [unbool; contradiction|].
  split_andb. unbool. split; [apply Felemb_spec; assumption | assumption].
Qed.

Lemma field_check2_spec (cls : TargetMixin) (a b : Z) :
  field_check2 cls a b = true ->
  Felem cls (_add_python cls a b)
  /\ Felem cls (_multiply_python cls a b)
  /\ _add_python cls a b = _add_python cls b a
  /\ _multiply_python cls a b = _multiply_python cls b a
  /\ _subtract_python cls a b = _add_python cls a (_additive_inverse_python cls b).
Proof.
  unfold field_check2. intros Hc. split_andb. unbool.
  split; [apply Felemb_spec; assumption|].
  split; [apply Felemb_spec; assumption|]. auto.
Qed.

Lemma field_check3_spec (cls : TargetMixin) (a b c : Z) :
  field_check3 cls a b c = true ->
  _add_python cls (_add_python cls a b) c = _add_python cls a (_add_python cls b c)
  /\ _multiply_python cls (_multiply_python cls a b) c
     = _multiply_python cls a (_multiply_python cls b c)
  /\ _multiply_python cls a (_add_python cls b c)
     = _add_python cls (_multiply_python cls a b) (_multiply_python cls a c).
Proof.
  unfold field_check3. intros Hc. split_andb. unbool. auto.
Qed.

Lemma valid_fieldb_spec (cls : TargetMixin) : valid_fieldb cls = true -> valid_field cls.
Proof.
  unfold valid_fieldb. intros Hv. split_andb. unbool.
  match goal with H : forallZ _ _ = true |- _ => rename H into Hall end.
  assert (L1 : forall a, Felem cls a -> field_check1 cls a = true).
  { intros a Ha. pose proof (forallZ_spec _ _ Hall a Ha) as Hq. cbv beta in Hq.
    apply andb_prop in Hq. apply Hq. }
  assert (L2 : forall a b, Felem cls a -> Felem cls b -> field_check2 cls a b = true).
  { intros a b Ha Hb. pose proof (forallZ_spec _ _ Hall a Ha) as Hq. cbv beta in Hq.
    apply andb_prop in Hq. destruct Hq as [_ Hq].
    pose proof (forallZ_spec _ _ Hq b Hb) as Hq'. cbv beta in Hq'.
    apply andb_prop in Hq'. apply Hq'. }
  assert (L3 : forall a b c, Felem cls a -> Felem cls b -> Felem cls c ->
                field_check3 cls a b c = true).
  { intros a b c Ha Hb Hc. pose proof (forallZ_spec _ _ Hall a Ha) as Hq. cbv beta in Hq.
    apply andb_prop in Hq. destruct Hq as [_ Hq].
    pose proof (forallZ_spec _ _ Hq b Hb) as Hq'. cbv beta in Hq'.
    apply andb_prop in Hq'. destruct Hq' as [_ Hq'].
    apply (forallZ_spec _ _ Hq' c Hc). }
  constructor; try lia.
  - intros a b Ha Hb. apply (field_check2_spec cls a b (L2 a b Ha Hb)).
  - intros a b Ha Hb. apply (field_check2_spec cls a b (L2 a b Ha Hb)).
  - intros a Ha. apply (field_check1_spec cls a (L1 a Ha)).
  - intros a Ha Ha0. apply (field_check1_spec cls a (L1 a Ha)). assumption.
  - intros a b Ha Hb. apply (field_check2_spec cls a b (L2 a b Ha Hb)).
  - intros a b c Ha Hb Hc. apply (field_check3_spec cls a b c (L3 a b c Ha Hb Hc)).
  - intros a Ha. apply (field_check1_spec cls a (L1 a Ha)).
  - intros a Ha. apply (field_check1_spec cls a (L1 a Ha)).
  - intros a b Ha Hb. apply (field_check2_spec cls a b (L2 a b Ha Hb)).
  - intros a b Ha Hb. apply (field_check2_spec cls a b (L2 a b Ha Hb)).
  - intros a b c Ha Hb Hc. apply (field_check3_spec cls a b c (L3 a b c Ha Hb Hc)).
  - intros a Ha. apply (field_check1_spec cls a (L1 a Ha)).
  - intros a Ha Ha0. apply (field_check1_spec cls a (L1 a Ha)). assumption.
  - intros a b c Ha Hb Hc. apply (field_check3_spec cls a b c (L3 a b c Ha Hb Hc)).
Qed.

Lemma valid_tablesb_spec (cls : TargetMixin) :
  valid_tablesb cls = true -> valid_tables cls.
Proof.
  unfold valid_tablesb. cbv zeta. intros Hv.
  apply andb_prop in Hv. destruct Hv as [Hv HE].
  apply andb_prop in Hv. destruct Hv as [Hv HZ].
  apply andb_prop in Hv. destruct Hv as [Hv HL].
  apply andb_prop in Hv. destruct Hv as [H0 HX].
  constructor.
  - apply Ok_eqb_spec in H0. destruct H0 as (v & Hv0 & _). eauto.
  - intros i Hi. pose proof (forallZ_spec _ _ HX i Hi) as Hq. cbv beta in Hq.
    apply Ok_eqb_spec in Hq. destruct Hq as (v & Hq1 & Hq2).
    congruence.
  - intros a Ha. pose proof (forallZ_spec _ _ HL a ltac:(lia)) as Hq. cbv beta in Hq.
    apply orb_prop in Hq. destruct Hq as [Hq|Hq]; [unbool; lia|].
    destruct (np_index (LOG (_target_jit_lookup cls)) a) as [e|]; [|discriminate].
    apply andb_prop in Hq. destruct Hq as [Hq Huniq].
    split_andb. unbool.
    exists e. repeat split; try assumption.
    intros i Hi Hia. pose proof (forallZ_spec _ _ Huniq i Hi) as Hu. cbv beta in Hu.
    apply orb_prop in Hu. destruct Hu as [Hu|Hu]; [|unbool; assumption].
    apply negb_true_iff in Hu. apply Z.eqb_neq in Hu. contradiction.
  - intros i Hi Hne. pose proof (forallZ_spec _ _ HZ i Hi) as Hq. cbv beta in Hq.
    apply orb_prop in Hq. destruct Hq as [Hq|Hq]; [unbool; contradiction|].
    apply Ok_eqb_spec in Hq. destruct Hq as (v & Hq1 & Hq2). congruence.
  - unbool. assumption.
Qed.

(** The two small fields pass the checks. *)
Lemma GF5_valid_field : valid_field GF5.
Proof. apply valid_fieldb_spec. vm_compute. reflexivity. Defined.

Lemma GF5_valid_tables : valid_tables GF5.
Proof. apply valid_tablesb_spec. vm_compute. reflexivity. Defined.

Lemma GF2_valid_field (tables : list Z * list Z * list Z) : valid_field (GF2 tables).
Proof. apply valid_fieldb_spec. vm_compute. reflexivity. Defined.

Lemma GF2_valid_tables : valid_tables (GF2 GF2_tables).
Proof. apply valid_tablesb_spec. vm_compute. reflexivity. Defined.

(** ** The claims about the two backends *)

Lemma Felem_GF2 (tables : list Z * list Z * list Z) (a : Z) :
  Felem (GF2 tables) a -> a = 0 \/ a = 1.
Proof. unfold Felem. cbn. change (_order) with 2. lia. Qed.

(** C1 as the claim states it fails at [discrete_log(0)]: over GF(5), with
    valid parameters and tables, the lookup kernel returns the entry
    [LOG[0]], here 0, and the naive search of the calculate backend runs to
    the end of its range and returns [order - 2 = 3]. *)
Lemma discrete_log_of_zero_differs :
  valid_field GF5 /\ valid_tables GF5 /\
  value (_log (_target_jit_lookup GF5) 0) = Ok 0 /\
  _log_python GF5 0 = Ok 3.
Proof.
  split; [exact GF5_valid_field|]. split; [exact GF5_valid_tables|].
  split; reflexivity.
Qed.

(** C1, as the code has it: for valid parameters and tables the lookup
    kernels return what the calculate backend returns, on all pairs of
    elements for add, subtract, multiply, divide and negate, on all pairs of
    elements for power in a field small enough for the kernel's 64-bit
    product of a logarithm and the exponent,
    [(order - 2) * (order - 1) < 2 ^ 63], and on the non-zero elements for
    the discrete logarithm.  Over GF(2) the lookup add and subtract are XOR,
    the lookup multiply is AND, and the other kernels agree with those of
    [meta_gf2]. *)
Theorem lookup_agrees_with_calculate :
  (forall cls, valid_field cls -> valid_tables cls ->
     forall a b, Felem cls a -> Felem cls b ->
       value (_add (_target_jit_lookup cls) a b) = Ok (_add_python cls a b) /\
       value (_subtract (_target_jit_lookup cls) a b)
       = Ok (_subtract_python cls a b) /\
       value (_multiply (_target_jit_lookup cls) a b)
       = Ok (_multiply_python cls a b) /\
       value (_divide (_target_jit_lookup cls) a b) = Ok (_divide_python cls a b) /\
       value (_additive_inverse (_target_jit_lookup cls) a)
       = Ok (_additive_inverse_python cls a) /\
       ((order cls - 2) * (order cls - 1) < 2 ^ 63 ->
          value (_power (_target_jit_lookup cls) a b) = Ok (_power_python cls a b)) /\
       (a <> 0 ->
          exists e, value (_log (_target_jit_lookup cls) a) = Ok e /\
                    _log_python cls a = Ok e)) /\
  (forall tables, valid_tables (GF2 tables) ->
     forall a b, Felem (GF2 tables) a -> Felem (GF2 tables) b ->
       value (_add (_target_jit_lookup (GF2 tables)) a b) = Ok (Z.lxor a b) /\
       value (_subtract (_target_jit_lookup (GF2 tables)) a b) = Ok (Z.lxor a b) /\
       value (_multiply (_target_jit_lookup (GF2 tables)) a b) = Ok (Z.land a b) /\
       value (_divide (_target_jit_lookup (GF2 tables)) a b) = Ok (_divide_jit a b) /\
       value (_additive_inverse (_target_jit_lookup (GF2 tables)) a)
       = Ok (_negative_jit a) /\
       value (_power (_target_jit_lookup (GF2 tables)) a b) = Ok (_power_jit a b) /\
       (a <> 0 ->
          value (_log (_target_jit_lookup (GF2 tables)) a) = Ok (_log_jit a))).
Proof.
  assert (Hgen : forall cls, valid_field cls -> valid_tables cls ->
     forall a b, Felem cls a -> Felem cls b ->
       value (_add (_target_jit_lookup cls) a b) = Ok (_add_python cls a b) /\
       value (_subtract (_target_jit_lookup cls) a b)
       = Ok (_subtract_python cls a b) /\
       value (_multiply (_target_jit_lookup cls) a b)
       = Ok (_multiply_python cls a b) /\
       value (_divide (_target_jit_lookup cls) a b) = Ok (_divide_python cls a b) /\
       value (_additive_inverse (_target_jit_lookup cls) a)
       = Ok (_additive_inverse_python cls a) /\
       ((order cls - 2) * (order cls - 1) < 2 ^ 63 ->
          value (_power (_target_jit_lookup cls) a b) = Ok (_power_python cls a b)) /\
       (a <> 0 ->
          exists e, value (_log (_target_jit_lookup cls) a) = Ok e /\
                    _log_python cls a = Ok e)).
  { intros cls Hf Ht a b Ha Hb.
    split; [apply _add_value; assumption|].
    split; [apply _subtract_value; assumption|].
    split; [apply _multiply_value; assumption|].
    split; [apply _divide_value; assumption|].
    split; [apply _additive_inverse_value; assumption|].
    split.
    - intros Hsmall. pose proof (order_ge_2 cls Hf) as Hq.
      apply _power_value; try assumption; [unfold Felem in Hb; lia|].
      apply Z.le_lt_trans with ((order cls - 2) * (order cls - 1)); [|assumption].
      apply Z.mul_le_mono_nonneg_l; unfold Felem in Hb; lia.
    - intros Ha0. destruct (_log_value cls Hf Ht a Ha Ha0) as (e & He1 & He2 & _).
      eauto. }
  split; [exact Hgen|].
  intros tables Ht a b Ha Hb.
  destruct (Hgen (GF2 tables) (GF2_valid_field tables) Ht a b Ha Hb)
    as (Hadd & Hsub & Hmul & Hdiv & Hneg & Hpow & Hlog).
  split; [exact Hadd|]. split; [exact Hsub|]. split; [exact Hmul|].
  split; [|split; [exact Hneg|split]].
  - rewrite Hdiv. f_equal.
    destruct (Felem_GF2 tables a Ha) as [->| ->];
      destruct (Felem_GF2 tables b Hb) as [->| ->]; reflexivity.
  - rewrite Hpow by (cbn; lia). f_equal.
    destruct (Felem_GF2 tables a Ha) as [->| ->];
      destruct (Felem_GF2 tables b Hb) as [->| ->]; reflexivity.
  - intros Ha0. destruct (Hlog Ha0) as (e & He1 & He2). rewrite He1.
    destruct (Felem_GF2 tables a Ha) as [->| ->]; [contradiction|].
    vm_compute in He2. injection He2 as <-. reflexivity.
Qed.

Lemma lookup_agrees_with_calculate_witness :
  value (_add (_target_jit_lookup GF5) 3 4) = Ok (_add_python GF5 3 4) /\
  value (_subtract (_target_jit_lookup GF5) 3 4) = Ok (_subtract_python GF5 3 4) /\
  value (_multiply (_target_jit_lookup GF5) 3 4) = Ok (_multiply_python GF5 3 4) /\
  value (_divide (_target_jit_lookup GF5) 3 4) = Ok (_divide_python GF5 3 4) /\
  value (_additive_inverse (_target_jit_lookup GF5) 3)
  = Ok (_additive_inverse_python GF5 3) /\
  ((order GF5 - 2) * (order GF5 - 1) < 2 ^ 63 ->
     value (_power (_target_jit_lookup GF5) 3 4) = Ok (_power_python GF5 3 4)) /\
  (3 <> 0 ->
     exists e, value (_log (_target_jit_lookup GF5) 3) = Ok e /\
               _log_python GF5 3 = Ok e).
Proof.
  apply (proj1 lookup_agrees_with_calculate GF5 GF5_valid_field GF5_valid_tables 3 4);
    unfold Felem; cbn; lia.
Defined.

(** C4: [subtract(add(a, b), b) = a] for all elements, in the lookup backend
    with valid parameters and tables, in the calculate backend of a valid
    class, and in the GF(2) kernels. *)
Theorem subtract_undoes_add :
  (forall cls, valid_field cls -> valid_tables cls ->
     forall a b, Felem cls a -> Felem cls b ->
       (exists s, value (_add (_target_jit_lookup cls) a b) = Ok s /\
                  value (_subtract (_target_jit_lookup cls) s b) = Ok a) /\
       _subtract_python cls (_add_python cls a b) b = a) /\
  (forall a b, _subtract_jit (_add_jit a b) b = a).
Proof.
  split.
  - intros cls Hf Ht a b Ha Hb.
    assert (Hs : Felem cls (_add_python cls a b)) by (apply (F_add cls Hf); assumption).
    assert (Hback : _subtract_python cls (_add_python cls a b) b = a).
    { pose proof (F_neg cls Hf b Hb) as Hnb.
      rewrite (sub_def cls Hf) by assumption.
      rewrite (add_assoc cls Hf), (add_neg_r cls Hf), (add_0_r cls Hf) by assumption.
      reflexivity. }
    split; [|exact Hback].
    exists (_add_python cls a b). split; [apply _add_value; assumption|].
    rewrite _subtract_value, Hback by assumption. reflexivity.
  - intros a b. unfold _subtract_jit, _add_jit.
    rewrite Z.lxor_assoc, Z.lxor_nilpotent, Z.lxor_0_r. reflexivity.
Qed.

Lemma subtract_undoes_add_witness :
  (exists s, value (_add (_target_jit_lookup GF5) 3 4) = Ok s /\
             value (_subtract (_target_jit_lookup GF5) s 4) = Ok 3) /\
  _subtract_python GF5 (_add_python GF5 3 4) 4 = 3.
Proof.
  apply (proj1 subtract_undoes_add GF5 GF5_valid_field GF5_valid_tables 3 4);
    unfold Felem; cbn; lia.
Defined.



(** C6: with tables whose entries are in range (in particular with valid
    parameters and tables), every lookup kernel, on elements of
    [[0, order)], returns an element of [[0, order)]: add, subtract,
    multiply, negate and multiply_by_integer always; divide,
    multiplicative_inverse and power also outside their failure cases (in
    them the kernels return 0); discrete_log on the non-zero elements. *)
Theorem lookup_closed :
  forall G, tables_in_range G ->
    forall a b, 0 <= a < ORDER G -> 0 <= b < ORDER G ->
      returns_element G (_add G a b) /\
      returns_element G (_subtract G a b) /\
      returns_element G (_multiply G a b) /\
      returns_element G (_divide G a b) /\
      returns_element G (_additive_inverse G a) /\
      returns_element G (_multiplicative_inverse G a) /\
      (forall b_int, returns_element G (_multiple_add G a b_int)) /\
      (forall b_int, returns_element G (_power G a b_int)) /\
      (a <> 0 -> returns_element G (_log G a)).
Proof.
  intros G HG a b Ha Hb.
  split; [apply _add_closed; assumption|].
  split; [apply _subtract_closed; assumption|].
  split; [apply _multiply_closed; assumption|].
  split; [apply _divide_closed; assumption|].
  split; [apply _additive_inverse_closed; assumption|].
  split; [apply _multiplicative_inverse_closed; assumption|].
  split; [intros b_int; apply _multiple_add_closed; assumption|].
  split; [intros b_int; apply _power_closed; assumption|].
  intros Ha0. apply _log_closed; [assumption | lia].
Qed.

Lemma lookup_closed_witness :
  returns_element (_target_jit_lookup GF5) (_add (_target_jit_lookup GF5) 3 4) /\
  returns_element (_target_jit_lookup GF5) (_subtract (_target_jit_lookup GF5) 3 4) /\
  returns_element (_target_jit_lookup GF5) (_multiply (_target_jit_lookup GF5) 3 4) /\
  returns_element (_target_jit_lookup GF5) (_divide (_target_jit_lookup GF5) 3 4) /\
  returns_element (_target_jit_lookup GF5)
    (_additive_inverse (_target_jit_lookup GF5) 3) /\
  returns_element (_target_jit_lookup GF5)
    (_multiplicative_inverse (_target_jit_lookup GF5) 3) /\
  (forall b_int,
     returns_element (_target_jit_lookup GF5)
       (_multiple_add (_target_jit_lookup GF5) 3 b_int)) /\
  (forall b_int,
     returns_element (_target_jit_lookup GF5)
       (_power (_target_jit_lookup GF5) 3 b_int)) /\
  (3 <> 0 ->
   returns_element (_target_jit_lookup GF5) (_log (_target_jit_lookup GF5) 3)).
Proof.
  apply (lookup_closed (_target_jit_lookup GF5)
           (valid_tables_in_range GF5 GF5_valid_field GF5_valid_tables) 3 4);
    cbn; lia.
Defined.

(** C10: in [_subtract] on two non-zero elements, with [m = LOG[a]] and
    [n = LOG[b] + ZECH_E], either [n - m] after the swap is [ZECH_E] and the
    kernel returns 0 having read no other table, or the index [z] used for
    [ZECH_LOG], after the conditional reduction by [order - 1], lies in
    [[0, order - 1)] and is not [ZECH_E], and the index
    [min(m, n) + ZECH_LOG[z]] used for [EXP] lies in [[0, 2 (order - 1))];
    these are the only accesses. *)
Theorem subtract_indices_in_range :
  forall G, tables_in_range G ->
    forall a b, 1 <= a < ORDER G -> 1 <= b < ORDER G ->
      exists m l,
        np_index (LOG G) a = Ok m /\ np_index (LOG G) b = Ok l /\
        let n := l + ZECH_E G in
        let z0 := Z.max m n - Z.min m n in
        let z := if z0 >=? ORDER G - 1 then z0 - (ORDER G - 1) else z0 in
        (z0 = ZECH_E G /\ _subtract G a b = ([(tLOG, a); (tLOG, b)], Ok 0))
        \/ (z0 <> ZECH_E G /\ 0 <= z < ORDER G - 1 /\ z <> ZECH_E G /\
            exists zl v,
              np_index (ZECH_LOG G) z = Ok zl /\
              0 <= Z.min m n + zl < 2 * (ORDER G - 1) /\
              _subtract G a b
              = ([(tLOG, a); (tLOG, b); (tZECH_LOG, z); (tEXP, Z.min m n + zl)],
                 Ok v) /\
              0 <= v < ORDER G).
Proof.
  intros G HG a b Ha Hb. apply _subtract_run; assumption.
Qed.

Lemma subtract_indices_in_range_witness :
  exists m l,
    np_index (LOG (_target_jit_lookup GF5)) 3 = Ok m /\
    np_index (LOG (_target_jit_lookup GF5)) 4 = Ok l /\
    let n := l + ZECH_E (_target_jit_lookup GF5) in
    let z0 := Z.max m n - Z.min m n in
    let z := if z0 >=? ORDER (_target_jit_lookup GF5) - 1
             then z0 - (ORDER (_target_jit_lookup GF5) - 1) else z0 in
    (z0 = ZECH_E (_target_jit_lookup GF5) /\
     _subtract (_target_jit_lookup GF5) 3 4 = ([(tLOG, 3); (tLOG, 4)], Ok 0))
    \/ (z0 <> ZECH_E (_target_jit_lookup GF5) /\
        0 <= z < ORDER (_target_jit_lookup GF5) - 1 /\
        z <> ZECH_E (_target_jit_lookup GF5) /\
        exists zl v,
          np_index (ZECH_LOG (_target_jit_lookup GF5)) z = Ok zl /\
          0 <= Z.min m n + zl < 2 * (ORDER (_target_jit_lookup GF5) - 1) /\
          _subtract (_target_jit_lookup GF5) 3 4
          = ([(tLOG, 3); (tLOG, 4); (tZECH_LOG, z); (tEXP, Z.min m n + zl)], Ok v) /\
          0 <= v < ORDER (_target_jit_lookup GF5)).
Proof.
  apply (subtract_indices_in_range (_target_jit_lookup GF5)
           (valid_tables_in_range GF5 GF5_valid_field GF5_valid_tables) 3 4);
    cbn; lia.
Defined.

(** * Further properties of the code *)

(** ** integer.py *)

Lemma isqrt_fallback_spec (math_isqrt : Z -> outcome Z) (n : Z) :
  0 <= n -> isqrt false math_isqrt n = Ok (Z.sqrt n).
Proof.
  induction n as [n IH] using (well_founded_induction (Z.lt_wf 0)).
  intros Hn. rewrite isqrt_equation_2. unfold isqrt_unfold_clause_2.
  destruct (Z_lt_dec n 0) as [Hneg|Hpos]; [lia|].
  unfold isqrt_unfold_clause_2_clause_2.
  destruct (Z_lt_dec n 2) as [Hlt|Hge].
  - assert (Hc : n = 0 \/ n = 1) by lia. destruct Hc as [-> | ->]; reflexivity.
  - rewrite Z.shiftr_div_pow2 by lia. change (2 ^ 2) with 4.
    assert (Hq : 0 <= n / 4 < n)
      by (split; [apply Z.div_pos | apply Z.div_lt]; lia).
    rewrite (IH (n / 4)) by lia. cbn [obind].
    pose proof (Z.sqrt_spec (n / 4) ltac:(lia)) as Hs. cbv zeta in Hs.
    pose proof (Z.sqrt_nonneg (n / 4)) as Hs0.
    set (s := Z.sqrt (n / 4)) in *.
    rewrite Z.shiftl_mul_pow2 by lia. change (2 ^ 1) with 2.
    pose proof (Z.div_mod n 4 ltac:(lia)) as Hdm.
    pose proof (Z.mod_pos_bound n 4 ltac:(lia)) as Hmod.
    unfold Z.succ in Hs.
    destruct (Z.gtb_spec ((s * 2 + 1) * (s * 2 + 1)) n) as [Hgt|Hle];
      f_equal; symmetry; apply Z.sqrt_unique; nia.
Qed.

(** X1: before Python 3.8, [isqrt] raises [ValueError] on a negative
    argument and otherwise returns the integer square root. *)
Theorem isqrt_fallback_is_sqrt :
  forall math_isqrt n,
    isqrt false math_isqrt n = if n <? 0 then Raise ValueError else Ok (Z.sqrt n).
Proof.
  intros math_isqrt n. destruct (Z.ltb_spec n 0) as [Hneg|Hpos].
  - rewrite isqrt_equation_2. unfold isqrt_unfold_clause_2.
    destruct (Z_lt_dec n 0); [reflexivity | lia].
  - apply isqrt_fallback_spec. assumption.
Qed.

Lemma iroot_never_raises_on_valid (fuel : nat) (n k : Z) (e : exn) :
  1 <= n -> 2 <= k -> iroot fuel n k <> Some (Raise e).
Proof.
  intros Hn Hk Hr.
  destruct (iroot_spec n k Hn Hk (S (Z.to_nat n)) ltac:(lia)) as (r & Hrun & _).
  pose proof (iroot_fuel_mono fuel (Nat.max fuel (S (Z.to_nat n))) n k _
                ltac:(lia) Hr) as H1.
  pose proof (iroot_fuel_mono (S (Z.to_nat n)) (Nat.max fuel (S (Z.to_nat n))) n k _
                ltac:(lia) Hrun) as H2.
  congruence.
Qed.

(** X2: [iroot] raises exactly when [n <= 0] or [k < 2], and then it raises
    [ValueError] before its loop; on valid arguments no iteration divides
    by zero, however far the loop is run. *)
Theorem iroot_raises_iff_invalid :
  forall fuel n k e,
    iroot fuel n k = Some (Raise e) <-> (n <= 0 \/ k < 2) /\ e = ValueError.
Proof.
  intros fuel n k e. split.
  - intros Hr. destruct (Z.le_gt_cases n 0) as [Hn|Hn];
      [|destruct (Z.lt_ge_cases k 2) as [Hk|Hk]].
    + split; [auto|]. unfold iroot in Hr.
      destruct (Z.gtb_spec n 0); [lia|]. cbn in Hr. congruence.
    + split; [auto|]. unfold iroot in Hr.
      destruct (Z.gtb_spec n 0); [|lia]. destruct (Z.geb_spec k 2); [lia|].
      cbn in Hr. congruence.
    + exfalso. apply (iroot_never_raises_on_valid fuel n k e); assumption || lia.
  - intros [Hbad ->]. unfold iroot.
    destruct (Z.gtb_spec n 0); [|reflexivity].
    destruct (Z.geb_spec k 2); [lia | reflexivity].
Qed.

(** The root is determined by its two inequalities. *)
Lemma kth_root_unique (n k r x : Z) :
  2 <= k -> 0 <= r -> 0 <= x ->
  r ^ k <= n -> (forall y, 0 <= y -> y ^ k <= n -> y <= r) ->
  x ^ k <= n -> n < (x + 1) ^ k -> r = x.
Proof.
  intros Hk Hr Hx Hrk Hmax Hxk Hx1.
  assert (x <= r) by (apply Hmax; assumption).
  destruct (Z.le_gt_cases r x) as [|Hgt]; [lia|].
  assert ((x + 1) ^ k <= r ^ k) by (apply Z.pow_le_mono_l; lia). lia.
Qed.

(** X4: [iroot] inverts the [k]-th power and is monotone in [n]. *)
Theorem iroot_of_power_and_monotone :
  (forall x k fuel, 1 <= x -> 2 <= k -> (Z.to_nat (x ^ k) < fuel)%nat ->
     iroot fuel (x ^ k) k = Some (Ok x)) /\
  (forall n n' k fuel r r', 1 <= n <= n' -> 2 <= k ->
     iroot fuel n k = Some (Ok r) -> iroot fuel n' k = Some (Ok r') -> r <= r').
Proof.
  split.
  - intros x k fuel Hx Hk Hfuel.
    assert (Hn : 1 <= x ^ k) by (pose proof (Z.pow_pos_nonneg x k); lia).
    destruct (iroot_spec (x ^ k) k Hn Hk fuel Hfuel) as (r & Hrun & Hr1 & Hrk & Hmax).
    rewrite Hrun. do 2 f_equal.
    apply (kth_root_unique (x ^ k) k); try assumption; try lia.
    apply Z.pow_lt_mono_l; lia.
  - intros n n' k fuel r r' Hn Hk Hr Hr'.
    destruct (iroot_spec n k ltac:(lia) Hk (S (Z.to_nat n)) ltac:(lia))
      as (s & Hs & Hs1 & Hsk & _).
    destruct (iroot_spec n' k ltac:(lia) Hk (S (Z.to_nat n')) ltac:(lia))
      as (s' & Hs' & _ & _ & Hmax').
    pose proof (iroot_fuel_mono fuel (Nat.max fuel (S (Z.to_nat n'))) n k _
                  ltac:(lia) Hr) as A1.
    pose proof (iroot_fuel_mono (S (Z.to_nat n)) (Nat.max fuel (S (Z.to_nat n')))
                  n k _ ltac:(lia) Hs) as A2.
    pose proof (iroot_fuel_mono fuel (Nat.max fuel (S (Z.to_nat n'))) n' k _
                  ltac:(lia) Hr') as B1.
    pose proof (iroot_fuel_mono (S (Z.to_nat n')) (Nat.max fuel (S (Z.to_nat n')))
                  n' k _ ltac:(lia) Hs') as B2.
    assert (r = s) by congruence. assert (r' = s') by congruence. subst.
    apply Hmax'; lia.
Qed.

Lemma iroot_of_power_and_monotone_witness :
  iroot 20 (3 ^ 2) 2 = Some (Ok 3).
Proof.
  apply (proj1 iroot_of_power_and_monotone 3 2 20%nat); cbn; lia.
Defined.

(** X5: [ilog] inverts the power of its base, and multiplying [n] by the
    base adds one to the logarithm. *)
Theorem ilog_of_power :
  (forall b e fuel, 2 <= b -> 0 <= e -> (Z.to_nat (b ^ e) < fuel)%nat ->
     ilog fuel (b ^ e) b = Some (Ok e)) /\
  (forall n b fuel k, 1 <= n -> 2 <= b -> (Z.to_nat (n * b) < fuel)%nat ->
     ilog fuel n b = Some (Ok k) -> ilog fuel (n * b) b = Some (Ok (k + 1))).
Proof.
  split.
  - intros b e fuel Hb He Hfuel.
    assert (Hn : 1 <= b ^ e) by (apply pow_b_pos; assumption).
    destruct (ilog_spec (b ^ e) b Hn Hb fuel Hfuel)
      as (k & _ & _ & _ & _ & Hrun & Hk0 & Hlo & Hhi).
    rewrite Hrun. do 2 f_equal.
    apply Z.pow_le_mono_r_iff in Hlo; try lia.
    apply Z.pow_lt_mono_r_iff in Hhi; lia.
  - intros n b fuel k Hn Hb Hfuel Hrun.
    assert (Hnb : n <= n * b) by nia.
    assert (Hfn : (Z.to_nat n < fuel)%nat) by lia.
    destruct (ilog_spec n b Hn Hb fuel Hfn)
      as (k' & _ & _ & _ & _ & Hrun' & Hk0 & Hlo & Hhi).
    assert (k' = k) by congruence. subst k'.
    destruct (ilog_spec (n * b) b ltac:(nia) Hb fuel Hfuel)
      as (j & _ & _ & _ & _ & Hrunj & Hj0 & Hjlo & Hjhi).
    rewrite Hrunj. do 2 f_equal.
    pose proof (pow_b_S b k Hk0) as E1.
    pose proof (pow_b_S b (k + 1) ltac:(lia)) as E2.
    pose proof (pow_b_pos b Hb k Hk0) as Hpk.
    assert (Hup : j <= k + 1).
    { apply (pow_b_largest (n * b) b Hb (k + 1) j); try lia. rewrite E2. nia. }
    assert (Hdown : k + 1 <= j).
    { apply (pow_b_largest (n * b) b Hb j (k + 1)); try lia. rewrite E1. nia. }
    lia.
Qed.

Lemma ilog_of_power_witness :
  ilog 100 (3 ^ 4) 3 = Some (Ok 4).
Proof.
  apply (proj1 ilog_of_power 3 4 100%nat); cbn; lia.
Defined.

(** X6: for [k = 2], [iroot] returns what [isqrt] returns. *)
Theorem iroot_2_is_isqrt :
  forall math_isqrt n fuel, 1 <= n -> (Z.to_nat n < fuel)%nat ->
    iroot fuel n 2 = Some (isqrt false math_isqrt n).
Proof.
  intros math_isqrt n fuel Hn Hfuel.
  rewrite isqrt_fallback_spec by lia.
  destruct (iroot_spec n 2 Hn ltac:(lia) fuel Hfuel) as (r & Hrun & Hr1 & Hrk & Hmax).
  rewrite Hrun. do 2 f_equal. symmetry. apply Z.sqrt_unique.
  rewrite Z.pow_2_r in Hrk. split; [assumption|].
  destruct (Z.lt_ge_cases n (Z.succ r * Z.succ r)) as [|Hge]; [assumption|].
  specialize (Hmax (Z.succ r) ltac:(lia)). rewrite Z.pow_2_r in Hmax. lia.
Qed.

Lemma iroot_2_is_isqrt_witness :
  iroot 20 10 2 = Some (isqrt false (fun _ => Raise ValueError) 10).
Proof.
  apply (iroot_2_is_isqrt (fun _ => Raise ValueError) 10 20%nat); cbn; lia.
Defined.

(** ** meta_mixin_target.py: the lookup kernels on any tables *)

Lemma np_index_raises {A} (l : list A) (i : Z) (e : exn) :
  np_index l i = Raise e -> e = IndexError.
Proof.
  unfold np_index. destruct (np_pos l i) as [j|]; [|congruence].
  destruct (nth_error l j); congruence.
Qed.

Lemma value_bind_rd {B} (tb : table) (i : Z) (r : outcome Z) (f : Z -> M B) :
  value (bind ([(tb, i)], r) f)
  = match r with Ok v => value (f v) | Raise e => Raise e end.
Proof. rewrite value_bind. reflexivity. Qed.

(** X7: the lookup [add] and [multiply] are symmetric in their arguments
    whatever the tables hold: both orders return the same value or raise the
    same exception. *)
Theorem lookup_add_multiply_commute :
  forall G a b,
    value (_add G a b) = value (_add G b a) /\
    value (_multiply G a b) = value (_multiply G b a).
Proof.
  intros G a b. split.
  - unfold _add, rdLOG. rewrite !value_bind_rd.
    destruct (np_index (LOG G) a) as [m|e1] eqn:Hm;
      destruct (np_index (LOG G) b) as [n|e2] eqn:Hn;
      rewrite ?value_bind_rd, ?Hm, ?Hn; try reflexivity.
    + destruct (Z.eqb_spec a 0) as [->|Ha]; destruct (Z.eqb_spec b 0) as [->|Hb];
        try reflexivity.
      destruct (Z.gtb_spec m n); destruct (Z.gtb_spec n m);
        try reflexivity; try lia.
      assert (m = n) by lia. subst. reflexivity.
    + apply np_index_raises in Hm, Hn. congruence.
  - unfold _multiply, rdLOG. rewrite !value_bind_rd.
    destruct (np_index (LOG G) a) as [m|e1] eqn:Hm;
      destruct (np_index (LOG G) b) as [n|e2] eqn:Hn;
      rewrite ?value_bind_rd, ?Hm, ?Hn; try reflexivity.
    + rewrite (orb_comm (b =? 0)), (Z.add_comm n m). reflexivity.
    + apply np_index_raises in Hm, Hn. congruence.
Qed.

(** ** meta_mixin_target.py: laws of the two backends *)

Section FurtherField.

Variable cls : TargetMixin.
Hypothesis Hf : valid_field cls.

Ltac felem :=
  repeat first
    [ assumption
    | apply (F_0 cls Hf) | apply (F_1 cls Hf) | apply (F_alpha cls Hf)
    | apply (F_add cls Hf) | apply (F_mul cls Hf) | apply (F_neg cls Hf)
    | apply (F_fpow cls Hf) | apply (F_apow cls Hf)
    | apply (F_inv cls Hf); [|assumption] ].

Lemma mul_mul_swap x y z w :
  Felem cls x -> Felem cls y -> Felem cls z -> Felem cls w ->
  _multiply_python cls (_multiply_python cls x y) (_multiply_python cls z w)
  = _multiply_python cls (_multiply_python cls x z) (_multiply_python cls y w).
Proof.
  intros Hx Hy Hz Hw.
  rewrite (mul_assoc cls Hf x y), (mul_assoc cls Hf x z) by felem. f_equal.
  rewrite <- (mul_assoc cls Hf y z), <- (mul_assoc cls Hf z y) by felem. f_equal.
  apply (mul_comm cls Hf); assumption.
Qed.

Lemma fpow_inv a n :
  Felem cls a -> a <> 0 ->
  _multiply_python cls (fpow cls a n)
    (fpow cls (_multiplicative_inverse_python cls a) n) = 1.
Proof.
  intros Ha Ha0. induction n as [|n IH]; cbn [fpow].
  - apply (mul_1_l cls Hf). felem.
  - rewrite mul_mul_swap, IH, (mul_inv_r cls Hf) by felem.
    apply (mul_1_l cls Hf). felem.
Qed.

Lemma _power_python_nonneg a e :
  Felem cls a -> 0 <= e -> _power_python cls a e = fpow cls a (Z.to_nat e).
Proof.
  intros Ha He. destruct (Z.eq_dec e 0) as [->|Hne]; [reflexivity|].
  apply (_power_python_pos cls Hf); [assumption | lia].
Qed.

(** X8: square-and-multiply is repeated multiplication.  [_power_python]
    returns [a] multiplied [e] times into 1 for [e >= 0] (so 1 for [e = 0],
    also when [a = 0]); it turns sums of exponents into products; and for
    [a <> 0] the negative power is the inverse of the positive one. *)
Theorem power_python_laws :
  forall a, Felem cls a ->
    (forall e, 0 <= e -> _power_python cls a e = fpow cls a (Z.to_nat e)) /\
    (forall e1 e2, 0 <= e1 -> 0 <= e2 ->
       _power_python cls a (e1 + e2)
       = _multiply_python cls (_power_python cls a e1) (_power_python cls a e2)) /\
    (a <> 0 -> forall e,
       _multiply_python cls (_power_python cls a e) (_power_python cls a (- e)) = 1).
Proof.
  intros a Ha. split; [|split].
  - intros e He. apply _power_python_nonneg; assumption.
  - intros e1 e2 H1 H2. rewrite !_power_python_nonneg by (assumption || lia).
    rewrite Z2Nat.inj_add by assumption. apply (fpow_add cls Hf). assumption.
  - intros Ha0 e.
    destruct (Z.lt_trichotomy e 0) as [Hneg|[->|Hpos]].
    + rewrite (_power_python_neg cls Hf a e), (_power_python_pos cls Hf a (- e))
        by (assumption || lia).
      rewrite (mul_comm cls Hf) by felem. apply fpow_inv; assumption.
    + cbn. apply (mul_1_l cls Hf). felem.
    + rewrite (_power_python_pos cls Hf a e), (_power_python_neg cls Hf a (- e))
        by (assumption || lia).
      rewrite Z.opp_involutive. apply fpow_inv; assumption.
Qed.

Lemma F_poly_value coeffs x :
  Forall (Felem cls) coeffs -> Felem cls x -> Felem cls (poly_value cls coeffs x).
Proof.
  intros Hcs Hx. induction Hcs as [|c cs Hc Hcs IH]; cbn [poly_value]; felem.
Qed.

Lemma horner_fold x cs :
  Felem cls x -> Forall (Felem cls) cs ->
  forall r, Felem cls r ->
    fold_left (fun result c => _add_python cls c (_multiply_python cls result x)) cs r
    = _add_python cls (_multiply_python cls r (fpow cls x (length cs)))
        (poly_value cls cs x).
Proof.
  intros Hx Hcs. induction Hcs as [|c cs Hc Hcs IH]; intros r Hr.
  - cbn. rewrite (mul_1_r cls Hf), (add_0_r cls Hf) by felem. reflexivity.
  - cbn [fold_left length poly_value fpow].
    pose proof (F_poly_value cs x Hcs Hx) as Hpv.
    rewrite IH by felem.
    rewrite (mul_add_distr_r cls Hf) by felem.
    rewrite (mul_assoc cls Hf r x), (mul_comm cls Hf x (fpow cls x (length cs)))
      by felem.
    set (A := _multiply_python cls c (fpow cls x (length cs))).
    set (B := _multiply_python cls r
                (_multiply_python cls (fpow cls x (length cs)) x)).
    assert (HA : Felem cls A) by (subst A; felem).
    assert (HB : Felem cls B) by (subst B; felem).
    rewrite (add_comm cls Hf A B), (add_assoc cls Hf) by felem. reflexivity.
Qed.

Lemma _poly_eval_python_cons c0 cs x :
  _poly_eval_python cls (c0 :: cs) x
  = Ok (fold_left (fun result c => _add_python cls c (_multiply_python cls result x))
          cs c0).
Proof.
  unfold _poly_eval_python.
  change (np_index (c0 :: cs) 0) with (Ok c0). cbn [obind].
  replace (Z.to_nat (size (c0 :: cs) - 1)) with (length cs)
    by (unfold size; cbn [length]; lia).
  apply (_poly_eval_python_loop_spec (_add_python cls) (_multiply_python cls)
           x cls eq_refl eq_refl cs [c0] c0).
Qed.

(** X9: [_poly_eval_python] returns the value of the polynomial: the sum of
    [coeffs[i] * x^(n-1-i)] in the field of the class. *)
Theorem poly_eval_python_is_polynomial_value :
  forall coeffs x, coeffs <> [] -> Forall (Felem cls) coeffs -> Felem cls x ->
    _poly_eval_python cls coeffs x = Ok (poly_value cls coeffs x).
Proof.
  intros [|c0 cs] x Hne Hcs Hx; [congruence|].
  inversion Hcs as [|? ? Hc0 Hcs']; subst.
  rewrite _poly_eval_python_cons, horner_fold by assumption. reflexivity.
Qed.

(** *** Multiplication by an integer *)

Lemma F_nsum a n : Felem cls a -> Felem cls (nsum cls a n).
Proof. intros Ha. induction n; cbn [nsum]; felem. Qed.

Lemma nsum_add a n m :
  Felem cls a ->
  nsum cls a (n + m) = _add_python cls (nsum cls a n) (nsum cls a m).
Proof.
  intros Ha. pose proof (F_nsum a) as HF. induction m as [|m IH].
  - rewrite Nat.add_0_r. cbn [nsum]. rewrite (add_0_r cls Hf); auto.
  - rewrite Nat.add_succ_r. cbn [nsum]. rewrite IH, (add_assoc cls Hf); auto.
Qed.

Hypothesis Hp : prime_subfield cls.

Lemma characteristic_le_order : characteristic cls <= order cls.
Proof.
  pose proof (vf_characteristic cls Hf). pose proof (vf_degree cls Hf).
  rewrite (vf_order cls Hf).
  rewrite <- (Z.pow_1_r (characteristic cls)) at 1.
  apply Z.pow_le_mono_r; lia.
Qed.

Lemma mul_small a (j : nat) :
  Felem cls a -> Z.of_nat j < characteristic cls ->
  _multiply_python cls a (Z.of_nat j) = nsum cls a j.
Proof.
  intros Ha. pose proof characteristic_le_order as Hle.
  induction j as [|j IH]; intros Hj.
  - apply (mul_0_r cls Hf). assumption.
  - cbn [nsum]. rewrite <- IH by lia.
    assert (HFj : Felem cls (Z.of_nat j)) by (unfold Felem; lia).
    replace (Z.of_nat (S j)) with (_add_python cls (Z.of_nat j) 1).
    + rewrite (mul_add_distr_l cls Hf), (mul_1_r cls Hf) by felem. reflexivity.
    + rewrite Hp by lia. rewrite Z.mod_small by lia. lia.
Qed.

Lemma nsum_characteristic a :
  Felem cls a -> nsum cls a (Z.to_nat (characteristic cls)) = 0.
Proof.
  intros Ha. pose proof (vf_characteristic cls Hf) as Hc.
  pose proof characteristic_le_order as Hle.
  replace (Z.to_nat (characteristic cls))
    with (S (Z.to_nat (characteristic cls - 1))) by lia.
  cbn [nsum]. rewrite <- mul_small by (assumption || lia).
  rewrite Z2Nat.id by lia.
  assert (HFj : Felem cls (characteristic cls - 1)) by (unfold Felem; lia).
  rewrite <- (mul_1_r cls Hf a) at 2 by assumption.
  rewrite <- (mul_add_distr_l cls Hf) by felem.
  rewrite Hp by lia.
  replace (characteristic cls - 1 + 1) with (characteristic cls) by lia.
  rewrite Z.mod_same by lia. apply (mul_0_r cls Hf). assumption.
Qed.

Lemma nsum_multiple a (t : nat) :
  Felem cls a -> nsum cls a (Z.to_nat (characteristic cls) * t) = 0.
Proof.
  intros Ha. induction t as [|t IH].
  - rewrite Nat.mul_0_r. reflexivity.
  - rewrite Nat.mul_succ_r, nsum_add, IH, nsum_characteristic by assumption.
    apply (add_0_l cls Hf). felem.
Qed.

Lemma nsum_mod a k :
  Felem cls a -> 0 <= k ->
  nsum cls a (Z.to_nat k) = nsum cls a (Z.to_nat (k mod characteristic cls)).
Proof.
  intros Ha Hk. pose proof (vf_characteristic cls Hf) as Hc.
  pose proof (Z.mod_pos_bound k (characteristic cls) ltac:(lia)) as Hm.
  assert (Hq : 0 <= k / characteristic cls) by (apply Z.div_pos; lia).
  rewrite (Z.div_mod k (characteristic cls)) at 1 by lia.
  rewrite Z2Nat.inj_add, Z2Nat.inj_mul by nia.
  rewrite nsum_add, nsum_multiple by assumption.
  apply (add_0_l cls Hf). apply F_nsum. assumption.
Qed.

Hypothesis Ht : valid_tables cls.

(** X10: multiplication by an integer is repeated addition.  When the
    integers below the characteristic count the multiples of 1,
    [_multiple_add_python] and the lookup [_multiple_add] return
    [a + ... + a] with [k] terms, for every [k >= 0]. *)
Theorem multiple_add_is_repeated_addition :
  forall a k, Felem cls a -> 0 <= k ->
    _multiple_add_python cls a k = Ok (nsum cls a (Z.to_nat k)) /\
    value (_multiple_add (_target_jit_lookup cls) a k)
    = Ok (nsum cls a (Z.to_nat k)).
Proof.
  intros a k Ha Hk.
  assert (Hpy : _multiple_add_python cls a k = Ok (nsum cls a (Z.to_nat k))).
  { pose proof (vf_characteristic cls Hf) as Hc.
    pose proof (Z.mod_pos_bound k (characteristic cls) ltac:(lia)) as Hm.
    unfold _multiple_add_python, pymod.
    destruct (Z.eqb_spec (characteristic cls) 0); [lia|]. cbn [obind]. f_equal.
    rewrite (nsum_mod a k) by assumption.
    rewrite <- mul_small by (rewrite ?Z2Nat.id; assumption || lia).
    rewrite Z2Nat.id by lia. reflexivity. }
  split; [exact Hpy|].
  rewrite (_multiple_add_value cls Hf Ht) by assumption. exact Hpy.
Qed.

End FurtherField.

Section FurtherLookup.

Variable cls : TargetMixin.
Hypothesis Hf : valid_field cls.
Hypothesis Ht : valid_tables cls.

Ltac felem :=
  repeat first
    [ assumption
    | apply (F_0 cls Hf) | apply (F_1 cls Hf) | apply (F_alpha cls Hf)
    | apply (F_add cls Hf) | apply (F_mul cls Hf) | apply (F_neg cls Hf)
    | apply (F_fpow cls Hf) | apply (F_apow cls Hf)
    | apply (F_inv cls Hf); [|assumption] ].

(** X11: the lookup kernels undo each other.  [add(a, negate(a)) = 0];
    for [a <> 0], [multiply(a, multiplicative_inverse(a)) = 1]; and for
    [b <> 0], [multiply(divide(a, b), b) = a]. *)
Theorem lookup_inverse_laws :
  forall a b, Felem cls a -> Felem cls b ->
    (exists n, value (_additive_inverse (_target_jit_lookup cls) a) = Ok n /\
               value (_add (_target_jit_lookup cls) a n) = Ok 0) /\
    (a <> 0 ->
       exists i, value (_multiplicative_inverse (_target_jit_lookup cls) a) = Ok i /\
                 value (_multiply (_target_jit_lookup cls) a i) = Ok 1) /\
    (b <> 0 ->
       exists d, value (_divide (_target_jit_lookup cls) a b) = Ok d /\
                 value (_multiply (_target_jit_lookup cls) d b) = Ok a).
Proof.
  intros a b Ha Hb. split; [|split].
  - exists (_additive_inverse_python cls a).
    split; [apply _additive_inverse_value; assumption|].
    rewrite (_add_value cls Hf Ht) by felem.
    rewrite (add_neg_r cls Hf) by assumption. reflexivity.
  - intros Ha0. exists (_multiplicative_inverse_python cls a).
    split; [apply _multiplicative_inverse_value; assumption|].
    rewrite (_multiply_value cls Hf Ht) by felem.
    rewrite (mul_inv_r cls Hf) by assumption. reflexivity.
  - intros Hb0. exists (_divide_python cls a b).
    split; [apply _divide_value; assumption|].
    unfold _divide_python.
    destruct (Z.eqb_spec a 0) as [->|Ha0].
    + cbn [orb]. rewrite (_multiply_value cls Hf Ht) by felem.
      rewrite (mul_0_l cls Hf) by assumption. reflexivity.
    + destruct (Z.eqb_spec b 0); [contradiction|]. cbn [orb].
      rewrite (_multiply_value cls Hf Ht) by felem.
      rewrite (mul_assoc cls Hf) by felem.
      rewrite (mul_comm cls Hf (_multiplicative_inverse_python cls b) b) by felem.
      rewrite (mul_inv_r cls Hf), (mul_1_r cls Hf) by assumption. reflexivity.
Qed.

(** X12: in a field with [(order - 2) * (order - 1) < 2 ^ 63], the lookup
    [power] of a non-zero base depends only on the exponent modulo
    [order - 1], for every exponent [e] whose product with a logarithm is a
    64-bit integer, [(order - 2) * |e| < 2 ^ 63]; and the power [-1] is the
    multiplicative inverse. *)
Theorem lookup_power_exponent_mod :
  (order cls - 2) * (order cls - 1) < 2 ^ 63 ->
  forall a, Felem cls a -> a <> 0 ->
    (forall e, (order cls - 2) * Z.abs e < 2 ^ 63 ->
       value (_power (_target_jit_lookup cls) a e)
       = value (_power (_target_jit_lookup cls) a (e mod (order cls - 1)))) /\
    value (_power (_target_jit_lookup cls) a (-1))
    = value (_multiplicative_inverse (_target_jit_lookup cls) a).
Proof.
  intros Hsmall a Ha Ha0. pose proof (order_ge_2 cls Hf) as Hq. split.
  - intros e Hfit.
    destruct (LOG_ok cls Ht a Ha Ha0) as (m & Hm & Hmb & Hma).
    pose proof (Z.mod_pos_bound (m * e) (order cls - 1) ltac:(lia)) as Hidx.
    pose proof (Z.mod_pos_bound e (order cls - 1) ltac:(lia)) as Hr.
    assert (Hfit' : (order cls - 2) * Z.abs (e mod (order cls - 1)) < 2 ^ 63).
    { apply Z.le_lt_trans with ((order cls - 2) * (order cls - 1)); [|assumption].
      apply Z.mul_le_mono_nonneg_l; [lia|]. rewrite Z.abs_eq; lia. }
    unfold _power, rdLOG. rewrite !value_bind_rd, Hm, (ORDER_G cls).
    rewrite (log_product_fits cls m e), (log_product_fits cls m (e mod (order cls - 1)))
      by assumption.
    unfold pymod. destruct (Z.eqb_spec (order cls - 1) 0); [lia|].
    destruct (Z.eqb_spec a 0); [contradiction|].
    rewrite !(bind_lift _ _ _ eq_refl).
    rewrite Z.mul_mod_idemp_r by lia.
    destruct (Z.eqb_spec e 0) as [->|He].
    + rewrite Z.mod_0_l by lia. reflexivity.
    + destruct (Z.eqb_spec (e mod (order cls - 1)) 0) as [Hz|Hz]; [|reflexivity].
      assert (Hi0 : (m * e) mod (order cls - 1) = 0).
      { rewrite <- Z.mul_mod_idemp_r, Hz, Z.mul_0_r by lia. apply Z.mod_0_l. lia. }
      rewrite Hi0, (value_rdEXP cls Ht) by lia. reflexivity.
  - rewrite (_power_value cls Hf Ht); [|assumption|auto|].
    + rewrite (_multiplicative_inverse_value cls Hf Ht) by assumption.
      rewrite (_power_python_neg cls Hf) by (assumption || lia).
      change (Z.to_nat (- -1)) with 1%nat.
      rewrite (fpow_1 cls Hf) by felem. reflexivity.
    + apply Z.le_lt_trans with ((order cls - 2) * (order cls - 1)); [|assumption].
      apply Z.mul_le_mono_nonneg_l; [lia|]. change (Z.abs (-1)) with 1. lia.
Qed.

Lemma _power_python_alpha e :
  0 <= e -> _power_python cls (primitive_element cls) e = apow cls e.
Proof.
  intros He. destruct (Z.eq_dec e 0) as [->|Hne]; [reflexivity|].
  rewrite (_power_python_pos cls Hf) by (felem || lia). reflexivity.
Qed.

(** X13: the discrete logarithm inverts the powers of the primitive element
    and turns products into sums: in both backends
    [log(alpha^e) = e mod (order - 1)], and
    [log(a * b) = (log a + log b) mod (order - 1)] for non-zero [a], [b]. *)
Theorem discrete_log_laws :
  (forall e, 0 <= e ->
     _log_python cls (_power_python cls (primitive_element cls) e)
     = Ok (e mod (order cls - 1)) /\
     value (_log (_target_jit_lookup cls)
              (_power_python cls (primitive_element cls) e))
     = Ok (e mod (order cls - 1))) /\
  (forall a b, Felem cls a -> Felem cls b -> a <> 0 -> b <> 0 ->
     exists la lb,
       _log_python cls a = Ok la /\ _log_python cls b = Ok lb /\
       _log_python cls (_multiply_python cls a b)
       = Ok ((la + lb) mod (order cls - 1)) /\
       value (_log (_target_jit_lookup cls) (_multiply_python cls a b))
       = Ok ((la + lb) mod (order cls - 1))).
Proof.
  pose proof (order_ge_2 cls Hf) as Hq.
  assert (Hlog : forall i, 0 <= i ->
    _log_python cls (apow cls i) = Ok (i mod (order cls - 1)) /\
    value (_log (_target_jit_lookup cls) (apow cls i)) = Ok (i mod (order cls - 1))).
  { intros i Hi.
    destruct (_log_value cls Hf Ht (apow cls i)) as (e & He1 & He2 & Heb & Hea);
      [felem | apply (apow_nonzero cls Hf)|].
    assert (e = i mod (order cls - 1)).
    { apply (apow_inj cls Hf Ht); [assumption | apply Z.mod_pos_bound; lia|].
      rewrite Hea. apply (apow_mod cls Hf Ht). assumption. }
    subst e. auto. }
  split.
  - intros e He. rewrite _power_python_alpha by assumption. apply Hlog. assumption.
  - intros a b Ha Hb Ha0 Hb0.
    destruct (_log_value cls Hf Ht a Ha Ha0) as (la & _ & Hla & Hlab & Hpa).
    destruct (_log_value cls Hf Ht b Hb Hb0) as (lb & _ & Hlb & Hlbb & Hpb).
    exists la, lb. split; [assumption|]. split; [assumption|].
    rewrite <- Hpa, <- Hpb at 1 2.
    rewrite <- (apow_add cls Hf) by lia. apply Hlog. lia.
Qed.

(** X14: the lookup [_poly_eval] leaves in [results] what
    [_poly_eval_python] returns at each entry of [values]. *)
Theorem lookup_poly_eval_agrees :
  forall coeffs values results,
    coeffs <> [] -> Forall (Felem cls) coeffs -> Forall (Felem cls) values ->
    length results = length values ->
    exists results',
      value (_poly_eval (_add (_target_jit_lookup cls))
               (_multiply (_target_jit_lookup cls)) coeffs values results)
      = Ok results' /\
      Forall2 (fun x r => _poly_eval_python cls coeffs x = Ok r) values results'.
Proof.
  intros [|c0 cs] values results Hne Hcs Hvs Hlen; [congruence|].
  inversion Hcs as [|? ? Hc0 Hcs']; subst.
  eexists. split.
  - apply (_poly_eval_spec (_add_python cls) (_multiply_python cls)
             (_add (_target_jit_lookup cls)) (_multiply (_target_jit_lookup cls))
             (Felem cls)); try assumption.
    + intros a b Ha Hb. split; [apply _add_value; assumption | felem].
    + intros a b Ha Hb. split; [apply _multiply_value; assumption | felem].
  - apply Forall2_map_same. intros x. apply _poly_eval_python_cons.
Qed.

(** X15: in characteristic 2 the lookup [negate] is the identity and the
    lookup [subtract] returns what [add] returns. *)
Theorem lookup_characteristic_2 :
  characteristic cls = 2 ->
  forall a b, Felem cls a -> Felem cls b ->
    value (_additive_inverse (_target_jit_lookup cls) a) = Ok a /\
    value (_subtract (_target_jit_lookup cls) a b)
    = value (_add (_target_jit_lookup cls) a b).
Proof.
  intros Hc a b Ha Hb.
  assert (Hneg1 : _additive_inverse_python cls 1 = 1).
  { rewrite <- (apow_ZECH_E cls Ht), (ZECH_E_G cls), Hc. reflexivity. }
  assert (Hneg : forall x, Felem cls x -> _additive_inverse_python cls x = x).
  { intros x Hx. rewrite <- (mul_neg1_r cls Hf) by assumption.
    rewrite Hneg1. apply (mul_1_r cls Hf). assumption. }
  split.
  - rewrite (_additive_inverse_value cls Hf Ht) by assumption.
    rewrite Hneg by assumption. reflexivity.
  - rewrite (_subtract_value cls Hf Ht), (_add_value cls Hf Ht) by assumption.
    rewrite (sub_def cls Hf), Hneg by assumption. reflexivity.
Qed.

End FurtherLookup.

(** ** Zero operands *)

(** X16: the kernels return a value where the operation is not defined.
    With tables in range, the lookup [multiplicative_inverse(0)] is 0,
    [power(0, e)] is 0 for every [e <> 0], negative exponents included, and
    [power(a, 0)] is 1, also for [a = 0]; the naive search of
    [_log_python] returns [order - 2] for 0; and the GF(2) kernels return
    [power(0, e) = 0] for [e <> 0] and [log(0) = 0]. *)
Theorem zero_operand_results :
  (forall G, tables_in_range G ->
     value (_multiplicative_inverse G 0) = Ok 0 /\
     (forall e, e <> 0 -> value (_power G 0 e) = Ok 0) /\
     (forall a, 0 <= a < ORDER G -> value (_power G a 0) = Ok 1)) /\
  (forall cls, valid_field cls -> _log_python cls 0 = Ok (order cls - 2)) /\
  (forall e, e <> 0 -> _power_jit 0 e = 0) /\
  _log_jit 0 = 0.
Proof.
  split; [|split; [|split]].
  - intros G HG. destruct (tr_LOG0 G HG) as (v & Hv).
    split; [|split].
    + unfold _multiplicative_inverse, rdLOG. rewrite value_bind_rd, Hv. reflexivity.
    + intros e He. unfold _power, rdLOG. rewrite value_bind_rd, Hv.
      destruct (Z.eqb_spec e 0); [contradiction | reflexivity].
    + intros a Ha. destruct (LOG_read G HG a Ha) as (m & Hm & _).
      unfold _power, rdLOG. rewrite value_bind_rd, Hm. reflexivity.
  - intros cls Hf. apply _log_python_0. assumption.
  - intros e He. unfold _power_jit. destruct (Z.eqb_spec e 0); [contradiction|].
    reflexivity.
  - reflexivity.
Qed.

Lemma zero_operand_results_witness :
  value (_multiplicative_inverse (_target_jit_lookup GF5) 0) = Ok 0 /\
  (forall e, e <> 0 -> value (_power (_target_jit_lookup GF5) 0 e) = Ok 0) /\
  (forall a, 0 <= a < ORDER (_target_jit_lookup GF5) ->
     value (_power (_target_jit_lookup GF5) a 0) = Ok 1).
Proof.
  apply (proj1 zero_operand_results (_target_jit_lookup GF5)
           (valid_tables_in_range GF5 GF5_valid_field GF5_valid_tables)).
Defined.

(** ** meta_gf2.py *)

(** X17: on the elements 0 and 1 the GF(2) kernels are arithmetic modulo 2:
    add, subtract, multiply and negate are the integer operations reduced
    modulo 2, [divide(a, b) * b = a] for [b <> 0], [power(a, e) = a^e] for
    [e >= 0], and [multiple_add(a, k) = a * k mod 2] for every integer
    [k]. *)
Theorem GF2_kernels_are_arithmetic_mod_2 :
  forall a b, a = 0 \/ a = 1 -> b = 0 \/ b = 1 ->
    _add_jit a b = (a + b) mod 2 /\
    _subtract_jit a b = (a - b) mod 2 /\
    _multiply_jit a b = (a * b) mod 2 /\
    _negative_jit a = (- a) mod 2 /\
    (b <> 0 -> _multiply_jit (_divide_jit a b) b = a) /\
    (forall e, 0 <= e -> _power_jit a e = a ^ e) /\
    (forall k, _multiple_add_jit a k = Ok ((a * k) mod 2)).
Proof.
  intros a b Ha Hb.
  repeat match goal with |- _ /\ _ => split end.
  - destruct Ha as [-> | ->]; destruct Hb as [-> | ->]; reflexivity.
  - destruct Ha as [-> | ->]; destruct Hb as [-> | ->]; reflexivity.
  - destruct Ha as [-> | ->]; destruct Hb as [-> | ->]; reflexivity.
  - destruct Ha as [-> | ->]; reflexivity.
  - intros Hb0. destruct Ha as [-> | ->]; destruct Hb as [-> | ->];
      try contradiction; reflexivity.
  - intros e He. unfold _power_jit.
    destruct (Z.eqb_spec e 0) as [->|Hne]; [rewrite Z.pow_0_r; reflexivity|].
    destruct Ha as [-> | ->]; cbn [Z.eqb].
    + rewrite Z.pow_0_l by lia. reflexivity.
    + rewrite Z.pow_1_l by lia. reflexivity.
  - intros k. unfold _multiple_add_jit, pymod, MULTIPLY_JIT, _multiply_jit.
    change (meta_gf2.CHARACTERISTIC =? 0) with false. cbn [obind].
    change meta_gf2.CHARACTERISTIC with 2. f_equal.
    pose proof (Z.mod_pos_bound k 2 ltac:(lia)) as Hm.
    destruct Ha as [-> | ->].
    + reflexivity.
    + rewrite Z.mul_1_l.
      assert (Hc : k mod 2 = 0 \/ k mod 2 = 1) by lia.
      destruct Hc as [-> | ->]; reflexivity.
Qed.

Lemma GF2_kernels_are_arithmetic_mod_2_witness :
  _add_jit 1 1 = (1 + 1) mod 2 /\
  _subtract_jit 1 1 = (1 - 1) mod 2 /\
  _multiply_jit 1 1 = (1 * 1) mod 2 /\
  _negative_jit 1 = (- 1) mod 2 /\
  (1 <> 0 -> _multiply_jit (_divide_jit 1 1) 1 = 1) /\
  (forall e, 0 <= e -> _power_jit 1 e = 1 ^ e) /\
  (forall k, _multiple_add_jit 1 k = Ok ((1 * k) mod 2)).
Proof.
  apply (GF2_kernels_are_arithmetic_mod_2 1 1); right; reflexivity.
Defined.

(** ** The array kernel and its bounds *)

Section PolyEvalBounds.

Variables add multiply : Z -> Z -> Z.
Variables ADD_JIT MULTIPLY_JIT : Z -> Z -> M Z.
Variable P : Z -> Prop.
Hypothesis ADD_ok : forall a b, P a -> P b ->
  value (ADD_JIT a b) = Ok (add a b) /\ P (add a b).
Hypothesis MULTIPLY_ok : forall a b, P a -> P b ->
  value (MULTIPLY_JIT a b) = Ok (multiply a b) /\ P (multiply a b).

Variables (c0 : Z) (cs : list Z).
Hypothesis Pc0 : P c0.
Hypothesis Pcs : Forall P cs.

Let horner (x : Z) : Z := fold_left (fun result c => add c (multiply result x)) cs c0.



End PolyEvalBounds.



(** ** The further properties on GF(5) and GF(2) *)

Lemma Felem_GF5_3 : Felem GF5 3.
Proof. unfold Felem. cbn. lia. Defined.

Lemma Felem_GF5_4 : Felem GF5 4.
Proof. unfold Felem. cbn. lia. Defined.

Lemma Felem_GF2_1 : Felem (GF2 GF2_tables) 1.
Proof. unfold Felem. change (order (GF2 GF2_tables)) with 2. lia. Defined.

Lemma GF5_prime_subfield : prime_subfield GF5.
Proof. intros j Hj. reflexivity. Defined.

Lemma power_python_laws_witness :
  (forall e, 0 <= e -> _power_python GF5 3 e = fpow GF5 3 (Z.to_nat e)) /\
  (forall e1 e2, 0 <= e1 -> 0 <= e2 ->
     _power_python GF5 3 (e1 + e2)
     = _multiply_python GF5 (_power_python GF5 3 e1) (_power_python GF5 3 e2)) /\
  (3 <> 0 -> forall e,
     _multiply_python GF5 (_power_python GF5 3 e) (_power_python GF5 3 (- e)) = 1).
Proof.
  apply (power_python_laws GF5 GF5_valid_field 3 Felem_GF5_3).
Defined.

Lemma poly_eval_python_is_polynomial_value_witness :
  _poly_eval_python GF5 [1; 0; 1] 2 = Ok (poly_value GF5 [1; 0; 1] 2).
Proof.
  apply (poly_eval_python_is_polynomial_value GF5 GF5_valid_field).
  - discriminate.
  - repeat constructor; unfold Felem; cbn; lia.
  - unfold Felem. cbn. lia.
Defined.

Lemma multiple_add_is_repeated_addition_witness :
  _multiple_add_python GF5 3 7 = Ok (nsum GF5 3 (Z.to_nat 7)) /\
  value (_multiple_add (_target_jit_lookup GF5) 3 7) = Ok (nsum GF5 3 (Z.to_nat 7)).
Proof.
  apply (multiple_add_is_repeated_addition GF5 GF5_valid_field GF5_prime_subfield
           GF5_valid_tables 3 7 Felem_GF5_3).
  lia.
Defined.

Lemma lookup_inverse_laws_witness :
  (exists n, value (_additive_inverse (_target_jit_lookup GF5) 3) = Ok n /\
             value (_add (_target_jit_lookup GF5) 3 n) = Ok 0) /\
  (3 <> 0 ->
     exists i, value (_multiplicative_inverse (_target_jit_lookup GF5) 3) = Ok i /\
               value (_multiply (_target_jit_lookup GF5) 3 i) = Ok 1) /\
  (4 <> 0 ->
     exists d, value (_divide (_target_jit_lookup GF5) 3 4) = Ok d /\
               value (_multiply (_target_jit_lookup GF5) d 4) = Ok 3).
Proof.
  apply (lookup_inverse_laws GF5 GF5_valid_field GF5_valid_tables 3 4
           Felem_GF5_3 Felem_GF5_4).
Defined.

Lemma lookup_power_exponent_mod_witness :
  (order GF5 - 2) * (order GF5 - 1) < 2 ^ 63 /\
  (order GF5 - 2) * Z.abs 7 < 2 ^ 63 /\
  value (_power (_target_jit_lookup GF5) 3 7)
  = value (_power (_target_jit_lookup GF5) 3 (7 mod (order GF5 - 1))) /\
  value (_power (_target_jit_lookup GF5) 3 (-1))
  = value (_multiplicative_inverse (_target_jit_lookup GF5) 3).
Proof.
  assert (Hsmall : (order GF5 - 2) * (order GF5 - 1) < 2 ^ 63) by (cbn; lia).
  assert (Hfit : (order GF5 - 2) * Z.abs 7 < 2 ^ 63) by (cbn; lia).
  destruct (lookup_power_exponent_mod GF5 GF5_valid_field GF5_valid_tables Hsmall 3
              Felem_GF5_3 ltac:(lia)) as [Hmod Hinv].
  split; [exact Hsmall|]. split; [exact Hfit|].
  split; [exact (Hmod 7 Hfit) | exact Hinv].
Defined.

Lemma discrete_log_laws_witness :
  (forall e, 0 <= e ->
     _log_python GF5 (_power_python GF5 (primitive_element GF5) e)
     = Ok (e mod (order GF5 - 1)) /\
     value (_log (_target_jit_lookup GF5)
              (_power_python GF5 (primitive_element GF5) e))
     = Ok (e mod (order GF5 - 1))) /\
  (forall a b, Felem GF5 a -> Felem GF5 b -> a <> 0 -> b <> 0 ->
     exists la lb,
       _log_python GF5 a = Ok la /\ _log_python GF5 b = Ok lb /\
       _log_python GF5 (_multiply_python GF5 a b)
       = Ok ((la + lb) mod (order GF5 - 1)) /\
       value (_log (_target_jit_lookup GF5) (_multiply_python GF5 a b))
       = Ok ((la + lb) mod (order GF5 - 1))).
Proof.
  apply (discrete_log_laws GF5 GF5_valid_field GF5_valid_tables).
Defined.

Lemma lookup_poly_eval_agrees_witness :
  exists results',
    value (_poly_eval (_add (_target_jit_lookup GF5)) (_multiply (_target_jit_lookup GF5))
             [1; 0; 1] [2; 3] [0; 0])
    = Ok results' /\
    Forall2 (fun x r => _poly_eval_python GF5 [1; 0; 1] x = Ok r) [2; 3] results'.
Proof.
  apply (lookup_poly_eval_agrees GF5 GF5_valid_field GF5_valid_tables).
  - discriminate.
  - repeat constructor; unfold Felem; cbn; lia.
  - repeat constructor; unfold Felem; cbn; lia.
  - reflexivity.
Defined.

Lemma lookup_characteristic_2_witness :
  value (_additive_inverse (_target_jit_lookup (GF2 GF2_tables)) 1) = Ok 1 /\
  value (_subtract (_target_jit_lookup (GF2 GF2_tables)) 1 1)
  = value (_add (_target_jit_lookup (GF2 GF2_tables)) 1 1).
Proof.
  apply (lookup_characteristic_2 (GF2 GF2_tables) (GF2_valid_field GF2_tables)
           GF2_valid_tables eq_refl 1 1 Felem_GF2_1 Felem_GF2_1).
Defined.

(** ** Table accesses *)

Ltac run_cases :=
  repeat match goal with
         | |- context [np_index ?l ?i] => destruct (np_index l i); cbn
         | |- context [pymod ?a ?b] => destruct (pymod a b); cbn
         | |- context [if ?c then _ else _] => destruct c; cbn
         end.

(** X19: every lookup kernel is a constant number of table reads, whatever
    the tables and the arguments: at most two of [LOG], then at most one of
    [ZECH_LOG] (only in add and subtract), then at most one of [EXP]. *)
Theorem lookup_kernels_read_at_most_four_entries :
  forall G a b,
    (length (trace (_add G a b)) <= 4)%nat /\
    (length (trace (_subtract G a b)) <= 4)%nat /\
    (length (trace (_multiply G a b)) <= 3)%nat /\
    (length (trace (_divide G a b)) <= 3)%nat /\
    (length (trace (_additive_inverse G a)) <= 2)%nat /\
    (length (trace (_multiplicative_inverse G a)) <= 2)%nat /\
    (length (trace (_multiple_add G a b)) <= 3)%nat /\
    (length (trace (_power G a b)) <= 2)%nat /\
    (length (trace (_log G a)) <= 1)%nat /\
    ~ In tZECH_LOG (map fst (trace (_multiply G a b) ++ trace (_divide G a b)
                             ++ trace (_additive_inverse G a)
                             ++ trace (_multiplicative_inverse G a)
                             ++ trace (_multiple_add G a b)
                             ++ trace (_power G a b) ++ trace (_log G a))).
Proof.
  intros G a b.
  repeat match goal with |- _ /\ _ => split end.
  - unfold _add, rdLOG, rdZECH_LOG, rdEXP, bind, ret, trace. run_cases; lia.
  - unfold _subtract, rdLOG, rdZECH_LOG, rdEXP, bind, ret, trace. run_cases; lia.
  - unfold _multiply, rdLOG, rdEXP, bind, ret, trace. run_cases; lia.
  - unfold _divide, rdLOG, rdEXP, bind, ret, trace. run_cases; lia.
  - unfold _additive_inverse, rdLOG, rdEXP, bind, ret, trace. run_cases; lia.
  - unfold _multiplicative_inverse, rdLOG, rdEXP, bind, ret, trace. run_cases; lia.
  - unfold _multiple_add, rdLOG, rdEXP, bind, ret, lift, trace. run_cases; lia.
  - unfold _power, rdLOG, rdEXP, bind, ret, lift, trace. run_cases; lia.
  - cbn. lia.
  - rewrite !map_app, !in_app_iff.
    intros [H|[H|[H|[H|[H|[H|H]]]]]]; revert H;
      unfold _multiply, _divide, _additive_inverse, _multiplicative_inverse,
        _multiple_add, _power, _log, rdLOG, rdEXP, bind, ret, lift, trace;
      run_cases; intuition discriminate.
Qed.

Section Bounds.

Variable G : Globals.
Hypothesis HG : tables_in_range G.

Lemma bounded_ret (v : Z) : Forall (in_bounds G) (trace (ret v)).
Proof. constructor. Qed.

Lemma bounded_rdEXP (i : Z) :
  0 <= i < 2 * (ORDER G - 1) -> Forall (in_bounds G) (trace (rdEXP G i)).
Proof. intros Hi. cbn. constructor; [exact Hi | constructor]. Qed.

Lemma bounded_after_read (tb : table) (i : Z) (r : outcome Z) (f : Z -> M Z) (v : Z) :
  r = Ok v -> in_bounds G (tb, i) -> Forall (in_bounds G) (trace (f v)) ->
  Forall (in_bounds G) (trace (bind ([(tb, i)], r) f)).
Proof.
  intros Hr Hi Hf. rewrite (bind_read _ _ _ _ _ Hr). constructor; assumption.
Qed.

Lemma bounded_LOG (a : Z) : 0 <= a < ORDER G -> in_bounds G (tLOG, a).
Proof. intros Ha. exact Ha. Qed.

Ltac read_LOG H :=
  unfold rdLOG at 1;
  apply (bounded_after_read _ _ _ _ _ H); [apply bounded_LOG; lia|].

Ltac read_ZECH H :=
  unfold rdZECH_LOG;
  apply (bounded_after_read _ _ _ _ _ H); [split; cbn [snd]; [lia | assumption]|].

Lemma _add_bounded (a b : Z) :
  0 <= a < ORDER G -> 0 <= b < ORDER G -> Forall (in_bounds G) (trace (_add G a b)).
Proof.
  intros Ha Hb.
  destruct (LOG_read G HG a Ha) as (m & Hm & Hma).
  destruct (LOG_read G HG b Hb) as (n & Hn & Hnb).
  unfold _add. read_LOG Hm. read_LOG Hn.
  destruct (Z.eqb_spec a 0); [apply bounded_ret|].
  destruct (Z.eqb_spec b 0); [apply bounded_ret|].
  specialize (Hma ltac:(assumption)). specialize (Hnb ltac:(assumption)).
  pose proof (tr_ZECH_E G HG).
  destruct (Z.gtb_spec m n) as [Hgt|Hle].
  - destruct (Z.eqb_spec (m - n) (ZECH_E G)) as [|Hz]; [apply bounded_ret|].
    destruct (tr_ZECH_LOG G HG (m - n) ltac:(lia) Hz) as (zl & Hzl & Hb').
    read_ZECH Hzl. apply bounded_rdEXP. lia.
  - destruct (Z.eqb_spec (n - m) (ZECH_E G)) as [|Hz]; [apply bounded_ret|].
    destruct (tr_ZECH_LOG G HG (n - m) ltac:(lia) Hz) as (zl & Hzl & Hb').
    read_ZECH Hzl. apply bounded_rdEXP. lia.
Qed.

Lemma _subtract_bounded (a b : Z) :
  0 <= a < ORDER G -> 0 <= b < ORDER G ->
  Forall (in_bounds G) (trace (_subtract G a b)).
Proof.
  intros Ha Hb.
  destruct (Z.eq_dec b 0) as [->|Hb0]; [|destruct (Z.eq_dec a 0) as [->|Ha0]].
  - destruct (LOG_read G HG a Ha) as (m & Hm & _).
    destruct (LOG_read G HG 0 Hb) as (n & Hn & _).
    unfold _subtract. read_LOG Hm. read_LOG Hn. apply bounded_ret.
  - destruct (LOG_read G HG 0 Ha) as (m & Hm & _).
    destruct (tr_LOG G HG b ltac:(lia)) as (l & Hl & Hlb).
    unfold _subtract. read_LOG Hm. read_LOG Hl.
    destruct (Z.eqb_spec b 0); [lia|]. cbn [Z.eqb].
    pose proof (tr_ZECH_E G HG). apply bounded_rdEXP. lia.
  - destruct (_subtract_run G HG a b ltac:(lia) ltac:(lia))
      as (m & l & _ & _ & [[_ Hrun]|(_ & Hz & Hzne & zl & v & _ & Hi & Hrun & _)]);
      rewrite Hrun; cbn [trace fst].
    + apply Forall_cons; [apply bounded_LOG; lia|].
      apply Forall_cons; [apply bounded_LOG; lia|]. constructor.
    + apply Forall_cons; [apply bounded_LOG; lia|].
      apply Forall_cons; [apply bounded_LOG; lia|].
      apply Forall_cons; [split; assumption|].
      apply Forall_cons; [exact Hi|]. constructor.
Qed.

Lemma _multiply_bounded (a b : Z) :
  0 <= a < ORDER G -> 0 <= b < ORDER G ->
  Forall (in_bounds G) (trace (_multiply G a b)).
Proof.
  intros Ha Hb.
  destruct (LOG_read G HG a Ha) as (m & Hm & Hma).
  destruct (LOG_read G HG b Hb) as (n & Hn & Hnb).
  unfold _multiply. read_LOG Hm. read_LOG Hn.
  destruct (Z.eqb_spec a 0); [apply bounded_ret|].
  destruct (Z.eqb_spec b 0); [apply bounded_ret|].
  cbn [orb]. apply bounded_rdEXP.
  specialize (Hma ltac:(assumption)). specialize (Hnb ltac:(assumption)). lia.
Qed.

Lemma _divide_bounded (a b : Z) :
  0 <= a < ORDER G -> 0 <= b < ORDER G ->
  Forall (in_bounds G) (trace (_divide G a b)).
Proof.
  intros Ha Hb.
  destruct (LOG_read G HG a Ha) as (m & Hm & Hma).
  destruct (LOG_read G HG b Hb) as (n & Hn & Hnb).
  unfold _divide. read_LOG Hm. read_LOG Hn.
  destruct (Z.eqb_spec a 0); [apply bounded_ret|].
  destruct (Z.eqb_spec b 0); [apply bounded_ret|].
  cbn [orb]. apply bounded_rdEXP.
  specialize (Hma ltac:(assumption)). specialize (Hnb ltac:(assumption)). lia.
Qed.

Lemma _additive_inverse_bounded (a : Z) :
  0 <= a < ORDER G -> Forall (in_bounds G) (trace (_additive_inverse G a)).
Proof.
  intros Ha. destruct (LOG_read G HG a Ha) as (n & Hn & Hna).
  unfold _additive_inverse. read_LOG Hn.
  destruct (Z.eqb_spec a 0); [apply bounded_ret|].
  apply bounded_rdEXP. pose proof (tr_ZECH_E G HG).
  specialize (Hna ltac:(assumption)). lia.
Qed.

Lemma _multiplicative_inverse_bounded (a : Z) :
  0 <= a < ORDER G -> Forall (in_bounds G) (trace (_multiplicative_inverse G a)).
Proof.
  intros Ha. destruct (LOG_read G HG a Ha) as (m & Hm & Hma).
  unfold _multiplicative_inverse. read_LOG Hm.
  destruct (Z.eqb_spec a 0); [apply bounded_ret|].
  apply bounded_rdEXP. specialize (Hma ltac:(assumption)). lia.
Qed.

Lemma _multiple_add_bounded (a b_int : Z) :
  0 <= a < ORDER G -> Forall (in_bounds G) (trace (_multiple_add G a b_int)).
Proof.
  intros Ha. pose proof (tr_CHARACTERISTIC G HG) as Hp.
  unfold _multiple_add, pymod.
  destruct (Z.eqb_spec (CHARACTERISTIC G) 0); [lia|].
  rewrite (bind_lift _ _ _ eq_refl).
  pose proof (Z.mod_pos_bound b_int (CHARACTERISTIC G) ltac:(lia)) as Hb.
  destruct (LOG_read G HG a Ha) as (m & Hm & Hma).
  destruct (LOG_read G HG (b_int mod CHARACTERISTIC G) ltac:(lia)) as (n' & Hn & Hnb).
  read_LOG Hm. read_LOG Hn.
  destruct (Z.eqb_spec a 0); [apply bounded_ret|].
  destruct (Z.eqb_spec (b_int mod CHARACTERISTIC G) 0); [apply bounded_ret|].
  cbn [orb]. apply bounded_rdEXP.
  specialize (Hma ltac:(assumption)). specialize (Hnb ltac:(assumption)). lia.
Qed.

Lemma _power_bounded (a b_int : Z) :
  0 <= a < ORDER G -> Forall (in_bounds G) (trace (_power G a b_int)).
Proof.
  intros Ha. pose proof (tr_ORDER G HG) as Hq.
  destruct (LOG_read G HG a Ha) as (m & Hm & Hma).
  unfold _power. read_LOG Hm.
  destruct (Z.eqb_spec b_int 0); [apply bounded_ret|].
  destruct (Z.eqb_spec a 0); [apply bounded_ret|].
  unfold pymod. destruct (Z.eqb_spec (ORDER G - 1) 0); [lia|].
  rewrite (bind_lift _ _ _ eq_refl).
  apply bounded_rdEXP.
  pose proof (Z.mod_pos_bound (wrap_int64 (m * b_int)) (ORDER G - 1) ltac:(lia)). lia.
Qed.

End Bounds.

(** X20: with tables in range, no lookup kernel indexes a table outside its
    bounds on arguments in [[0, order)]: every [LOG] index is in
    [[0, order)], every [EXP] index in [[0, 2 (order - 1))], and every
    [ZECH_LOG] index in [[0, order - 1)] and different from [ZECH_E]. *)
Theorem lookup_accesses_in_bounds :
  forall G, tables_in_range G ->
    forall a b, 0 <= a < ORDER G -> 0 <= b < ORDER G ->
      Forall (in_bounds G) (trace (_add G a b)) /\
      Forall (in_bounds G) (trace (_subtract G a b)) /\
      Forall (in_bounds G) (trace (_multiply G a b)) /\
      Forall (in_bounds G) (trace (_divide G a b)) /\
      Forall (in_bounds G) (trace (_additive_inverse G a)) /\
      Forall (in_bounds G) (trace (_multiplicative_inverse G a)) /\
      (forall b_int, Forall (in_bounds G) (trace (_multiple_add G a b_int))) /\
      (forall b_int, Forall (in_bounds G) (trace (_power G a b_int))) /\
      Forall (in_bounds G) (trace (_log G a)).
Proof.
  intros G HG a b Ha Hb.
  split; [apply _add_bounded; assumption|].
  split; [apply _subtract_bounded; assumption|].
  split; [apply _multiply_bounded; assumption|].
  split; [apply _divide_bounded; assumption|].
  split; [apply _additive_inverse_bounded; assumption|].
  split; [apply _multiplicative_inverse_bounded; assumption|].
  split; [intros b_int; apply _multiple_add_bounded; assumption|].
  split; [intros b_int; apply _power_bounded; assumption|].
  cbn. constructor; [exact Ha | constructor].
Qed.

Lemma lookup_accesses_in_bounds_witness :
  Forall (in_bounds (_target_jit_lookup GF5)) (trace (_add (_target_jit_lookup GF5) 3 4)) /\
  Forall (in_bounds (_target_jit_lookup GF5))
    (trace (_subtract (_target_jit_lookup GF5) 3 4)) /\
  Forall (in_bounds (_target_jit_lookup GF5))
    (trace (_multiply (_target_jit_lookup GF5) 3 4)) /\
  Forall (in_bounds (_target_jit_lookup GF5))
    (trace (_divide (_target_jit_lookup GF5) 3 4)) /\
  Forall (in_bounds (_target_jit_lookup GF5))
    (trace (_additive_inverse (_target_jit_lookup GF5) 3)) /\
  Forall (in_bounds (_target_jit_lookup GF5))
    (trace (_multiplicative_inverse (_target_jit_lookup GF5) 3)) /\
  (forall b_int,
     Forall (in_bounds (_target_jit_lookup GF5))
       (trace (_multiple_add (_target_jit_lookup GF5) 3 b_int))) /\
  (forall b_int,
     Forall (in_bounds (_target_jit_lookup GF5))
       (trace (_power (_target_jit_lookup GF5) 3 b_int))) /\
  Forall (in_bounds (_target_jit_lookup GF5)) (trace (_log (_target_jit_lookup GF5) 3)).
Proof.
  apply (lookup_accesses_in_bounds (_target_jit_lookup GF5)
           (valid_tables_in_range GF5 GF5_valid_field GF5_valid_tables) 3 4);
    cbn; lia.
Defined.

(** ** How the lookup kernels compose *)

(** X21: the lookup [subtract(a, b)] returns what [add(a, negate(b))]
    returns, and for [b <> 0] the lookup [divide(a, b)] returns what
    [multiply(a, multiplicative_inverse(b))] returns. *)
Theorem lookup_subtract_divide_compose :
  forall cls, valid_field cls -> valid_tables cls ->
    forall a b, Felem cls a -> Felem cls b ->
      (exists n, value (_additive_inverse (_target_jit_lookup cls) b) = Ok n /\
                 value (_subtract (_target_jit_lookup cls) a b)
                 = value (_add (_target_jit_lookup cls) a n)) /\
      (b <> 0 ->
         exists i, value (_multiplicative_inverse (_target_jit_lookup cls) b) = Ok i /\
                   value (_divide (_target_jit_lookup cls) a b)
                   = value (_multiply (_target_jit_lookup cls) a i)).
Proof.
  intros cls Hf Ht a b Ha Hb. split.
  - exists (_additive_inverse_python cls b).
    split; [apply _additive_inverse_value; assumption|].
    rewrite (_subtract_value cls Hf Ht), (_add_value cls Hf Ht)
      by (assumption || apply (F_neg cls Hf); assumption).
    rewrite (sub_def cls Hf) by assumption. reflexivity.
  - intros Hb0. exists (_multiplicative_inverse_python cls b).
    split; [apply _multiplicative_inverse_value; assumption|].
    rewrite (_divide_value cls Hf Ht), (_multiply_value cls Hf Ht)
      by (assumption || apply (F_inv cls Hf); assumption).
    unfold _divide_python.
    destruct (Z.eqb_spec a 0) as [->|Ha0].
    + cbn [orb]. rewrite (mul_0_l cls Hf) by (apply (F_inv cls Hf); assumption).
      reflexivity.
    + destruct (Z.eqb_spec b 0); [contradiction | reflexivity].
Qed.

Lemma lookup_subtract_divide_compose_witness :
  (exists n, value (_additive_inverse (_target_jit_lookup GF5) 4) = Ok n /\
             value (_subtract (_target_jit_lookup GF5) 3 4)
             = value (_add (_target_jit_lookup GF5) 3 n)) /\
  (4 <> 0 ->
     exists i, value (_multiplicative_inverse (_target_jit_lookup GF5) 4) = Ok i /\
               value (_divide (_target_jit_lookup GF5) 3 4)
               = value (_multiply (_target_jit_lookup GF5) 3 i)).
Proof.
  apply (lookup_subtract_divide_compose GF5 GF5_valid_field GF5_valid_tables 3 4
           Felem_GF5_3 Felem_GF5_4).
Defined.

(** ** The exponent of -1 *)

Section ZechE.

Variable cls : TargetMixin.
Hypothesis Hf : valid_field cls.
Hypothesis Hprim : primitive cls.
Hypothesis Hp : prime_subfield cls.
Hypothesis Hchar : characteristic cls = 2 \/ Z.odd (characteristic cls) = true.

Ltac felem :=
  repeat first
    [ assumption
    | apply (F_0 cls Hf) | apply (F_1 cls Hf) | apply (F_alpha cls Hf)
    | apply (F_add cls Hf) | apply (F_mul cls Hf) | apply (F_neg cls Hf)
    | apply (F_fpow cls Hf) | apply (F_apow cls Hf)
    | apply (F_inv cls Hf); [|assumption] ].

Lemma primitive_inj i j :
  0 <= i < order cls - 1 -> 0 <= j < order cls - 1 ->
  apow cls i = apow cls j -> i = j.
Proof.
  intros Hi Hj Heq.
  destruct (Hprim (apow cls i) (apow_in_field cls Hf i)) as (e & _ & _ & Huniq).
  rewrite (Huniq i Hi eq_refl). symmetry. apply Huniq; auto.
Qed.

Lemma primitive_period : apow cls (order cls - 1) = 1.
Proof.
  pose proof (order_ge_2 cls Hf) as Hq.
  destruct (Hprim (apow cls (order cls - 1)) (apow_in_field cls Hf _))
    as (e & He & Hp' & _).
  assert (Hone : apow cls (order cls - 1 - e) = 1).
  { apply (mul_cancel_l cls Hf (apow cls e)); try felem.
    - apply (apow_nonzero cls Hf).
    - rewrite <- (apow_add cls Hf), (mul_1_r cls Hf) by (felem || lia).
      replace (e + (order cls - 1 - e)) with (order cls - 1) by lia. auto. }
  destruct (Z.eq_dec e 0) as [->|He0].
  - rewrite <- Hp'. reflexivity.
  - assert (order cls - 1 - e = 0)
      by (apply primitive_inj; [lia | lia | rewrite Hone; reflexivity]).
    lia.
Qed.

Lemma one_plus_one :
  _add_python cls 1 1 = if characteristic cls =? 2 then 0 else 2.
Proof.
  pose proof (vf_characteristic cls Hf) as Hc.
  rewrite Hp by lia. change (1 + 1) with 2.
  destruct (Z.eqb_spec (characteristic cls) 2) as [->|Hne]; [reflexivity|].
  apply Z.mod_small. lia.
Qed.

Lemma order_odd : characteristic cls <> 2 -> Z.odd (order cls) = true.
Proof.
  intros Hne. destruct Hchar as [|Hodd]; [contradiction|].
  rewrite (vf_order cls Hf), Z.odd_pow; [assumption|].
  pose proof (vf_degree cls Hf). lia.
Qed.

(** A square root of 1 other than 1 is -1. *)
Lemma sqrt_1 x :
  Felem cls x -> _multiply_python cls x x = 1 -> x <> 1 ->
  x = _additive_inverse_python cls 1.
Proof.
  intros Hx Hsq Hne.
  set (n1 := _additive_inverse_python cls 1).
  assert (Hn1 : Felem cls n1) by (subst n1; felem).
  assert (Hprod : _multiply_python cls (_add_python cls x n1) (_add_python cls x 1) = 0).
  { rewrite (mul_add_distr_r cls Hf) by felem.
    rewrite !(mul_add_distr_l cls Hf) by felem.
    rewrite Hsq, !(mul_1_r cls Hf) by felem.
    rewrite (mul_comm cls Hf n1 x), (mul_neg1_r cls Hf) by felem.
    rewrite (add_assoc cls Hf 1 x) by felem.
    rewrite <- (add_assoc cls Hf x) by felem.
    rewrite (add_neg_r cls Hf), (add_0_l cls Hf) by felem.
    apply (add_neg_r cls Hf). felem. }
  destruct (Z.eq_dec (_add_python cls x n1) 0) as [Hz|Hnz].
  - exfalso. apply Hne.
    assert (Hopp : n1 = _additive_inverse_python cls x)
      by (apply (neg_unique cls Hf); assumption).
    apply (add_cancel_r cls Hf x 1 n1); try felem.
    rewrite Hz. symmetry. apply (add_neg_r cls Hf). felem.
  - destruct (Z.eq_dec (_add_python cls x 1) 0) as [Hz1|Hnz1].
    + rewrite (add_comm cls Hf) in Hz1 by felem.
      apply (neg_unique cls Hf); assumption || felem.
    + exfalso. revert Hprod. apply (mul_nonzero cls Hf); assumption || felem.
Qed.

(** X22: the exponent [ZECH_E] that [_target_jit_lookup] sets, 0 in
    characteristic 2 and [(order - 1) // 2] otherwise, is an exponent of
    [-1]: for a field whose primitive element enumerates the non-zero
    elements, [alpha^ZECH_E = -1], with [0 <= ZECH_E < order - 1]. *)
Theorem ZECH_E_is_exponent_of_minus_1 :
  0 <= ZECH_E (_target_jit_lookup cls) < order cls - 1 /\
  apow cls (ZECH_E (_target_jit_lookup cls)) = _additive_inverse_python cls 1.
Proof.
  pose proof (order_ge_2 cls Hf) as Hq.
  rewrite (ZECH_E_G cls).
  pose proof one_plus_one as H11.
  destruct (Z.eqb_spec (characteristic cls) 2) as [Hc2|Hodd].
  - split; [lia|]. apply (neg_unique cls Hf); felem.
  - pose proof (order_odd Hodd) as Ho.
    rewrite Z.odd_spec in Ho. destruct Ho as (t & Ht).
    assert (Hhalf : (order cls - 1) / 2 = t).
    { rewrite Ht. replace (2 * t + 1 - 1) with (t * 2) by lia.
      apply Z.div_mul. lia. }
    rewrite Hhalf. split; [lia|].
    apply sqrt_1.
    + felem.
    + rewrite <- (apow_add cls Hf) by lia.
      replace (t + t) with (order cls - 1) by lia. apply primitive_period.
    + intros H1. assert (t = 0) by (apply primitive_inj; [lia | lia | exact H1]).
      lia.
Qed.

End ZechE.

Lemma GF5_primitive : primitive GF5.
Proof.
  intros a Ha. destruct (vt_LOG GF5 GF5_valid_tables a Ha) as (e & _ & He & Hp & Hu).
  exists e. auto.
Defined.

Lemma ZECH_E_is_exponent_of_minus_1_witness :
  0 <= ZECH_E (_target_jit_lookup GF5) < order GF5 - 1 /\
  apow GF5 (ZECH_E (_target_jit_lookup GF5)) = _additive_inverse_python GF5 1.
Proof.
  apply (ZECH_E_is_exponent_of_minus_1 GF5 GF5_valid_field GF5_primitive
           GF5_prime_subfield).
  right. reflexivity.
Defined.
